(** * swayimg: command line parsing and bootstrap (src/main.c)

    A shallow embedding of [parse_cmdline] and [main] together with a model
    of the C library's [getopt_long], on which both depend.  Strings are
    [String.string], [int]s are [Z], array indices are [nat]. *)

From Stdlib Require Import ZArith String Ascii List Bool Arith Lia Permutation.
Import ListNotations.
Open Scope string_scope.
Open Scope list_scope.

(** ** Characters *)

(** Code of a character literal, as in the [case 'f':] labels. *)
Definition chr (c : ascii) : Z := Z.of_N (N_of_ascii c).

(** Conversion [int -> char] done by the store [*short_opts_ptr++ = opt->val]:
    the value is reduced modulo 256. *)
Definition char_of_int (v : Z) : ascii := ascii_of_N (Z.to_N (v mod 256)).

(** Conversion [char -> int] done by [return c] in getopt; plain [char] is
    signed on the platforms the program targets. *)
Definition int_of_char (c : ascii) : Z :=
  let n := chr c in if (n <? 128)%Z then n else (n - 256)%Z.

Definition NUL : ascii := Ascii.zero.

Definition is_NUL (c : ascii) : bool := Ascii.eqb c NUL.

(** ** The option table (main.c, lines 16-27) *)

Definition no_argument : Z := 0.
Definition required_argument : Z := 1.
Definition optional_argument : Z := 2.

(** [struct option] of <getopt.h>.  The [flag] member is [NULL] in every
    entry of the program's table and is left out; [name] is [None] for the
    [NULL] of the terminating entry. *)
Record struct_option : Type := mk_option {
  name : option string;
  has_arg : Z;
  val : Z
}.

Definition options : list struct_option :=
  [ mk_option (Some "fullscreen") no_argument       (chr "f");
    mk_option (Some "scale")      required_argument (chr "s");
    mk_option (Some "background") required_argument (chr "b");
    mk_option (Some "geometry")   required_argument (chr "g");
    mk_option (Some "info")       no_argument       (chr "i");
    mk_option (Some "class")      required_argument (chr "c");
    mk_option (Some "no-sway")    no_argument       (chr "n");
    mk_option (Some "version")    no_argument       (chr "v");
    mk_option (Some "help")       no_argument       (chr "h");
    mk_option None                0%Z               0%Z ].

(** ** Composing the short option string (main.c, lines 58-72) *)

(** A store [buf[i] = c] into an array of [length buf] elements.  A store
    outside the array has no defined result: [None]. *)
Definition store {A : Type} (buf : list A) (i : nat) (c : A) : option (list A) :=
  if (i <? length buf)%nat then Some (firstn i buf ++ c :: skipn (S i) buf) else None.

(** The [for] loop over the table; [ptr] is [short_opts_ptr - short_opts]. *)
Fixpoint compose_loop (opts : list struct_option) (buf : list ascii) (ptr : nat)
  : option (list ascii * nat) :=
  match opts with
  | [] => Some (buf, ptr)
  | opt :: rest =>
      if (val opt =? 0)%Z then compose_loop rest buf ptr
      else
        match store buf ptr (char_of_int (val opt)) with
        | None => None
        | Some buf1 =>
            if (has_arg opt =? no_argument)%Z then compose_loop rest buf1 (S ptr)
            else
              match store buf1 (S ptr) ":"%char with
              | None => None
              | Some buf2 => compose_loop rest buf2 (S (S ptr))
              end
        end
  end.

(** The loop followed by the store of the last null.  The result is the
    buffer and the number of characters stored, the null included. *)
Definition compose_short_opts (opts : list struct_option) (buf0 : list ascii)
  : option (list ascii * nat) :=
  match compose_loop opts buf0 0 with
  | None => None
  | Some (buf, ptr) =>
      match store buf ptr NUL with
      | None => None
      | Some buf' => Some (buf', S ptr)
      end
  end.

(** Size of [short_opts]: twice the number of table entries. *)
Definition short_opts_size (opts : list struct_option) : nat := 2 * length opts.

(** The C string held by a buffer: the characters before the first null. *)
Fixpoint c_str (buf : list ascii) : string :=
  match buf with
  | [] => ""
  | c :: rest => if is_NUL c then "" else String c (c_str rest)
  end.

(** The specification's wording of the short option string: for every entry
    with a non-zero short character, that character, followed by a colon if
    and only if the entry requires an argument; in table order. *)
Definition short_spec_of (o : struct_option) : string :=
  if (val o =? 0)%Z then ""
  else String (char_of_int (val o))
              (if (has_arg o =? required_argument)%Z then ":" else "").

Definition short_spec (opts : list struct_option) : string :=
  String.concat "" (map short_spec_of opts).

(** Entries the specification's data model allows: arity none or required,
    and a short character that is a character (not null once stored). *)
Definition option_ok (o : struct_option) : Prop :=
  (has_arg o = no_argument \/ has_arg o = required_argument) /\
  (val o <> 0%Z -> char_of_int (val o) <> NUL).

(** The string [parse_cmdline] hands to getopt_long.  The buffer is an
    uninitialised local; its first contents do not matter (see
    [compose_short_opts_any_buffer]). *)
Definition short_opts : string :=
  match compose_short_opts options (repeat NUL (short_opts_size options)) with
  | Some (buf, _) => c_str buf
  | None => ""
  end.

(** ** getopt_long of the C library

    [parse_cmdline] is a loop around [getopt_long], which is not part of the
    program.  The model below follows the GNU implementation
    ([_getopt_internal_r] and [process_long_option]) as called here:
    [longind] is [NULL], [opterr] is 0 (nothing is printed), the option
    string starts with none of ['+'], ['-'] and has no ["W;"], and every
    [flag] is [NULL].  The ordering is [REQUIRE_ORDER] when the environment
    variable POSIXLY_CORRECT is set and [PERMUTE] otherwise.  [optopt],
    which the program does not read, is left out. *)

Inductive ordering : Type := REQUIRE_ORDER | PERMUTE.

(** The scanner's variables, and [argv], which getopt reorders in place. *)
Record getopt_data : Type := mk_data {
  d_argv : list string;
  optind : nat;
  optarg : option string;
  nextchar : string;          (* [""] when [NULL] or at the terminator *)
  first_nonopt : nat;
  last_nonopt : nat
}.

Definition set_argv (d : getopt_data) (a : list string) : getopt_data :=
  mk_data a (optind d) (optarg d) (nextchar d) (first_nonopt d) (last_nonopt d).
Definition set_optind (d : getopt_data) (n : nat) : getopt_data :=
  mk_data (d_argv d) n (optarg d) (nextchar d) (first_nonopt d) (last_nonopt d).
Definition set_optarg (d : getopt_data) (a : option string) : getopt_data :=
  mk_data (d_argv d) (optind d) a (nextchar d) (first_nonopt d) (last_nonopt d).
Definition set_nextchar (d : getopt_data) (s : string) : getopt_data :=
  mk_data (d_argv d) (optind d) (optarg d) s (first_nonopt d) (last_nonopt d).
Definition set_first_nonopt (d : getopt_data) (n : nat) : getopt_data :=
  mk_data (d_argv d) (optind d) (optarg d) (nextchar d) n (last_nonopt d).
Definition set_last_nonopt (d : getopt_data) (n : nat) : getopt_data :=
  mk_data (d_argv d) (optind d) (optarg d) (nextchar d) (first_nonopt d) n.

(** The state after the initialisation done by the first call: [optind] is
    1 and no non-option has been skipped. *)
Definition getopt_init (argv : list string) : getopt_data :=
  mk_data argv 1 None "" 1 1.

(** [argv[i]]; reads are guarded by [i < argc] in the code. *)
Definition arg (a : list string) (i : nat) : string := nth i a "".

(** [NONOPTION_P]: [argv[optind][0] != '-' || argv[optind][1] == '\0']. *)
Definition NONOPTION_P (s : string) : bool :=
  match s with
  | String "-" (String _ _) => false
  | _ => true
  end.

(** [exchange]: swaps the skipped non-options [first_nonopt, last_nonopt)
    with the options [last_nonopt, optind) that follow them, each block
    keeping its order, and updates the two marks. *)
Definition exchange (d : getopt_data) : getopt_data :=
  let a := d_argv d in
  let bottom := first_nonopt d in
  let middle := last_nonopt d in
  let top := optind d in
  let a' := firstn bottom a
            ++ firstn (top - middle) (skipn middle a)
            ++ firstn (middle - bottom) (skipn bottom a)
            ++ skipn top a in
  set_last_nonopt (set_first_nonopt (set_argv d a') (bottom + (top - middle))) top.

(** [while (optind < argc && NONOPTION_P) optind++], on [argv + optind]. *)
Fixpoint skip_nonoptions (rest : list string) (i : nat) : nat :=
  match rest with
  | s :: rest' => if NONOPTION_P s then skip_nonoptions rest' (S i) else i
  | [] => i
  end.

(** The [PERMUTE] block at the start of a new argv element. *)
Definition permute_step (d : getopt_data) : getopt_data :=
  let d1 :=
    if negb (first_nonopt d =? last_nonopt d)%nat && negb (last_nonopt d =? optind d)%nat
    then exchange d
    else if negb (last_nonopt d =? optind d)%nat
         then set_first_nonopt d (optind d)
         else d in
  let i := skip_nonoptions (skipn (optind d1) (d_argv d1)) (optind d1) in
  set_last_nonopt (set_optind d1 i) i.

(** The block for the special element ["--"]. *)
Definition dashdash_step (d : getopt_data) : getopt_data :=
  let argc := length (d_argv d) in
  if (negb (optind d =? argc)%nat && (arg (d_argv d) (optind d) =? "--")%string)%bool then
    let d1 := set_optind d (S (optind d)) in
    let d2 :=
      if negb (first_nonopt d1 =? last_nonopt d1)%nat && negb (last_nonopt d1 =? optind d1)%nat
      then exchange d1
      else if (first_nonopt d1 =? last_nonopt d1)%nat
           then set_first_nonopt d1 (optind d1)
           else d1 in
    set_optind (set_last_nonopt d2 argc) argc
  else d.

(** [strchr (optstring, c)]: the rest of the string from the first [c]. *)
Fixpoint strchr (s : string) (c : ascii) : option string :=
  match s with
  | "" => None
  | String c' r => if Ascii.eqb c' c then Some s else strchr r c
  end.

(** The value returned for a missing argument. *)
Definition missing_arg_code (optstring : string) : Z :=
  match optstring with
  | String ":" _ => chr ":"
  | _ => chr "?"
  end.

(** A short option character [c] with [rest] behind it in its element:
    [nextchar] has already been moved past [c]. *)
Definition short_option (optstring : string) (c : ascii) (rest : string)
    (d : getopt_data) : Z * getopt_data :=
  let argc := length (d_argv d) in
  let d := set_nextchar d rest in
  let d := if (rest =? "")%string then set_optind d (S (optind d)) else d in
  match strchr optstring c with
  | None => (chr "?", d)
  | Some temp =>
      if (Ascii.eqb c ":" || Ascii.eqb c ";")%bool then (chr "?", d)
      else
        match temp with
        | String _ (String ":" (String ":" _)) =>
            (* an option with an optional argument *)
            if (rest =? "")%string
            then (int_of_char c, set_nextchar (set_optarg d None) "")
            else (int_of_char c,
                  set_nextchar (set_optind (set_optarg d (Some rest)) (S (optind d))) "")
        | String _ (String ":" _) =>
            (* an option that requires an argument *)
            if negb (rest =? "")%string
            then (int_of_char c,
                  set_nextchar (set_optind (set_optarg d (Some rest)) (S (optind d))) "")
            else if (optind d =? argc)%nat
            then (missing_arg_code optstring, set_nextchar d "")
            else (int_of_char c,
                  set_nextchar
                    (set_optind (set_optarg d (Some (arg (d_argv d) (optind d))))
                                (S (optind d))) "")
        | _ => (int_of_char c, d)
        end
  end.

(** The name of a long option, up to ['='] or the end, and the text after
    the ['='] when there is one. *)
Fixpoint name_end (s : string) : string * option string :=
  match s with
  | "" => ("", None)
  | String c r =>
      if Ascii.eqb c "=" then ("", Some r)
      else let (n, a) := name_end r in (String c n, a)
  end.

(** The entries visited by [for (p = longopts; p->name; p++)]. *)
Fixpoint named_entries (longopts : list struct_option) : list (string * struct_option) :=
  match longopts with
  | [] => []
  | p :: rest =>
      match name p with
      | None => []
      | Some n => (n, p) :: named_entries rest
      end
  end.

Inductive lookup_result : Type :=
| Found (p : struct_option)
| Ambiguous
| NotFound.

(** Two abbreviation matches clash when they differ in [has_arg] or [val]. *)
Definition clashes (p q : struct_option) : bool :=
  negb ((has_arg p =? has_arg q)%Z && (val p =? val q)%Z).

(** Exact match first, then abbreviations. *)
Definition lookup_long (nm : string) (longopts : list struct_option) : lookup_result :=
  let es := named_entries longopts in
  match find (fun e => (fst e =? nm)%string) es with
  | Some e => Found (snd e)
  | None =>
      match filter (fun e => prefix nm (fst e)) es with
      | [] => NotFound
      | e :: more =>
          if existsb (fun e' => clashes (snd e) (snd e')) more
          then Ambiguous
          else Found (snd e)
      end
  end.

(** [process_long_option], entered with [nextchar] just behind ["--"]. *)
Definition process_long_option (optstring : string) (longopts : list struct_option)
    (d : getopt_data) : Z * getopt_data :=
  let argc := length (d_argv d) in
  let (nm, eq_arg) := name_end (nextchar d) in
  match lookup_long nm longopts with
  | Ambiguous | NotFound =>
      (chr "?", set_optind (set_nextchar d "") (S (optind d)))
  | Found p =>
      let d := set_nextchar (set_optind d (S (optind d))) "" in
      match eq_arg with
      | Some a =>
          if negb (has_arg p =? 0)%Z
          then (val p, set_optarg d (Some a))
          else (chr "?", d)
      | None =>
          if (has_arg p =? 1)%Z then
            if (optind d <? argc)%nat
            then (val p, set_optind (set_optarg d (Some (arg (d_argv d) (optind d))))
                                    (S (optind d)))
            else (missing_arg_code optstring, d)
          else (val p, d)
      end
  end.

(** The start of a new argv element: the marks are kept below [optind],
    skipped non-options are moved behind the options just processed
    ([PERMUTE]), and ["--"] ends the options. *)
Definition advance (ord : ordering) (d : getopt_data) : getopt_data :=
  let d := set_last_nonopt d (Nat.min (last_nonopt d) (optind d)) in
  let d := set_first_nonopt d (Nat.min (first_nonopt d) (optind d)) in
  let d := match ord with PERMUTE => permute_step d | REQUIRE_ORDER => d end in
  dashdash_step d.

(** What an argv element that is not a non-option is: ["--foo"] is always
    a long option, anything else with a dash is a run of short options. *)
Inductive element : Type :=
| LongOption (body : string)
| ShortOptions (c : ascii) (rest : string)
| NonOption.

Definition classify (tok : string) : element :=
  match tok with
  | String "-" (String "-" r) => LongOption r
  | String "-" (String c rest) => ShortOptions c rest
  | _ => NonOption
  end.

(** One call of [getopt_long (argc, argv, optstring, longopts, NULL)]. *)
Definition getopt_long (ord : ordering) (optstring : string)
    (longopts : list struct_option) (d : getopt_data) : Z * getopt_data :=
  if (length (d_argv d) <? 1)%nat then ((-1)%Z, d)
  else
    let d := set_optarg d None in
    match nextchar d with
    | String c rest => short_option optstring c rest d
    | "" =>
        let d := advance ord d in
        let argc := length (d_argv d) in
        if (optind d =? argc)%nat then
          (* all elements done: back over the skipped non-options *)
          ((-1)%Z,
           if negb (first_nonopt d =? last_nonopt d)%nat
           then set_optind d (first_nonopt d) else d)
        else
          let tok := arg (d_argv d) (optind d) in
          match classify tok with
          | LongOption r =>
              process_long_option optstring longopts (set_nextchar d r)
          | ShortOptions c rest => short_option optstring c rest d
          | NonOption =>
              (* a non-option that was not skipped *)
              match ord with
              | REQUIRE_ORDER => ((-1)%Z, d)
              | PERMUTE =>
                  (1%Z, set_optind (set_optarg d (Some tok)) (S (optind d)))
              end
          end
    end.

(** ** Configuration and the program's other modules *)

Inductive scale_t : Type := scale_default | scale_fit | scale_real.

Record rect_t : Type := mk_rect { rect_x : Z; rect_y : Z; rect_w : Z; rect_h : Z }.

(** Modelled from the spec: config.h, which declares [config_t], is not
    among the sources.  The fields are those of the specification's
    Configuration; [fullscreen], [sway_wm] (swayIntegration) and [show_info]
    are the ones main.c assigns. *)
Record config_t : Type := mk_config {
  fullscreen : bool;
  sway_wm : bool;
  scale : scale_t;
  background : option (Z * Z * Z);
  geometry : option rect_t;
  show_info : bool;
  app_id : option string
}.

Definition set_fullscreen (c : config_t) (b : bool) : config_t :=
  mk_config b (sway_wm c) (scale c) (background c) (geometry c) (show_info c) (app_id c).
Definition set_sway_wm (c : config_t) (b : bool) : config_t :=
  mk_config (fullscreen c) b (scale c) (background c) (geometry c) (show_info c) (app_id c).
Definition set_show_info (c : config_t) (b : bool) : config_t :=
  mk_config (fullscreen c) (sway_wm c) (scale c) (background c) (geometry c) b (app_id c).

(** Modelled from the spec: the image list type is declared outside main.c;
    a FileSet built by enumeration is an ordered sequence of paths.  [NULL]
    is [None]. *)
Definition file_list_t : Type := list string.

(** What main.c calls in the program's other modules and takes from
    buildcfg.h.  A setter returns its [bool] and the configuration it
    leaves behind; a [const char*] argument is an [option string]. *)
Record externals : Type := mk_externals {
  APP_NAME : string;
  APP_VERSION : string;
  supported_formats : string;
  init_config : option config_t;
  set_scale_config : config_t -> option string -> bool * config_t;
  set_background_config : config_t -> option string -> bool * config_t;
  set_geometry_config : config_t -> option string -> bool * config_t;
  set_appid_config : config_t -> option string -> bool * config_t;
  check_config : config_t -> config_t;
  init_file_list : list string -> bool -> option file_list_t;
  run_viewer : config_t -> option file_list_t -> bool
}.

(** What a run does that can be observed from outside main.c. *)
Inductive event : Type :=
| EvGetopt (ret : Z)                  (* getopt_long was called and returned [ret] *)
| EvStdout (text : string)
| EvStderr (text : string)
| EvCheckConfig
| EvInitFileList (paths : list string) (recursive : bool)
| EvRunViewer (cfg : config_t) (files : option file_list_t).

Definition nl : string := String (ascii_of_nat 10) "".

Definition puts (s : string) : event := EvStdout (s ++ nl).

(** ** print_help (main.c, lines 33-47) *)

Definition print_help (X : externals) : list event :=
  [ puts ("Usage: " ++ APP_NAME X ++ " [OPTION...] [FILE...]");
    puts "  -f, --fullscreen         Full screen mode";
    puts "  -s, --scale=TYPE         Set initial image scale: default, fit, or real";
    puts "  -b, --background=XXXXXX  Set background color as hex RGB";
    puts "  -g, --geometry=X,Y,W,H   Set window geometry";
    puts "  -i, --info               Show image properties";
    puts "  -c, --class              Set window class/app_id";
    puts "  -n, --no-sway            Disable integration with Sway WM";
    puts "  -v, --version            Print version info and exit";
    puts "  -h, --help               Print this help and exit" ].

(** ** parse_cmdline (main.c, lines 56-125) *)

(** What a pass through the [switch] ends with: [break], and the loop
    goes on; or [return]. *)
Inductive action : Type :=
| Break (cfg : config_t)
| Return (rc : Z) (cfg : config_t) (out : list event).

(** A [case] that hands [optarg] to a setter. *)
Definition with_setter (setter : config_t -> option string -> bool * config_t)
    (d : getopt_data) (cfg : config_t) : action :=
  let (ok, cfg') := setter cfg (optarg d) in
  if ok then Break cfg' else Return (-1)%Z cfg' [].

(** What the [case 'v'] prints. *)
Definition print_version (X : externals) : list event :=
  [ puts (APP_NAME X ++ " version " ++ APP_VERSION X ++ ".");
    EvStdout ("Supported formats: " ++ supported_formats X ++ "." ++ nl) ].

(** The [switch (opt)] of lines 78-119. *)
Definition switch (X : externals) (opt : Z) (d : getopt_data) (cfg : config_t)
  : action :=
  if (opt =? chr "f")%Z then Break (set_sway_wm (set_fullscreen cfg true) false)
  else if (opt =? chr "s")%Z then with_setter (set_scale_config X) d cfg
  else if (opt =? chr "b")%Z then with_setter (set_background_config X) d cfg
  else if (opt =? chr "g")%Z then with_setter (set_geometry_config X) d cfg
  else if (opt =? chr "i")%Z then Break (set_show_info cfg true)
  else if (opt =? chr "c")%Z then with_setter (set_appid_config X) d cfg
  else if (opt =? chr "n")%Z then Break (set_sway_wm cfg false)
  else if (opt =? chr "v")%Z then Return 0%Z cfg (print_version X)
  else if (opt =? chr "h")%Z then Return 0%Z cfg (print_help X)
  else Return (-1)%Z cfg
         [ EvStderr ("Invalid argument: " ++ arg (d_argv d) (optind d - 1) ++ nl) ].

(** How the [while] loop was left: by a [return] inside the [switch], or
    because getopt_long returned -1. *)
Inductive loop_exit : Type :=
| Returned (rc : Z)
| Finished.

Record loop_result : Type := mk_loop {
  l_exit : loop_exit;
  l_data : getopt_data;
  l_cfg : config_t;
  l_trace : list event
}.

Definition emit (e : list event) (r : loop_result) : loop_result :=
  mk_loop (l_exit r) (l_data r) (l_cfg r) (e ++ l_trace r).

(** The [while] loop.  [fuel] bounds the number of iterations; [None]
    means the bound was reached. *)
Fixpoint parse_loop (X : externals) (ord : ordering) (fuel : nat)
    (d : getopt_data) (cfg : config_t) : option loop_result :=
  match fuel with
  | O => None
  | S fuel' =>
      let (opt, d) := getopt_long ord short_opts options d in
      option_map (emit [EvGetopt opt])
        (if (opt =? -1)%Z then Some (mk_loop Finished d cfg [])
         else
           match switch X opt d cfg with
           | Break cfg' => parse_loop X ord fuel' d cfg'
           | Return rc cfg' out => Some (mk_loop (Returned rc) d cfg' out)
           end)
  end.

(** An iteration bound for [argv]: every call of getopt_long that does not
    end the scan uses up a character or an element. *)
Definition scan_measure (rest : list string) : nat :=
  fold_right (fun s n => 2 + String.length s + n) 0 rest.

Definition scan_fuel (argv : list string) : nat := S (scan_measure argv).

Record parse_result : Type := mk_parse {
  p_ret : Z;                 (* the value returned by parse_cmdline *)
  p_cfg : config_t;          (* [*cfg] on return *)
  p_argv : list string;      (* [argv] on return *)
  p_trace : list event
}.

(** The ordering getopt_long uses. *)
Definition ordering_of (posixly_correct : bool) : ordering :=
  if posixly_correct then REQUIRE_ORDER else PERMUTE.

Definition parse_cmdline (X : externals) (posixly_correct : bool)
    (argv : list string) (cfg : config_t) : option parse_result :=
  match parse_loop X (ordering_of posixly_correct) (scan_fuel argv)
                   (getopt_init argv) cfg with
  | None => None
  | Some r =>
      match l_exit r with
      | Returned rc => Some (mk_parse rc (l_cfg r) (d_argv (l_data r)) (l_trace r))
      | Finished =>
          Some (mk_parse (Z.of_nat (optind (l_data r)))
                         (check_config X (l_cfg r))
                         (d_argv (l_data r))
                         (l_trace r ++ [EvCheckConfig]))
      end
  end.

(** The specification's reading of the returned [int]. *)
Inductive ParseOutcome : Type :=
| ContinueAt (index : nat)
| ExitSuccess
| ExitFailure.

Definition outcome_of (ret : Z) : ParseOutcome :=
  if (ret =? 0)%Z then ExitSuccess
  else if (ret <? 0)%Z then ExitFailure
  else ContinueAt (Z.to_nat ret).

(** ** main (main.c, lines 130-185) *)

Definition EXIT_SUCCESS : Z := 0.
Definition EXIT_FAILURE : Z := 1.

(** Line 178: the viewer is run and its result mapped to the exit code. *)
Definition dispatch (X : externals) (cfg : config_t) (files : option file_list_t)
  : Z * list event :=
  (if run_viewer X cfg files then EXIT_SUCCESS else EXIT_FAILURE,
   [EvRunViewer cfg files]).

Definition after (tr : list event) (r : Z * list event) : Z * list event :=
  (fst r, tr ++ snd r).

(** Lines 155-178: the file list is chosen from [argv + index] and the
    viewer started.  The source reads [argv] from [index] on, [num_files]
    elements: this is described for [1 <= index <= argc], which is what
    [parse_cmdline] returns for a non-empty [argv].  With [argc = 0] the
    index returned is 1 and the source reads behind the array, with a
    count of [(size_t)(-1)]; no list describes that, and the properties of
    [main] are stated for a non-empty [argv]. *)
Definition main_files (X : externals) (cfg : config_t) (argv : list string)
    (index : Z) : Z * list event :=
  let recursive := true in
  let argc := Z.of_nat (length argv) in
  let num_files := (argc - index)%Z in
  if (num_files =? 0)%Z then
    let curr_dir := "." in
    match init_file_list X [curr_dir] recursive with
    | None =>
        (EXIT_FAILURE,
         [ EvInitFileList [curr_dir] recursive;
           EvStderr ("No image files found in the current directory" ++ nl) ])
    | Some files =>
        after [EvInitFileList [curr_dir] recursive] (dispatch X cfg (Some files))
    end
  else if ((num_files =? 1)%Z && (arg argv (Z.to_nat index) =? "-")%string)%bool then
    dispatch X cfg None
  else
    let paths := firstn (Z.to_nat num_files) (skipn (Z.to_nat index) argv) in
    match init_file_list X paths recursive with
    | None =>
        (EXIT_FAILURE,
         [ EvInitFileList paths recursive;
           EvStderr ("Unable to compose file list from input args" ++ nl) ])
    | Some files =>
        after [EvInitFileList paths recursive] (dispatch X cfg (Some files))
    end.

(** The exit code and what was observed; [None] only if the scan's
    iteration bound were reached.  The releases behind [done:] leave
    nothing to observe and are left out. *)
Definition main (X : externals) (posixly_correct : bool) (argv : list string)
  : option (Z * list event) :=
  match init_config X with
  | None => Some (EXIT_FAILURE, [])
  | Some cfg =>
      match parse_cmdline X posixly_correct argv cfg with
      | None => None
      | Some r =>
          let index := p_ret r in
          if (index =? 0)%Z then Some (EXIT_SUCCESS, p_trace r)
          else if (index <? 0)%Z then Some (EXIT_FAILURE, p_trace r)
          else Some (after (p_trace r) (main_files X (p_cfg r) (p_argv r) index))
      end
  end.

(** ** The specification's FileSetSelector *)

(** The three modes of the specification, chosen from the residual
    positional arguments in its priority order. *)
Inductive file_mode : Type :=
| DefaultDirectory
| StdinPipe
| ExplicitList (paths : list string).

Definition mode_of (positionals : list string) : file_mode :=
  match positionals with
  | [] => DefaultDirectory
  | ["-"] => StdinPipe
  | _ => ExplicitList positionals
  end.

(** A recursive enumeration seeded with [paths]; an empty result is
    reported with [diagnostic] and ends the run with a failure, otherwise
    the viewer is started on the files found. *)
Definition enumerate (X : externals) (cfg : config_t) (paths : list string)
    (diagnostic : string) : Z * list event :=
  match init_file_list X paths true with
  | None => (EXIT_FAILURE, [EvInitFileList paths true; EvStderr (diagnostic ++ nl)])
  | Some files =>
      (if run_viewer X cfg (Some files) then EXIT_SUCCESS else EXIT_FAILURE,
       [EvInitFileList paths true; EvRunViewer cfg (Some files)])
  end.

Definition run_mode (X : externals) (cfg : config_t) (m : file_mode) : Z * list event :=
  match m with
  | DefaultDirectory =>
      enumerate X cfg ["."] "No image files found in the current directory"
  | StdinPipe =>
      (if run_viewer X cfg None then EXIT_SUCCESS else EXIT_FAILURE,
       [EvRunViewer cfg None])
  | ExplicitList paths =>
      enumerate X cfg paths "Unable to compose file list from input args"
  end.

(** ** Predicates on traces *)

Definition is_getopt (e : event) : bool :=
  match e with EvGetopt _ => true | _ => false end.
Definition is_check_config (e : event) : bool :=
  match e with EvCheckConfig => true | _ => false end.
Definition is_init_file_list (e : event) : bool :=
  match e with EvInitFileList _ _ => true | _ => false end.
Definition is_run_viewer (e : event) : bool :=
  match e with EvRunViewer _ _ => true | _ => false end.
Definition is_stderr (e : event) : bool :=
  match e with EvStderr _ => true | _ => false end.

Definition count (p : event -> bool) (tr : list event) : nat :=
  length (filter p tr).

(** The option with short character [c] was applied during the scan. *)
Definition applied (c : ascii) (tr : list event) : Prop :=
  In (EvGetopt (chr c)) tr.

(** ** Assumptions on the setters

    The setters and [check_config] are defined outside main.c.  The
    specification gives every configuration field its own setter; what the
    scan needs of them is that they leave the two flags it assigns alone. *)
Definition keeps_sway_off (f : config_t -> config_t) : Prop :=
  forall c, sway_wm c = false -> sway_wm (f c) = false.

Definition keeps_fullscreen (f : config_t -> config_t) : Prop :=
  forall c, fullscreen (f c) = fullscreen c.

Record setters_frame (X : externals) : Prop := mk_frame {
  frame_scale : forall a, keeps_sway_off (fun c => snd (set_scale_config X c a))
                       /\ keeps_fullscreen (fun c => snd (set_scale_config X c a));
  frame_background :
    forall a, keeps_sway_off (fun c => snd (set_background_config X c a))
           /\ keeps_fullscreen (fun c => snd (set_background_config X c a));
  frame_geometry :
    forall a, keeps_sway_off (fun c => snd (set_geometry_config X c a))
           /\ keeps_fullscreen (fun c => snd (set_geometry_config X c a));
  frame_appid : forall a, keeps_sway_off (fun c => snd (set_appid_config X c a))
                       /\ keeps_fullscreen (fun c => snd (set_appid_config X c a));
  frame_check : keeps_sway_off (check_config X) /\ keeps_fullscreen (check_config X)
}.

(** ** A sample instance of the externals

    Used to run the model on concrete command lines.  The setters follow
    the option descriptions of the usage text. *)
Module Sample.

Definition default_config : config_t :=
  mk_config false true scale_default None None false None.

Definition set_scale (c : config_t) (a : option string) : bool * config_t :=
  let put s := mk_config (fullscreen c) (sway_wm c) s (background c) (geometry c)
                         (show_info c) (app_id c) in
  match a with
  | Some "default" => (true, put scale_default)
  | Some "fit" => (true, put scale_fit)
  | Some "real" => (true, put scale_real)
  | _ => (false, c)
  end.

Definition hex_digit (c : ascii) : option Z :=
  let n := chr c in
  if ((48 <=? n) && (n <=? 57))%Z then Some (n - 48)%Z
  else if ((97 <=? n) && (n <=? 102))%Z then Some (n - 87)%Z
  else if ((65 <=? n) && (n <=? 70))%Z then Some (n - 55)%Z
  else None.

Definition hex_byte (hi lo : ascii) : option Z :=
  match hex_digit hi, hex_digit lo with
  | Some h, Some l => Some (16 * h + l)%Z
  | _, _ => None
  end.

Definition set_background (c : config_t) (a : option string) : bool * config_t :=
  match a with
  | Some (String r1 (String r2 (String g1 (String g2 (String b1 (String b2 "")))))) =>
      match hex_byte r1 r2, hex_byte g1 g2, hex_byte b1 b2 with
      | Some r, Some g, Some b =>
          (true, mk_config (fullscreen c) (sway_wm c) (scale c) (Some (r, g, b))
                           (geometry c) (show_info c) (app_id c))
      | _, _, _ => (false, c)
      end
  | _ => (false, c)
  end.

(** Decimal numbers separated by commas. *)
Fixpoint numbers (s : string) (cur : option Z) : option (list Z) :=
  match s with
  | "" => match cur with Some n => Some [n] | None => None end
  | String ch r =>
      let n := chr ch in
      if ((48 <=? n) && (n <=? 57))%Z then
        numbers r (Some (10 * match cur with Some m => m | None => 0 end + (n - 48))%Z)
      else if Ascii.eqb ch "," then
        match cur, numbers r None with
        | Some m, Some l => Some (m :: l)
        | _, _ => None
        end
      else None
  end.

Definition set_geometry (c : config_t) (a : option string) : bool * config_t :=
  match a with
  | Some s =>
      match numbers s None with
      | Some [x; y; w; h] =>
          (true, mk_config (fullscreen c) (sway_wm c) (scale c) (background c)
                           (Some (mk_rect x y w h)) (show_info c) (app_id c))
      | _ => (false, c)
      end
  | None => (false, c)
  end.

Definition set_appid (c : config_t) (a : option string) : bool * config_t :=
  match a with
  | Some (String ch r) =>
      (true, mk_config (fullscreen c) (sway_wm c) (scale c) (background c)
                       (geometry c) (show_info c) (Some (String ch r)))
  | _ => (false, c)
  end.

(** A full-screen window has no geometry of its own. *)
Definition check (c : config_t) : config_t :=
  if fullscreen c
  then mk_config true (sway_wm c) (scale c) (background c) None (show_info c) (app_id c)
  else c.

(** A file system with three images; anything else is not found. *)
Definition file_exists (p : string) : bool :=
  ((p =? "a.png") || (p =? "b.png") || (p =? "-"))%string%bool.

Definition file_list (paths : list string) (recursive : bool) : option file_list_t :=
  match flat_map (fun p => if (p =? ".")%string
                           then (if recursive then ["./a.png"; "./b.png"; "./-"] else [])
                           else if file_exists p then [p] else []) paths with
  | [] => None
  | l => Some l
  end.

(** The viewer fails on an image named b.png and succeeds otherwise. *)
Definition viewer (c : config_t) (files : option file_list_t) : bool :=
  match files with
  | Some ("b.png" :: _) => false
  | _ => true
  end.

Definition X : externals :=
  mk_externals "swayimg" "1.0" "jpeg, png" (Some default_config)
               set_scale set_background set_geometry set_appid check
               file_list viewer.


End Sample.

(** ** The characters of the short option string *)

(** The characters the loop stores, in the code's own terms: a colon
    follows when [has_arg != no_argument]. *)
Definition loop_chars (opts : list struct_option) : list ascii :=
  flat_map (fun o => if (val o =? 0)%Z then []
                     else char_of_int (val o)
                          :: (if (has_arg o =? no_argument)%Z then [] else [":"%char]))
           opts.

(** ** POSIX option syntax, as the specification describes the scan

    A token beginning with one or two dashes is an option token, read
    against the option table; the token ["--"] ends the options; an option
    that requires an argument takes the rest of its token or else the next
    token; anything else is a positional argument. *)

(** Arity of the short option [c] in the table: [Some true] when it
    requires an argument, [None] when the table has no such option. *)
Definition short_arity (c : ascii) : option bool :=
  match find (fun o => negb (val o =? 0)%Z && (val o =? chr c)%Z) options with
  | Some o => Some (has_arg o =? required_argument)%Z
  | None => None
  end.

(** Whether the short options [s] of one token take the next token as
    the argument of the last of them. *)
Fixpoint short_consumes (s : string) : bool :=
  match s with
  | "" => false
  | String c rest =>
      match short_arity c with
      | Some true => (rest =? "")%string
      | _ => short_consumes rest
      end
  end.

(** The same for a long option, given the text behind ["--"]. *)
Definition long_consumes (body : string) : bool :=
  match name_end body with
  | (nm, None) =>
      match lookup_long nm options with
      | Found p => (has_arg p =? required_argument)%Z
      | _ => false
      end
  | (_, Some _) => false
  end.

Definition consumes_next (tok : string) : bool :=
  match classify tok with
  | LongOption body => long_consumes body
  | ShortOptions c rest => short_consumes (String c rest)
  | NonOption => false
  end.

(** The positional arguments among [toks]; [skip] says that the first
    token is the argument of the option before it.  In POSIX order they
    are everything from the first positional token on; with permutation
    options are looked for behind positional tokens as well. *)
Fixpoint operands (ord : ordering) (skip : bool) (toks : list string) : list string :=
  match toks with
  | [] => []
  | t :: rest =>
      if skip then operands ord false rest
      else if NONOPTION_P t then
        match ord with
        | REQUIRE_ORDER => toks
        | PERMUTE => t :: operands ord false rest
        end
      else if (t =? "--")%string then rest
      else operands ord (consumes_next t) rest
  end.

(** Position of the first positional token of [toks], whose first token
    has position [i]; the position behind the last token when there is
    none. *)
Fixpoint first_positional (skip : bool) (toks : list string) (i : nat) : nat :=
  match toks with
  | [] => i
  | t :: rest =>
      if skip then first_positional false rest (S i)
      else if NONOPTION_P t then i
      else if (t =? "--")%string then S i
      else first_positional (consumes_next t) rest (S i)
  end.

(** The same for a whole [argv], whose element 0 is the program name. *)
Definition first_positional_index (argv : list string) : nat :=
  first_positional false (tl argv) 1.

(** The scan pauses at the first positional token: when it ends with an
    index to continue at, the index is the position of that token in
    [argv] (the length of [argv] when there is none). *)
Definition pauses_at_first_positional (X : externals) (posixly_correct : bool)
    (argv : list string) (cfg : config_t) : Prop :=
  forall r,
    parse_cmdline X posixly_correct argv cfg = Some r ->
    (0 < p_ret r)%Z ->
    outcome_of (p_ret r) = ContinueAt (first_positional_index argv).

(** ** The specification's exit codes *)



(** ** Invariants of the scan *)

(** The elements [i .. j-1] of [l]. *)
Definition seg (i j : nat) (l : list string) : list string :=
  firstn (j - i) (skipn i l).

(** The state between two calls of getopt_long. *)
Definition wf (ord : ordering) (d : getopt_data) : Prop :=
  1 <= first_nonopt d /\ first_nonopt d <= last_nonopt d
  /\ last_nonopt d <= optind d /\ optind d <= length (d_argv d)
  /\ (nextchar d <> "" -> optind d < length (d_argv d))
  /\ (ord = REQUIRE_ORDER -> first_nonopt d = last_nonopt d).

(** What is left to scan: the tokens not yet looked at, and whether the
    first of them is the argument of the option being read. *)
Definition pending (d : getopt_data) : bool * list string :=
  match nextchar d with
  | "" => (false, skipn (optind d) (d_argv d))
  | s => (short_consumes s, skipn (S (optind d)) (d_argv d))
  end.

(** The positional arguments the scan will end with: the non-options
    skipped so far and those among the tokens left. *)
Definition expected (ord : ordering) (d : getopt_data) : list string :=
  seg (first_nonopt d) (last_nonopt d) (d_argv d)
  ++ operands ord (fst (pending d)) (snd (pending d)).

(** The measure that bounds the number of calls left. *)
Definition remaining (d : getopt_data) : nat :=
  match nextchar d with
  | "" => scan_measure (skipn (optind d) (d_argv d))
  | s => String.length s + scan_measure (skipn (S (optind d)) (d_argv d))
  end.

(** Where [optind] ends when getopt_long finds all elements done. *)
Definition final_optind (d : getopt_data) : nat :=
  if (first_nonopt d =? last_nonopt d)%nat then optind d else first_nonopt d.

(** What [advance] establishes from a state [d] between two elements. *)
Definition advance_post (ord : ordering) (d d1 : getopt_data) : Prop :=
  length (d_argv d1) = length (d_argv d)
  /\ nextchar d1 = "" /\ optarg d1 = optarg d
  /\ (ord = REQUIRE_ORDER -> d_argv d1 = d_argv d)
  /\ 1 <= first_nonopt d1 /\ first_nonopt d1 <= last_nonopt d1
  /\ last_nonopt d1 <= optind d1 /\ optind d1 <= length (d_argv d1)
  /\ (exists pre, skipn (optind d) (d_argv d) = pre ++ skipn (optind d1) (d_argv d1))
  /\ (optind d1 = length (d_argv d1) ->
      skipn (final_optind d1) (d_argv d1) = expected ord d
      /\ 1 <= final_optind d1 <= length (d_argv d1))
  /\ (optind d1 < length (d_argv d1) ->
      expected ord d1 = expected ord d
      /\ arg (d_argv d1) (optind d1) <> "--"
      /\ (ord = REQUIRE_ORDER -> first_nonopt d1 = last_nonopt d1)
      /\ (ord = PERMUTE -> NONOPTION_P (arg (d_argv d1) (optind d1)) = false)).

(** The marks while the element at [optind] is being read. *)
Definition reading (ord : ordering) (d : getopt_data) : Prop :=
  1 <= first_nonopt d /\ first_nonopt d <= last_nonopt d
  /\ last_nonopt d <= optind d /\ optind d < length (d_argv d)
  /\ (ord = REQUIRE_ORDER -> first_nonopt d = last_nonopt d).

(** What holds when an option was returned from the element at [optind d]:
    [consumes] says whether what was left of that element takes the next
    one as an argument, [budget] bounds what was left of it. *)
Definition option_post (ord : ordering) (d : getopt_data) (consumes : bool)
    (budget : nat) (d' : getopt_data) : Prop :=
  wf ord d'
  /\ d_argv d' = d_argv d
  /\ optind d <= optind d'
  /\ expected ord d'
     = seg (first_nonopt d) (last_nonopt d) (d_argv d)
       ++ operands ord consumes (skipn (S (optind d)) (d_argv d))
  /\ remaining d' < budget + scan_measure (skipn (S (optind d)) (d_argv d)).

(** ** Runs of the scan loop *)

(** The runs of the [while] loop of parse_cmdline from a scanner state and
    a configuration: getopt_long ends the scan, or the [switch] returns, or
    it breaks and the loop goes round again. *)
Inductive loop_run (X : externals) (ord : ordering)
  : getopt_data -> config_t -> loop_result -> Prop :=
| run_finished d cfg d' :
    getopt_long ord short_opts options d = ((-1)%Z, d') ->
    loop_run X ord d cfg (mk_loop Finished d' cfg [EvGetopt (-1)])
| run_return d cfg opt d' rc cfg' out :
    getopt_long ord short_opts options d = (opt, d') ->
    opt <> (-1)%Z ->
    switch X opt d' cfg = Return rc cfg' out ->
    loop_run X ord d cfg (mk_loop (Returned rc) d' cfg' (EvGetopt opt :: out))
| run_break d cfg opt d' cfg' res :
    getopt_long ord short_opts options d = (opt, d') ->
    opt <> (-1)%Z ->
    switch X opt d' cfg = Break cfg' ->
    loop_run X ord d' cfg' res ->
    loop_run X ord d cfg (emit [EvGetopt opt] res).

(** The short characters of the options that let the scan go on. *)
Definition continuing : list ascii :=
  ["f"; "s"; "b"; "g"; "i"; "c"; "n"]%char.

(** ** Examples *)

(** Concrete command lines, run on the sample externals. *)
Module Examples.

Definition run (posixly_correct : bool) (argv : list string) : parse_result :=
  match parse_cmdline Sample.X posixly_correct argv Sample.default_config with
  | Some r => r
  | None => mk_parse (-1)%Z Sample.default_config argv []
  end.

Definition no_sway_around_fullscreen : list string :=
  ["swayimg"; "--no-sway"; "-f"; "-n"; "a.png"].

Definition help_in_the_middle : list string :=
  ["swayimg"; "-i"; "--help"; "a.png"; "--bogus"].

Definition option_behind_file : list string :=
  ["swayimg"; "a.png"; "-f"].

Definition dash_among_files : list string :=
  ["swayimg"; "-i"; "b.png"; "-"].

Definition scale_then_files : list string :=
  ["swayimg"; "-s"; "fit"; "-fb"; "00ff00"; "a.png"; "zz.png"].


End Examples.

(** ** The scan as a list of events

    A second reading of the scan, by the tokens of the command line alone:
    what the calls of getopt_long return, one after the other (the value
    returned and [optarg]), with no scanner state and no permutation of
    [argv].  That the loop of [parse_cmdline] around [getopt_long] comes to
    the same is proved below ([parse_cmdline_outcome]). *)

(** The short options [s] of one token; [next] is the token behind it,
    if there is one. *)
Fixpoint cluster_events (s : string) (next : option string)
  : list (Z * option string) :=
  match s with
  | "" => []
  | String c rest =>
      match short_arity c with
      | None => (chr "?", None) :: cluster_events rest next
      | Some false => (int_of_char c, None) :: cluster_events rest next
      | Some true =>
          if (rest =? "")%string then
            match next with
            | Some a => [(int_of_char c, Some a)]
            | None => [(chr "?", None)]
            end
          else [(int_of_char c, Some rest)]
      end
  end.

(** A long option, given the text behind ["--"]. *)
Definition long_event (body : string) (next : option string) : Z * option string :=
  let (nm, eq_arg) := name_end body in
  match lookup_long nm options with
  | Found p =>
      match eq_arg with
      | Some a => if (has_arg p =? no_argument)%Z then (chr "?", None) else (val p, Some a)
      | None =>
          if (has_arg p =? required_argument)%Z then
            match next with
            | Some a => (val p, Some a)
            | None => (chr "?", None)
            end
          else (val p, None)
      end
  | Ambiguous | NotFound => (chr "?", None)
  end.

(** The events of the tokens [toks]; [skip] says that the first token is
    the argument of the option before it. *)
Fixpoint events (ord : ordering) (skip : bool) (toks : list string)
  : list (Z * option string) :=
  match toks with
  | [] => []
  | t :: rest =>
      if skip then events ord false rest
      else if (t =? "--")%string then []
      else
        match classify t with
        | NonOption =>
            match ord with
            | REQUIRE_ORDER => []
            | PERMUTE => events ord false rest
            end
        | LongOption body =>
            long_event body (hd_error rest) :: events ord (long_consumes body) rest
        | ShortOptions c r =>
            cluster_events (String c r) (hd_error rest)
            ++ events ord (short_consumes (String c r)) rest
        end
  end.

(** The events still to come in a state of the scanner. *)
Definition upcoming (ord : ordering) (d : getopt_data) : list (Z * option string) :=
  match nextchar d with
  | "" => events ord false (skipn (optind d) (d_argv d))
  | s =>
      cluster_events s (hd_error (skipn (S (optind d)) (d_argv d)))
      ++ events ord (short_consumes s) (skipn (S (optind d)) (d_argv d))
  end.

(** A scanner state that holds nothing but [optarg]. *)
Definition only_optarg (a : option string) : getopt_data := mk_data [] 0 a "" 0 0.

(** The [switch] applied to the events in turn, until it returns or the
    events are used up: how the loop is left, the configuration, and the
    values of getopt_long that were looked at. *)
Fixpoint run_events (X : externals) (evs : list (Z * option string)) (cfg : config_t)
  : loop_exit * config_t * list Z :=
  match evs with
  | [] => (Finished, cfg, [])
  | (opt, a) :: rest =>
      match switch X opt (only_optarg a) cfg with
      | Break cfg' =>
          let '(e, c, codes) := run_events X rest cfg' in (e, c, opt :: codes)
      | Return rc cfg' _ => (Returned rc, cfg', [opt])
      end
  end.

(** What holds when getopt_long has returned [r] from the element at
    [optind d], whose events and those behind it are [evs]. *)
Definition returned_post (ord : ordering) (d : getopt_data)
    (evs : list (Z * option string)) (budget : nat) (r : Z) (d' : getopt_data) : Prop :=
  wf ord d'
  /\ d_argv d' = d_argv d
  /\ evs = (r, optarg d') :: upcoming ord d'
  /\ remaining d' < budget + scan_measure (skipn (S (optind d)) (d_argv d)).

(** The values getopt_long returned during a run, in order. *)
Definition getopt_codes (tr : list event) : list Z :=
  flat_map (fun e => match e with EvGetopt r => [r] | _ => [] end) tr.

(** The short characters of the table's named entries, as getopt_long
    returns them. *)
Definition table_codes : list Z :=
  map (fun e => val (snd e)) (named_entries options).

(** An event carries ['?'] or the character of a table entry. *)
Definition event_code_ok (e : Z * option string) : Prop :=
  fst e = chr "?" \/ In (fst e) table_codes.

(** ** What a scan comes to *)

(** The files a scan leaves to [main]: [argv] from the index returned. *)
Definition files_of (r : parse_result) : list string :=
  if (0 <? p_ret r)%Z then skipn (Z.to_nat (p_ret r)) (p_argv r) else [].

(** What [main] goes on with after a scan: the sign of the value
    returned, the configuration, the values getopt_long gave and the
    files.  The text of a diagnostic and the place of the options in
    [argv] are left out. *)
Definition scan_outcome (r : parse_result) : Z * config_t * list Z * list string :=
  (Z.sgn (p_ret r), p_cfg r, getopt_codes (p_trace r), files_of r).

(** The same, from the events and the positional arguments of a command
    line. *)
Definition events_outcome (X : externals) (evs : list (Z * option string))
    (files : list string) (cfg : config_t) : Z * config_t * list Z * list string :=
  match run_events X evs cfg with
  | (Returned rc, c, codes) => (Z.sgn rc, c, codes, [])
  | (Finished, c, codes) => (1%Z, check_config X c, codes ++ [(-1)%Z], files)
  end.

(** The outcome of the command line [argv], read off its tokens. *)
Definition tokens_outcome (X : externals) (posixly_correct : bool)
    (argv : list string) (cfg : config_t) : Z * config_t * list Z * list string :=
  events_outcome X (events (ordering_of posixly_correct) false (tl argv))
                 (operands (ordering_of posixly_correct) false (tl argv)) cfg.

(** The scan goes through [pre] and is ready for a new token behind it:
    [pre] holds no ["--"], in POSIX order no positional argument, and its
    last option has the argument it requires; [skip] as for [operands]. *)
Fixpoint scans_through (ord : ordering) (skip : bool) (pre : list string) : bool :=
  match pre with
  | [] => negb skip
  | t :: rest =>
      if skip then scans_through ord false rest
      else if NONOPTION_P t then
        match ord with
        | REQUIRE_ORDER => false
        | PERMUTE => scans_through ord false rest
        end
      else if (t =? "--")%string then false
      else scans_through ord (consumes_next t) rest
  end.

(** [pre] holds options with their arguments and nothing else. *)
Definition options_only (pre : list string) : bool :=
  scans_through REQUIRE_ORDER false pre.

(** The outcome of the scan of [argv]. *)
Definition outcome (X : externals) (posixly_correct : bool) (argv : list string)
    (cfg : config_t) : option (Z * config_t * list Z * list string) :=
  option_map scan_outcome (parse_cmdline X posixly_correct argv cfg).

(** The spellings of the option [o], whose long name is [n], on the
    command line: [--name], [--name=value], and [-c] with what follows it
    in the same token. *)
Definition long_form (n : string) : string := "--" ++ n.
Definition long_form_with (n v : string) : string := "--" ++ n ++ "=" ++ v.
Definition short_form (o : struct_option) (behind : string) : string :=
  String "-" (String (char_of_int (val o)) behind).

(** An outcome with other files, when the scan left any to [main]. *)
Definition with_files (files : list string)
    (o : Z * config_t * list Z * list string) : Z * config_t * list Z * list string :=
  let '(s, c, codes, _) := o in
  (s, c, codes, if (0 <? s)%Z then files else []).

(** The outcome of a command line that holds one option with its value,
    from what the setter returns: the scan goes on to the configuration
    check if the value is accepted, and returns -1 at once if not. *)
Definition setter_outcome (X : externals) (code : Z) (res : bool * config_t)
  : Z * config_t * list Z * list string :=
  if fst res then (1%Z, check_config X (snd res), [code; (-1)%Z], [])
  else ((-1)%Z, snd res, [code], []).

(** ** What a run of [main] comes to *)

(** What a run does besides calling getopt_long and writing diagnostics:
    the usage and version texts and the calls of the other modules. *)
Definition acts (tr : list event) : list event :=
  filter (fun e => negb (is_getopt e || is_stderr e)) tr.

(** The exit code of [main] and what it did. *)
Definition main_outcome (X : externals) (posixly_correct : bool) (argv : list string)
  : option (Z * list event) :=
  option_map (fun res => (fst res, acts (snd res))) (main X posixly_correct argv).

(** The same, from the outcome of the scan. *)
Definition main_of_outcome (X : externals) (o : Z * config_t * list Z * list string)
  : Z * list event :=
  let '(s, c, codes, files) := o in
  if (s =? 0)%Z then
    (EXIT_SUCCESS,
     if (last codes 0 =? chr "v")%Z then print_version X else print_help X)
  else if (s <? 0)%Z then (EXIT_FAILURE, [])
  else
    let res := run_mode X c (mode_of files) in
    (fst res, EvCheckConfig :: acts (snd res)).

(** ** The usage text *)

(** How an option starts its line of the usage text. *)
Definition usage_entry (o : struct_option) (n : string) : string :=
  "  -" ++ String (char_of_int (val o)) ", --" ++ n.

(** ** Tokens that end the scan with a diagnostic *)

(** A token of short options: a dash, the characters [chars], and
    [behind]. *)
Definition cluster_token (chars : list ascii) (behind : string) : string :=
  String "-" (fold_right String behind chars).

(** The flags whose [case] ends in [break] whatever the other modules
    do. *)
Definition plain_flags : list ascii := ["f"; "i"; "n"]%char.

(** The character [x] of a token of short options, with [more] behind
    it in the token and the tokens [rest] behind the token, is not
    accepted: the table does not have it, or it requires an argument and
    none is left. *)
Definition rejected_short (x : ascii) (more : string) (rest : list string) : Prop :=
  short_arity x = None \/ (short_arity x = Some true /\ more = "" /\ rest = []).

(** The marks after [advance] at an option, when no file was stepped
    over. *)
Definition mark (ord : ordering) (f i : nat) : nat :=
  match ord with REQUIRE_ORDER => f | PERMUTE => i end.

(** ** More examples *)

(** A run of [main] on the sample externals. *)
Definition sample_main (posixly_correct : bool) (argv : list string) : Z * list event :=
  match main Sample.X posixly_correct argv with
  | Some res => res
  | None => (EXIT_FAILURE, [])
  end.

(** ** Tactics *)

(** Unfolds the updates of the scanner's variables and reads them back. *)
Ltac fields :=
  unfold set_argv, set_optind, set_optarg, set_nextchar, set_first_nonopt,
         set_last_nonopt in *;
  cbn [d_argv optind optarg nextchar first_nonopt last_nonopt fst snd negb andb] in *.

(** The named entries of the table, one by one. *)
Ltac table_entry Hin Hn :=
  unfold options in Hin; cbn [In] in Hin;
  repeat (destruct Hin as [<-|Hin];
          [cbn [name] in Hn; first [discriminate Hn|injection Hn as <-]|]);
  try contradiction.

(** The strings [nm] that are a prefix of a given string, one by one. *)
Ltac each_prefix H nm tac :=
  destruct nm as [|? nm];
  [ tac
  | simpl in H;
    first
      [ discriminate H
      | match type of H with
        | context [ascii_dec ?c ?k] =>
            destruct (ascii_dec c k) as [->|]; [each_prefix H nm tac|discriminate H]
        end ] ].


(** * Properties *)

(** ** The short option string *)

Lemma store_length {A} (buf : list A) i c buf' :
  store buf i c = Some buf' -> length buf' = length buf /\ i < length buf.
Proof.
  unfold store. destruct (Nat.ltb_spec i (length buf)) as [Hlt|]; [|discriminate].
  assert (Hl : length (firstn i buf ++ c :: skipn (S i) buf) = length buf).
  { rewrite length_app, length_firstn. cbn [length]. rewrite length_skipn. lia. }
  intros H. injection H as <-. split; [exact Hl|exact Hlt].
Qed.

Lemma store_in_bounds {A} (buf : list A) i c :
  i < length buf -> exists buf', store buf i c = Some buf'.
Proof.
  intros H. unfold store. destruct (Nat.ltb_spec i (length buf)); [eauto|lia].
Qed.

Lemma store_firstn {A} (buf : list A) i c buf' :
  store buf i c = Some buf' -> firstn (S i) buf' = firstn i buf ++ [c].
Proof.
  unfold store. destruct (Nat.ltb_spec i (length buf)) as [Hlt|]; [|discriminate].
  assert (Hf : firstn (S i) (firstn i buf ++ c :: skipn (S i) buf) = firstn i buf ++ [c]).
  { assert (Hl : length (firstn i buf) = i) by (rewrite length_firstn; lia).
    replace (S i) with (length (firstn i buf) + 1) at 1 by lia.
    rewrite firstn_app_2. reflexivity. }
  intros H. injection H as <-. exact Hf.
Qed.

(** The loop stays inside any buffer with two free cells per entry. *)
Lemma compose_loop_fits opts : forall buf ptr,
  ptr + 2 * length opts <= length buf ->
  exists buf' ptr', compose_loop opts buf ptr = Some (buf', ptr')
    /\ length buf' = length buf /\ ptr' <= ptr + 2 * length opts.
Proof.
  induction opts as [|o opts IH]; intros buf ptr Hfit; simpl in *.
  - exists buf, ptr. repeat split; lia.
  - destruct (val o =? 0)%Z.
    + destruct (IH buf ptr) as (b & p & E & L & B); [lia|].
      exists b, p. repeat split; auto; lia.
    + destruct (store_in_bounds buf ptr (char_of_int (val o))) as [b1 E1]; [lia|].
      rewrite E1. apply store_length in E1 as [L1 _].
      destruct (has_arg o =? no_argument)%Z.
      * destruct (IH b1 (S ptr)) as (b & p & E & L & B); [lia|].
        exists b, p. repeat split; auto; lia.
      * destruct (store_in_bounds b1 (S ptr) ":"%char) as [b2 E2]; [lia|].
        rewrite E2. apply store_length in E2 as [L2 _].
        destruct (IH b2 (S (S ptr))) as (b & p & E & L & B); [lia|].
        exists b, p. repeat split; auto; lia.
Qed.

Lemma compose_loop_app a b : forall buf ptr,
  compose_loop (a ++ b) buf ptr =
  match compose_loop a buf ptr with
  | Some (buf', ptr') => compose_loop b buf' ptr'
  | None => None
  end.
Proof.
  induction a as [|o a IH]; intros buf ptr; simpl; [reflexivity|].
  destruct (val o =? 0)%Z; [apply IH|].
  destruct (store buf ptr (char_of_int (val o))); [|reflexivity].
  destruct (has_arg o =? no_argument)%Z; [apply IH|].
  destruct (store l (S ptr) ":"%char); [apply IH|reflexivity].
Qed.

(** A table closed by an entry without short character fits its buffer:
    at most [2 * (N - 1) + 1] characters are stored. *)
Lemma sentinel_table_fits body last buf0 :
  val last = 0%Z ->
  length buf0 = short_opts_size (body ++ [last]) ->
  exists buf n, compose_short_opts (body ++ [last]) buf0 = Some (buf, n)
    /\ length buf = length buf0
    /\ n <= 2 * (length (body ++ [last]) - 1) + 1
    /\ n <= length buf0.
Proof.
  intros Hv Hlen. unfold short_opts_size in Hlen.
  rewrite length_app in *. simpl in *.
  unfold compose_short_opts. rewrite compose_loop_app.
  destruct (compose_loop_fits body buf0 0) as (b & p & E & L & B); [lia|].
  rewrite E. simpl. rewrite Hv. simpl.
  destruct (store_in_bounds b p NUL) as [b' E']; [lia|].
  rewrite E'. apply store_length in E' as [L' _].
  exists b', (S p). repeat split; lia.
Qed.

(** [options] is such a table. *)
Lemma options_sentinel :
  exists body last, options = body ++ [last] /\ val last = 0%Z.
Proof.
  exists (removelast options), (last options (mk_option None 0 0)).
  split; reflexivity.
Qed.

(** C9. For the static table of N entries, composing the short option
    string stores at most 2*(N-1)+1 characters, the terminating null
    included; every store falls inside the buffer of 2*N characters
    (whatever it held before), so the composition is defined. *)
Theorem C9_short_opts_within_buffer (buf0 : list ascii) :
  length buf0 = short_opts_size options ->
  exists buf n,
    compose_short_opts options buf0 = Some (buf, n)
    /\ n <= 2 * (length options - 1) + 1
    /\ 2 * (length options - 1) + 1 <= short_opts_size options
    /\ length buf = short_opts_size options.
Proof.
  intros Hlen.
  destruct options_sentinel as (body & last & Hopts & Hv).
  rewrite Hopts in *.
  destruct (sentinel_table_fits body last buf0 Hv Hlen) as (buf & n & E & L & B1 & B2).
  exists buf, n. repeat split; auto; try lia.
  unfold short_opts_size. rewrite length_app. simpl. lia.
Qed.

(** C9 on a buffer filled with ['x']. *)
Lemma C9_short_opts_within_buffer_witness :
  length (repeat "x"%char 20) = short_opts_size options
  /\ exists buf n,
       compose_short_opts options (repeat "x"%char 20) = Some (buf, n)
       /\ n <= 2 * (length options - 1) + 1
       /\ 2 * (length options - 1) + 1 <= short_opts_size options
       /\ length buf = short_opts_size options.
Proof.
  split; [reflexivity|].
  apply (C9_short_opts_within_buffer (repeat "x"%char 20)). reflexivity.
Defined.

Lemma compose_loop_chars opts : forall buf ptr buf' ptr',
  compose_loop opts buf ptr = Some (buf', ptr') ->
  firstn ptr' buf' = firstn ptr buf ++ loop_chars opts.
Proof.
  induction opts as [|o opts IH]; intros buf ptr buf' ptr' E; simpl in E.
  - injection E as <- <-. simpl. now rewrite app_nil_r.
  - unfold loop_chars. cbn [flat_map]. fold (loop_chars opts).
    destruct (val o =? 0)%Z; [now apply IH|].
    destruct (store buf ptr (char_of_int (val o))) as [b1|] eqn:E1; [|discriminate].
    apply store_firstn in E1.
    destruct (has_arg o =? no_argument)%Z.
    + apply IH in E. rewrite E, E1, <- app_assoc. reflexivity.
    + destruct (store b1 (S ptr) ":"%char) as [b2|] eqn:E2; [|discriminate].
      apply store_firstn in E2. apply IH in E.
      rewrite E, E2, E1, <- !app_assoc. reflexivity.
Qed.

Lemma c_str_upto_NUL l : forall r,
  Forall (fun c => c <> NUL) l ->
  c_str (l ++ NUL :: r) = string_of_list_ascii l.
Proof.
  induction l as [|c l IH]; intros r H; simpl.
  - reflexivity.
  - inversion H as [|? ? Hc Hl]; subst.
    unfold is_NUL. destruct (Ascii.eqb_spec c NUL) as [->|_]; [contradiction|].
    now rewrite IH.
Qed.

Lemma concat_empty_cons (s : string) (l : list string) :
  String.concat "" (s :: l) = (s ++ String.concat "" l)%string.
Proof.
  destruct l; simpl.
  - symmetry. induction s; simpl; [reflexivity|]. now f_equal.
  - reflexivity.
Qed.

Lemma string_of_list_ascii_app' (a b : list ascii) :
  string_of_list_ascii (a ++ b)
  = (string_of_list_ascii a ++ string_of_list_ascii b)%string.
Proof. induction a; simpl; [reflexivity|]. now f_equal. Qed.

Lemma loop_chars_spec opts :
  Forall option_ok opts ->
  string_of_list_ascii (loop_chars opts) = short_spec opts
  /\ Forall (fun c => c <> NUL) (loop_chars opts).
Proof.
  unfold short_spec.
  induction 1 as [|o opts [Harg Hval] _ [IHs IHn]].
  - split; [reflexivity|constructor].
  - cbn [map]. rewrite concat_empty_cons.
    unfold loop_chars. cbn [flat_map]. fold (loop_chars opts).
    rewrite string_of_list_ascii_app', IHs. unfold short_spec_of.
    destruct (Z.eqb_spec (val o) 0) as [|Hnz]; [split; [reflexivity|exact IHn]|].
    specialize (Hval Hnz).
    assert (Hcolon : ":"%char <> NUL) by discriminate.
    destruct Harg as [-> | ->]; simpl; (split; [reflexivity|]); repeat constructor; auto.
Qed.

(** The composed string read back from the buffer is [short_spec]. *)
Lemma compose_short_opts_correct (body : list struct_option) (last : struct_option)
    (buf0 : list ascii) :
  Forall option_ok (body ++ [last]) ->
  val last = 0%Z ->
  length buf0 = short_opts_size (body ++ [last]) ->
  exists buf n,
    compose_short_opts (body ++ [last]) buf0 = Some (buf, n)
    /\ c_str buf = short_spec (body ++ [last])
    /\ n = S (String.length (short_spec (body ++ [last]))).
Proof.
  intros Hok Hv Hlen.
  destruct (sentinel_table_fits body last buf0 Hv Hlen) as (buf & n & E & _).
  exists buf, n. split; [exact E|].
  unfold compose_short_opts in E.
  destruct (compose_loop (body ++ [last]) buf0 0) as [[b p]|] eqn:El; [|discriminate].
  destruct (store b p NUL) as [b'|] eqn:Es; [|discriminate].
  injection E as <- <-.
  pose proof (store_firstn _ _ _ _ Es) as Hf.
  apply compose_loop_chars in El. simpl in El. rewrite El in Hf.
  destruct (loop_chars_spec _ Hok) as [Hs Hn].
  assert (Hp : p = length (loop_chars (body ++ [last]))).
  { apply store_length in Es as [_ Hlt].
    rewrite <- El, length_firstn. lia. }
  split.
  - rewrite <- (firstn_skipn (S p) b'), Hf, <- app_assoc. simpl.
    rewrite c_str_upto_NUL by exact Hn. exact Hs.
  - rewrite <- Hs, Hp. f_equal.
    generalize (loop_chars (body ++ [last])). induction l; simpl; congruence.
Qed.

(** C7. For a table whose entries have arity none or required and a short
    character that is zero or a character, and which is closed by an entry
    without short character, the composed string is the specification's:
    per entry with a non-zero short character, that character, then a colon
    exactly when the argument is required, in table order and nothing
    else.  It depends on the table only, not on what the buffer held. *)
Theorem C7_short_opts_spec (body : list struct_option) (last : struct_option)
    (buf0 : list ascii) :
  Forall option_ok (body ++ [last]) ->
  val last = 0%Z ->
  length buf0 = short_opts_size (body ++ [last]) ->
  exists buf n,
    compose_short_opts (body ++ [last]) buf0 = Some (buf, n)
    /\ c_str buf = short_spec (body ++ [last])
    /\ n = S (String.length (short_spec (body ++ [last]))).
Proof. apply compose_short_opts_correct. Qed.

Lemma options_ok : Forall option_ok options.
Proof.
  unfold options.
  repeat (constructor;
          [ split;
            [ first [left; reflexivity | right; reflexivity]
            | first [ intros _; vm_compute; discriminate
                    | intros H; exfalso; apply H; reflexivity ] ] | ]).
  constructor.
Qed.

(** C7 on the program's table: the string is ["fs:b:g:ic:nvh"]. *)
Lemma C7_short_opts_spec_witness :
  Forall option_ok options
  /\ val (mk_option None 0 0) = 0%Z
  /\ length (repeat "x"%char 20) = short_opts_size options
  /\ exists buf n,
       compose_short_opts options (repeat "x"%char 20) = Some (buf, n)
       /\ c_str buf = "fs:b:g:ic:nvh"
       /\ n = 14.
Proof.
  split; [exact options_ok|]. split; [reflexivity|]. split; [reflexivity|].
  apply (C7_short_opts_spec (removelast options) (mk_option None 0 0) (repeat "x"%char 20)).
  - exact options_ok.
  - reflexivity.
  - reflexivity.
Defined.

(** The string does not depend on what the buffer held. *)
Lemma compose_short_opts_any_buffer (buf0 : list ascii) :
  length buf0 = short_opts_size options ->
  exists buf n, compose_short_opts options buf0 = Some (buf, n) /\ c_str buf = short_opts.
Proof.
  intros Hlen.
  destruct (compose_short_opts_correct (removelast options) (mk_option None 0 0) buf0
              options_ok eq_refl Hlen) as (buf & n & E & Hs & _).
  exists buf, n. split; [exact E|]. rewrite Hs. reflexivity.
Qed.

(** ** Lists: blocks of argv *)

Lemma firstn_block {A} (P X : list A) i : length P = i -> firstn i (P ++ X) = P.
Proof.
  intros <-. rewrite firstn_app, Nat.sub_diag, firstn_all. simpl. apply app_nil_r.
Qed.

Lemma skipn_block {A} (P X : list A) i : length P = i -> skipn i (P ++ X) = X.
Proof.
  intros <-. rewrite skipn_app, Nat.sub_diag, skipn_all. reflexivity.
Qed.

Lemma seg_block (P N X : list string) i j :
  length P = i -> length N = j - i -> seg i j (P ++ N ++ X) = N.
Proof.
  intros HP HN. unfold seg. rewrite (skipn_block P _ i HP).
  now apply firstn_block.
Qed.

Lemma seg_empty i l : seg i i l = [].
Proof. unfold seg. now rewrite Nat.sub_diag. Qed.

(** An argv with three marks [i <= j <= k] falls into four blocks. *)
Lemma split_blocks (a : list string) i j k :
  i <= j -> j <= k -> k <= length a ->
  exists P N O R,
    a = P ++ N ++ O ++ R
    /\ length P = i /\ length N = j - i /\ length O = k - j
    /\ R = skipn k a /\ N = seg i j a.
Proof.
  intros Hij Hjk Hk.
  exists (firstn i a), (seg i j a), (seg j k a), (skipn k a).
  assert (H1 : forall m n, m <= n -> n <= length a ->
                 skipn m a = seg m n a ++ skipn n a).
  { intros m n Hmn Hn. unfold seg.
    rewrite <- (firstn_skipn (n - m) (skipn m a)) at 1. f_equal.
    rewrite skipn_skipn. f_equal. lia. }
  repeat split.
  - rewrite <- (H1 j k), <- (H1 i j) by lia. symmetry. apply firstn_skipn.
  - rewrite length_firstn. lia.
  - unfold seg. rewrite length_firstn, length_skipn. lia.
  - unfold seg. rewrite length_firstn, length_skipn. lia.
Qed.

Lemma scan_measure_app (a b : list string) :
  scan_measure (a ++ b) = scan_measure a + scan_measure b.
Proof. induction a; simpl; lia. Qed.

Lemma scan_measure_skipn (l : list string) n :
  scan_measure (skipn n l) <= scan_measure l.
Proof.
  rewrite <- (firstn_skipn n l) at 2. rewrite scan_measure_app. lia.
Qed.

Lemma skipn_cons_arg (a : list string) i :
  i < length a -> skipn i a = arg a i :: skipn (S i) a.
Proof.
  revert i. induction a as [|x a IH]; intros i Hi; simpl in Hi; [lia|].
  destruct i; [reflexivity|]. simpl. unfold arg in *. simpl.
  apply IH. lia.
Qed.

(** ** getopt_long: the pieces *)

Lemma exchange_blocks (d : getopt_data) (P N O R : list string) :
  d_argv d = P ++ N ++ O ++ R ->
  first_nonopt d = length P ->
  last_nonopt d = length P + length N ->
  optind d = length P + length N + length O ->
  exchange d = mk_data (P ++ O ++ N ++ R) (optind d) (optarg d) (nextchar d)
                       (length P + length O) (optind d).
Proof.
  destruct d as [a oi oa nc fn ln]. simpl. intros -> -> -> ->.
  unfold exchange, set_last_nonopt, set_first_nonopt, set_argv. simpl.
  f_equal; [|lia].
  rewrite (firstn_block P _ _ eq_refl).
  replace (P ++ N ++ O ++ R) with ((P ++ N) ++ O ++ R) at 1 by now rewrite <- app_assoc.
  rewrite (skipn_block (P ++ N)) by (rewrite length_app; lia).
  rewrite (firstn_block O) by lia.
  rewrite (skipn_block P _ _ eq_refl).
  rewrite (firstn_block N) by lia.
  replace (P ++ N ++ O ++ R) with ((P ++ N ++ O) ++ R) by now rewrite <- !app_assoc.
  rewrite (skipn_block (P ++ N ++ O)) by (rewrite !length_app; lia).
  reflexivity.
Qed.

(** The non-options skipped by the loop are a prefix of what is left. *)
Lemma skip_nonoptions_spec (R : list string) : forall i,
  exists nonopts R',
    R = nonopts ++ R'
    /\ skip_nonoptions R i = i + length nonopts
    /\ Forall (fun s => NONOPTION_P s = true) nonopts
    /\ match R' with [] => True | t :: _ => NONOPTION_P t = false end.
Proof.
  induction R as [|s R IH]; intros i; simpl.
  - exists [], []. repeat split; auto.
  - destruct (NONOPTION_P s) eqn:E.
    + destruct (IH (S i)) as (no & R' & -> & Hs & Hall & Hhd).
      exists (s :: no), R'. simpl. repeat split; auto. lia.
    + exists [], (s :: R). simpl. repeat split; auto.
Qed.

Lemma operands_permute_nonopts (nonopts R : list string) :
  Forall (fun s => NONOPTION_P s = true) nonopts ->
  operands PERMUTE false (nonopts ++ R) = nonopts ++ operands PERMUTE false R.
Proof.
  induction 1 as [|s l Hs _ IH]; simpl; [reflexivity|].
  rewrite Hs. now f_equal.
Qed.

Lemma advance_require_order d :
  wf REQUIRE_ORDER d -> nextchar d = "" ->
  advance_post REQUIRE_ORDER d (advance REQUIRE_ORDER d).
Proof.
  destruct d as [a oi oa nc fn ln]. unfold wf. fields.
  intros (H1 & H2 & H3 & H4 & _ & H6) ->. specialize (H6 eq_refl). subst ln.
  unfold advance. fields. rewrite !Nat.min_l by lia.
  unfold dashdash_step. fields.
  destruct (Nat.eqb_spec oi (length a)) as [Hend|Hend]; fields.
  - unfold advance_post, final_optind, expected, pending. fields.
    rewrite Nat.eqb_refl, seg_empty. subst oi. rewrite skipn_all.
    repeat split; auto; try lia. exists []. reflexivity.
  - destruct (String.eqb_spec (arg a oi) "--") as [Hdd|Hdd]; fields.
    + rewrite Nat.eqb_refl. fields.
      unfold advance_post, final_optind, expected, pending. fields.
      rewrite seg_empty, (skipn_cons_arg a oi) by lia. rewrite Hdd.
      cbn [operands NONOPTION_P String.eqb Ascii.eqb Bool.eqb app].
      repeat split; auto; try lia.
      * eexists. rewrite skipn_all. now rewrite app_nil_r.
      * destruct (Nat.eqb_spec (S oi) (length a)) as [E|E]; [|reflexivity].
        rewrite E. now rewrite skipn_all.
      * destruct (Nat.eqb_spec (S oi) (length a)); lia.
      * destruct (Nat.eqb_spec (S oi) (length a)); lia.
    + unfold advance_post, final_optind, expected, pending. fields.
      repeat split; auto; try lia; try discriminate.
      exists []. reflexivity.
Qed.
Lemma permute_step_spec d :
  wf PERMUTE d -> nextchar d = "" ->
  exists Q N nonopts R',
    permute_step d
    = mk_data (Q ++ (N ++ nonopts) ++ R')
              (length Q + length (N ++ nonopts)) (optarg d) ""
              (length Q) (length Q + length (N ++ nonopts))
    /\ 1 <= length Q
    /\ length (Q ++ (N ++ nonopts) ++ R') = length (d_argv d)
    /\ N = seg (first_nonopt d) (last_nonopt d) (d_argv d)
    /\ skipn (optind d) (d_argv d) = nonopts ++ R'
    /\ Forall (fun s => NONOPTION_P s = true) nonopts
    /\ match R' with [] => True | t :: _ => NONOPTION_P t = false end.
Proof.
  destruct d as [a oi oa nc fn ln]. unfold wf. fields.
  intros (H1 & H2 & H3 & H4 & _) ->.
  destruct (split_blocks a fn ln oi H2 H3 H4) as (P & N & O & R & Ha & HP & HN & HO & HR & HNs).
  destruct (skip_nonoptions_spec R oi) as (no & R' & HRs & Hskip & Hall & Hhd).
  assert (Hcases :
    exists Q ln', length Q + length N = oi /\ length Q >= 1
      /\ length (Q ++ N ++ R) = length a
      /\ (if negb (fn =? ln)%nat && negb (ln =? oi)%nat
          then exchange (mk_data a oi oa "" fn ln)
          else if negb (ln =? oi)%nat
               then set_first_nonopt (mk_data a oi oa "" fn ln) oi
               else mk_data a oi oa "" fn ln)
         = mk_data (Q ++ N ++ R) oi oa "" (length Q) ln').
  { clear HNs.
    destruct (Nat.eqb_spec fn ln) as [Hfl|Hfl]; destruct (Nat.eqb_spec ln oi) as [Hlo|Hlo]; fields.
    - (* nothing skipped, nothing processed *)
      assert (N = []) by (apply length_zero_iff_nil; lia).
      assert (O = []) by (apply length_zero_iff_nil; lia). subst N O.
      exists P, ln. simpl in *. rewrite <- Ha. repeat split; auto; try lia; try (unfold set_first_nonopt; fields; f_equal; lia).
    - assert (N = []) by (apply length_zero_iff_nil; lia). subst N.
      exists (P ++ O), ln. simpl in *. rewrite length_app, <- app_assoc, <- Ha.
      repeat split; auto; try lia; try (unfold set_first_nonopt; fields; f_equal; lia).
    - assert (O = []) by (apply length_zero_iff_nil; lia). subst O.
      exists P, ln. simpl in *. rewrite <- Ha. repeat split; auto; try lia; try (unfold set_first_nonopt; fields; f_equal; lia).
    - rewrite (exchange_blocks _ P N O R); fields; auto; try lia.
      exists (P ++ O), oi. rewrite <- !app_assoc.
      repeat split; auto; rewrite ?length_app; try lia; try reflexivity.
      apply (f_equal (@length string)) in Ha. rewrite !length_app in Ha. lia. }
  destruct Hcases as (Q & ln' & HQ & HQ1 & Hlen & Hd1).
  unfold permute_step. fields. rewrite Hd1. fields.
  exists Q, N, no, R'.
  replace (skipn oi (Q ++ N ++ R)) with R.
  2:{ replace (Q ++ N ++ R) with ((Q ++ N) ++ R) by now rewrite <- app_assoc.
      now rewrite skipn_block by now rewrite length_app. }
  rewrite Hskip.
  repeat split; auto.
  - rewrite HRs. unfold set_last_nonopt, set_optind. fields.
    f_equal; rewrite ?length_app; try lia. now rewrite <- !app_assoc.
  - rewrite <- Hlen, HRs. now rewrite <- !app_assoc.
  - now rewrite <- HR.
Qed.

Lemma arg_block (Q M R : list string) i :
  length (Q ++ M) = i -> arg (Q ++ M ++ R) i = hd "" R.
Proof.
  intros <-. unfold arg. rewrite app_assoc, app_nth2, Nat.sub_diag by lia.
  now destruct R.
Qed.

Lemma skipn_blocks2 (Q M R : list string) i :
  length Q + length M = i -> skipn i (Q ++ M ++ R) = R.
Proof.
  intros <-. rewrite app_assoc. apply skipn_block. now rewrite length_app.
Qed.

Lemma advance_permute d :
  wf PERMUTE d -> nextchar d = "" ->
  advance_post PERMUTE d (advance PERMUTE d).
Proof.
  intros Hwf Hnc.
  destruct (permute_step_spec d Hwf Hnc)
    as (Q & N & no & R' & Hstep & HQ & Hlen & HN & HR & Hall & Hhd).
  destruct d as [a oi oa nc fn ln]. unfold wf in Hwf. fields. subst nc.
  destruct Hwf as (H1 & H2 & H3 & H4 & _).
  assert (Hexp : expected PERMUTE (mk_data a oi oa "" fn ln)
                 = (N ++ no) ++ operands PERMUTE false R').
  { unfold expected, pending. fields. rewrite HR, <- HN.
    rewrite operands_permute_nonopts by exact Hall. now rewrite app_assoc. }
  unfold advance. fields. rewrite !Nat.min_l by lia.
  replace (set_first_nonopt (set_last_nonopt (mk_data a oi oa "" fn ln) ln) fn)
    with (mk_data a oi oa "" fn ln) by reflexivity.
  rewrite Hstep. clear Hstep.
  set (M := N ++ no) in *.
  assert (HlenN : length Q + length M + length R' = length a).
  { rewrite <- Hlen, !length_app. lia. }
  assert (Hargc : length (Q ++ M ++ R') = length Q + length M + length R').
  { rewrite !length_app. lia. }
  unfold dashdash_step. fields.
  rewrite (arg_block Q M R') by (rewrite length_app; lia).
  rewrite Hargc.
  destruct R' as [|t T]; cbn [length hd] in *.
  - (* all elements done *)
    replace (length Q + length M + 0) with (length Q + length M) by lia.
    rewrite Nat.eqb_refl. fields.
    unfold advance_post, final_optind. fields. rewrite Hexp, Hargc.
    cbn [operands length]. rewrite !app_nil_r.
    repeat apply conj; auto; try lia.
    + discriminate.
    + rewrite HR. exists no. now rewrite skipn_all2 by (rewrite length_app; lia).
    + intros _. split.
      * destruct (Nat.eqb_spec (length Q) (length Q + length M)) as [E|E].
        -- assert (HM : M = []) by (apply length_zero_iff_nil; lia).
           rewrite skipn_all2; [now rewrite HM|]. rewrite length_app. lia.
        -- now rewrite skipn_block.
      * destruct (Nat.eqb_spec (length Q) (length Q + length M)); lia.
  - destruct (Nat.eqb_spec (length Q + length M) (length Q + length M + S (length T)))
      as [E|_]; [lia|]. fields.
    destruct (String.eqb_spec t "--") as [Hdd|Hdd]; fields.
    + (* the element "--" *)
      subst t.
      assert (Hfinal : forall Q', length Q' = S (length Q) ->
                 advance_post PERMUTE (mk_data a oi oa "" fn ln)
                   (mk_data (Q' ++ M ++ T) (length Q + length M + S (length T)) oa ""
                            (length Q') (length Q + length M + S (length T)))).
      { intros Q' HQ'.
        assert (Hargc' : length (Q' ++ M ++ T) = length Q + length M + S (length T)).
        { rewrite !length_app. lia. }
        unfold advance_post, final_optind. fields. rewrite Hexp, Hargc'.
        cbn [operands NONOPTION_P String.eqb Ascii.eqb Bool.eqb].
        repeat apply conj; auto; try lia.
        * discriminate.
        * rewrite HR. eexists. rewrite skipn_all2; [now rewrite app_nil_r|]. lia.
        * intros _. split.
          -- destruct (Nat.eqb_spec (length Q') (length Q + length M + S (length T)))
               as [E|E].
             ++ assert (HM : M = []) by (apply length_zero_iff_nil; lia).
                assert (HT : T = []) by (apply length_zero_iff_nil; lia).
                rewrite skipn_all2; [now rewrite HM, HT|]. lia.
             ++ now rewrite skipn_block.
          -- destruct (Nat.eqb_spec (length Q') (length Q + length M + S (length T))); lia. }
      specialize (Hfinal (Q ++ ["--"])).
      rewrite length_app, <- app_assoc in Hfinal. cbn [length app] in Hfinal.
      destruct (Nat.eqb_spec (length Q) (length Q + length M)) as [E|E]; fields.
      * assert (HM : M = []) by (apply length_zero_iff_nil; lia).
        rewrite HM in *. cbn [app length] in *.
        replace (S (length Q + 0)) with (length Q + 1) by lia.
        apply Hfinal. lia.
      * destruct (Nat.eqb_spec (length Q + length M) (S (length Q + length M))); [lia|].
        fields.
        rewrite (exchange_blocks _ Q M ["--"] T); fields; cbn [length app]; try lia; auto.
        apply Hfinal. lia.
    + unfold advance_post. fields. rewrite Hargc. cbn [length].
      rewrite (arg_block Q M (t :: T)) by (rewrite length_app; lia). cbn [hd].
      repeat apply conj; auto; try lia.
      * discriminate.
      * rewrite HR. exists no. now rewrite skipn_blocks2.
      * intros _. repeat apply conj; auto; try discriminate.
        rewrite Hexp. unfold expected, pending. fields.
        rewrite seg_block, skipn_blocks2; auto. lia.
Qed.

Lemma advance_spec ord d :
  wf ord d -> nextchar d = "" -> advance_post ord d (advance ord d).
Proof.
  destruct ord; [apply advance_require_order|apply advance_permute].
Qed.

Lemma short_opts_eq : short_opts = "fs:b:g:ic:nvh".
Proof. reflexivity. Qed.

(** [short_option] for the program's option string, by the arity the
    table gives the character. *)
Lemma short_option_cases (c : ascii) (rest : string) (d : getopt_data) :
  short_option short_opts c rest d =
  let d0 := set_nextchar d rest in
  let d0 := if (rest =? "")%string then set_optind d0 (S (optind d0)) else d0 in
  match short_arity c with
  | None => (chr "?", d0)
  | Some false => (int_of_char c, d0)
  | Some true =>
      if negb (rest =? "")%string
      then (int_of_char c,
            set_nextchar (set_optind (set_optarg d0 (Some rest)) (S (optind d0))) "")
      else if (optind d0 =? length (d_argv d))%nat
      then (chr "?", set_nextchar d0 "")
      else (int_of_char c,
            set_nextchar
              (set_optind (set_optarg d0 (Some (arg (d_argv d0) (optind d0))))
                          (S (optind d0))) "")
  end.
Proof.
  rewrite short_opts_eq.
  destruct c as [[] [] [] [] [] [] [] []]; reflexivity.
Qed.

Lemma operands_skip ord (T : list string) i (a : list string) :
  T = skipn i a -> i < length a ->
  operands ord true T = operands ord false (skipn (S i) a).
Proof.
  intros -> Hi. rewrite (skipn_cons_arg a i Hi). reflexivity.
Qed.

Lemma scan_measure_skipn_S (a : list string) i :
  scan_measure (skipn (S i) a) <= scan_measure (skipn i a).
Proof.
  destruct (Nat.lt_ge_cases i (length a)) as [H|H].
  - rewrite (skipn_cons_arg a i H). simpl. lia.
  - rewrite !skipn_all2 by lia. lia.
Qed.

Lemma short_option_step ord c rest d r d' :
  reading ord d ->
  short_option short_opts c rest d = (r, d') ->
  r <> chr "?" ->
  option_post ord d (short_consumes (String c rest)) (S (String.length rest)) d'.
Proof.
  intros (H1 & H2 & H3 & H4 & H5) E Hr.
  rewrite short_option_cases in E. cbv zeta in E.
  destruct d as [a oi oa nc fn ln]. fields.
  cbn [short_consumes].
  destruct (short_arity c) as [[|]|].
  - (* requires an argument *)
    destruct rest as [|x rest]; cbn [String.eqb negb] in E; fields.
    + destruct (Nat.eqb_spec (S oi) (length a)) as [Hend|Hend];
        injection E as <- <-; [congruence|].
      unfold option_post, wf, expected, pending, remaining. fields.
      cbn [String.eqb String.length].
      repeat apply conj; auto; try lia; try congruence.
      * f_equal. symmetry. apply (operands_skip ord _ (S oi) a); [reflexivity|lia].
      * pose proof (scan_measure_skipn_S a (S oi)). lia.
    + injection E as <- <-.
      unfold option_post, wf, expected, pending, remaining. fields.
      cbn [String.eqb String.length].
      repeat apply conj; auto; try lia; try congruence.
  - (* takes no argument *)
    destruct rest as [|x rest]; cbn [String.eqb negb] in E; fields;
      injection E as <- <-;
      unfold option_post, wf, expected, pending, remaining; fields;
      cbn [String.eqb String.length short_consumes];
      repeat apply conj; auto; try lia; try congruence.
  - destruct rest; cbn [String.eqb] in E; injection E as <- <-; congruence.
Qed.

Lemma long_option_step ord d r d' :
  reading ord d ->
  process_long_option short_opts options d = (r, d') ->
  r <> chr "?" ->
  option_post ord d (long_consumes (nextchar d)) 1 d'.
Proof.
  intros (H1 & H2 & H3 & H4 & H5) E Hr.
  unfold process_long_option in E. unfold long_consumes.
  destruct d as [a oi oa nc fn ln]. fields.
  destruct (name_end nc) as [nm eq_arg].
  destruct (lookup_long nm options) as [p| |];
    try (injection E as <- <-; congruence).
  destruct eq_arg as [v|].
  - destruct (has_arg p =? 0)%Z; cbn [negb] in E;
      injection E as <- <-; [congruence|].
    unfold option_post, wf, expected, pending, remaining. fields.
    repeat apply conj; auto; try lia; try congruence.
  - unfold required_argument.
    destruct (has_arg p =? 1)%Z.
    + destruct (Nat.ltb_spec (S oi) (length a)) as [Hlt|Hge];
        injection E as <- <-; [|vm_compute in Hr; congruence].
      unfold option_post, wf, expected, pending, remaining. fields.
      repeat apply conj; auto; try lia; try congruence.
      * f_equal. symmetry. apply (operands_skip ord _ (S oi) a); [reflexivity|lia].
      * pose proof (scan_measure_skipn_S a (S oi)). lia.
    + injection E as <- <-.
      unfold option_post, wf, expected, pending, remaining. fields.
      repeat apply conj; auto; try lia; try congruence.
Qed.

Lemma classify_cases (tok : string) :
  (classify tok = NonOption /\ NONOPTION_P tok = true)
  \/ (exists r, classify tok = LongOption r /\ NONOPTION_P tok = false)
  \/ (exists c rest, classify tok = ShortOptions c rest /\ NONOPTION_P tok = false
                     /\ (tok =? "--")%string = false).
Proof.
  destruct tok as [|c0 [|c1 r]].
  - left. split; reflexivity.
  - left. destruct c0 as [[] [] [] [] [] [] [] []]; split; reflexivity.
  - destruct c0 as [[] [] [] [] [] [] [] []];
      try (left; split; reflexivity).
    destruct c1 as [[] [] [] [] [] [] [] []];
      try (right; right; do 2 eexists; repeat split; reflexivity).
    right; left. eexists. split; reflexivity.
Qed.

Lemma short_arity_code (c : ascii) (b : bool) :
  short_arity c = Some b -> int_of_char c <> (-1)%Z.
Proof.
  destruct c as [[] [] [] [] [] [] [] []]; vm_compute; congruence.
Qed.

Lemma short_option_facts c rest d r d' :
  short_option short_opts c rest d = (r, d') ->
  d_argv d' = d_argv d /\ r <> (-1)%Z.
Proof.
  rewrite short_option_cases. cbv zeta.
  destruct d as [a oi oa nc fn ln]. fields.
  destruct (short_arity c) as [[|]|] eqn:Ha;
    destruct rest as [|x rest]; cbn [String.eqb negb]; fields;
    try destruct (Nat.eqb_spec (S oi) (length a));
    intros E; injection E as <- <-; fields; split; try reflexivity;
    try (now apply (short_arity_code c _ Ha)); discriminate.
Qed.

Lemma named_entries_in (opts : list struct_option) n p :
  In (n, p) (named_entries opts) -> In p opts.
Proof.
  induction opts as [|o opts IH]; simpl; [tauto|].
  destruct (name o); simpl; [|tauto].
  intros [[= _ <-]|H]; auto.
Qed.

Lemma lookup_long_in nm opts p : lookup_long nm opts = Found p -> In p opts.
Proof.
  unfold lookup_long.
  destruct (find _ (named_entries opts)) as [[n q]|] eqn:Ef.
  - intros [= <-]. apply find_some in Ef as [Hin _].
    eapply named_entries_in; eauto.
  - destruct (filter _ (named_entries opts)) as [|[n q] more] eqn:Efl; [discriminate|].
    destruct (existsb _ more); [discriminate|]. intros [= <-].
    assert (Hin : In (n, q) (filter (fun e => prefix nm (fst e)) (named_entries opts)))
      by (rewrite Efl; now left).
    apply filter_In in Hin as [Hin _]. eapply named_entries_in; eauto.
Qed.

Lemma options_val_nonneg p : In p options -> (0 <= val p)%Z.
Proof.
  unfold options. simpl.
  intros H. repeat (destruct H as [<-|H]; [vm_compute; discriminate|]). contradiction.
Qed.

Lemma process_long_option_facts d r d' :
  process_long_option short_opts options d = (r, d') ->
  d_argv d' = d_argv d /\ r <> (-1)%Z.
Proof.
  unfold process_long_option. destruct d as [a oi oa nc fn ln]. fields.
  destruct (name_end nc) as [nm eq_arg].
  destruct (lookup_long nm options) as [p| |] eqn:El;
    try (intros E; injection E as <- <-; split; [reflexivity|discriminate]).
  apply lookup_long_in, options_val_nonneg in El.
  destruct eq_arg as [v|].
  - destruct (has_arg p =? 0)%Z; cbn [negb]; intros E; injection E as <- <-;
      split; try reflexivity; try discriminate; lia.
  - destruct (has_arg p =? 1)%Z; [destruct (S oi <? length a)%nat|];
      intros E; injection E as <- <-;
      split; try reflexivity; try (vm_compute; discriminate); lia.
Qed.

Lemma classify_short_length tok c rest :
  classify tok = ShortOptions c rest -> String.length tok = 2 + String.length rest.
Proof.
  destruct tok as [|c0 [|c1 r]].
  - discriminate.
  - destruct c0 as [[] [] [] [] [] [] [] []]; discriminate.
  - destruct c0 as [[] [] [] [] [] [] [] []]; try discriminate.
    destruct c1 as [[] [] [] [] [] [] [] []]; try discriminate;
      intros [= <- <-]; reflexivity.
Qed.

Lemma scan_measure_cons (t : string) (l : list string) :
  scan_measure (t :: l) = 2 + String.length t + scan_measure l.
Proof. reflexivity. Qed.

Lemma wf_reading ord d :
  wf ord d -> optind d < length (d_argv d) -> reading ord d.
Proof. unfold wf, reading. intuition. Qed.

(** One call of getopt_long from a state between two calls: the end of
    the scan leaves [optind] at the positional arguments; a returned
    option keeps the invariant and uses up some of what is left. *)
Lemma getopt_long_step ord d r d' :
  wf ord d ->
  getopt_long ord short_opts options d = (r, d') ->
  length (d_argv d') = length (d_argv d)
  /\ (ord = REQUIRE_ORDER -> d_argv d' = d_argv d)
  /\ (r = (-1)%Z ->
      skipn (optind d') (d_argv d') = expected ord d
      /\ 1 <= optind d' <= length (d_argv d'))
  /\ (r <> (-1)%Z -> r <> chr "?" ->
      wf ord d' /\ expected ord d' = expected ord d /\ remaining d' < remaining d).
Proof.
  intros Hwf E. unfold getopt_long in E.
  assert (Hargc : 1 <= length (d_argv d)) by (unfold wf in Hwf; lia).
  destruct (Nat.ltb_spec (length (d_argv d)) 1) as [|_]; [lia|].
  cbv zeta in E.
  destruct (nextchar d) as [|c rest] eqn:Hnc.
  - (* at the start of an element *)
    replace (nextchar (set_optarg d None)) with "" in E by (now rewrite <- Hnc; destruct d).
    assert (Hwf0 : wf ord (set_optarg d None)) by (destruct d; exact Hwf).
    assert (Hexp0 : expected ord (set_optarg d None) = expected ord d) by now destruct d.
    assert (Hrem0 : remaining (set_optarg d None) = remaining d) by now destruct d.
    assert (Hnc0 : nextchar (set_optarg d None) = "") by (now rewrite <- Hnc; destruct d).
    assert (Harg0 : d_argv (set_optarg d None) = d_argv d) by now destruct d.
    pose proof (advance_spec ord _ Hwf0 Hnc0) as Hadv.
    rewrite <- Hexp0, <- Hrem0, <- Harg0.
    set (d0 := set_optarg d None) in *. clearbody d0. clear d Hwf Hnc Hargc Hexp0 Hrem0 Harg0.
    set (d1 := advance ord d0) in *. clearbody d1.
    destruct Hadv as (A1 & A2 & A3 & A4 & A5 & A6 & A7 & A8 & (pre & A9) & A10 & A11).
    assert (Hrem1 : scan_measure (skipn (optind d1) (d_argv d1)) <= remaining d0).
    { unfold remaining. rewrite Hnc0, A9, scan_measure_app. lia. }
    destruct (Nat.eqb_spec (optind d1) (length (d_argv d1))) as [Hend|Hend].
    + (* all elements done *)
      injection E as <- <-. destruct (A10 Hend) as [B1 B2].
      unfold final_optind in *.
      destruct (first_nonopt d1 =? last_nonopt d1)%nat; cbn [negb];
        destruct d1; fields; repeat apply conj; auto; try congruence;
        intros _; split; auto.
    + assert (Hlt : optind d1 < length (d_argv d1)) by lia.
      destruct (A11 Hlt) as (B1 & B2 & B3 & B4).
      assert (Hwf1 : wf ord d1) by (unfold wf; intuition congruence).
      pose proof (wf_reading ord d1 Hwf1 Hlt) as Hrd.
      assert (Hsk := skipn_cons_arg (d_argv d1) (optind d1) Hlt).
      remember (arg (d_argv d1) (optind d1)) as tok eqn:Htok.
      destruct (classify_cases tok) as [[Hc Hn] | [(body & Hc & Hn) | (c & rest & Hc & Hn & Hdd)]];
        rewrite Hc in E.
      * (* a non-option *)
        destruct ord.
        -- injection E as <- <-. repeat apply conj; auto; try congruence.
           intros _. split; [|lia].
           rewrite <- B1. unfold expected, pending. rewrite A2, B3 by reflexivity.
           rewrite seg_empty, Hsk. cbn [operands app fst snd]. now rewrite Hn.
        -- rewrite B4 in Hn by reflexivity. discriminate.
      * (* a long option *)
        assert (Hrd' : reading ord (set_nextchar d1 body)) by (destruct d1; exact Hrd).
        repeat apply conj.
        -- destruct (process_long_option_facts _ _ _ E) as [-> _].
           now destruct d1.
        -- intros Ho. destruct (process_long_option_facts _ _ _ E) as [-> _].
           rewrite <- (A4 Ho). now destruct d1.
        -- intros ->. destruct (process_long_option_facts _ _ _ E) as [_ Hne]. congruence.
        -- intros _ Hq.
           destruct (long_option_step ord _ _ _ Hrd' E Hq) as (C1 & C2 & C3 & C4 & C5).
           replace (nextchar (set_nextchar d1 body)) with body in * by now destruct d1.
           replace (d_argv (set_nextchar d1 body)) with (d_argv d1) in * by now destruct d1.
           replace (optind (set_nextchar d1 body)) with (optind d1) in * by now destruct d1.
           replace (first_nonopt (set_nextchar d1 body)) with (first_nonopt d1) in *
             by now destruct d1.
           replace (last_nonopt (set_nextchar d1 body)) with (last_nonopt d1) in *
             by now destruct d1.
           split; [exact C1|]. split.
           ++ rewrite C4, <- B1. unfold expected, pending. rewrite A2, Hsk.
              cbn [operands fst snd]. rewrite Hn.
              destruct (String.eqb_spec tok "--") as [Hx|_]; [contradiction|].
              unfold consumes_next. now rewrite Hc.
           ++ rewrite Hsk, scan_measure_cons in Hrem1. lia.
      * (* short options *)
        repeat apply conj.
        -- destruct (short_option_facts _ _ _ _ _ E) as [-> _]. auto.
        -- intros Ho. destruct (short_option_facts _ _ _ _ _ E) as [-> _]. auto.
        -- intros ->. destruct (short_option_facts _ _ _ _ _ E) as [_ Hne]. congruence.
        -- intros _ Hq.
           destruct (short_option_step ord _ _ _ _ _ Hrd E Hq) as (C1 & C2 & C3 & C4 & C5).
           split; [exact C1|]. split.
           ++ rewrite C4, <- B1. unfold expected, pending. rewrite A2, Hsk.
              cbn [operands fst snd]. rewrite Hn, Hdd.
              unfold consumes_next. now rewrite Hc.
           ++ rewrite Hsk, scan_measure_cons in Hrem1.
              pose proof (classify_short_length _ _ _ Hc) as Hlen.
              lia.
  - (* inside an element *)
    replace (nextchar (set_optarg d None)) with (String c rest) in E
      by (now rewrite <- Hnc; destruct d).
    assert (Hlt : optind d < length (d_argv d)).
    { unfold wf in Hwf. apply Hwf. rewrite Hnc. discriminate. }
    assert (Hrd : reading ord (set_optarg d None)).
    { destruct d. apply (wf_reading ord _ Hwf Hlt). }
    repeat apply conj.
    + destruct (short_option_facts _ _ _ _ _ E) as [-> _]. now destruct d.
    + intros _. destruct (short_option_facts _ _ _ _ _ E) as [-> _]. now destruct d.
    + intros ->. destruct (short_option_facts _ _ _ _ _ E) as [_ Hne]. congruence.
    + intros _ Hq.
      destruct (short_option_step ord _ _ _ _ _ Hrd E Hq) as (C1 & C2 & C3 & C4 & C5).
      split; [exact C1|]. split.
      * rewrite C4. unfold expected, pending. rewrite Hnc. now destruct d.
      * unfold remaining at 2. rewrite Hnc. cbn [String.length].
        destruct d; fields; lia.
Qed.

(** ** The scan loop *)

Lemma parse_loop_run X ord fuel : forall d cfg res,
  parse_loop X ord fuel d cfg = Some res -> loop_run X ord d cfg res.
Proof.
  induction fuel as [|fuel IH]; intros d cfg res E; simpl in E; [discriminate|].
  destruct (getopt_long ord short_opts options d) as [opt d'] eqn:Eg.
  destruct (Z.eqb_spec opt (-1)) as [->|Hne].
  - injection E as <-. now apply run_finished.
  - destruct (switch X opt d' cfg) as [cfg'|rc cfg' out] eqn:Es.
    + destruct (parse_loop X ord fuel d' cfg') as [res'|] eqn:El; [|discriminate].
      injection E as <-. eapply run_break; eauto.
    + injection E as <-. eapply run_return; eauto.
Qed.

(** The [switch] breaks for seven options only. *)
Lemma switch_break X opt d cfg cfg' :
  switch X opt d cfg = Break cfg' ->
  exists c, In c continuing /\ opt = chr c.
Proof.
  unfold switch, with_setter, continuing.
  repeat match goal with
         | |- context [(opt =? chr ?c)%Z] =>
             destruct (Z.eqb_spec opt (chr c));
             [ subst opt;
               first [ intros _; exists c; split; [simpl; tauto|reflexivity]
                     | vm_compute; intros H; discriminate H ] | ]
         end.
  discriminate.
Qed.

Lemma continuing_code c : In c continuing -> chr c <> chr "?" /\ chr c <> (-1)%Z.
Proof.
  unfold continuing. simpl. intros H.
  repeat (destruct H as [<-|H]; [split; discriminate|]). contradiction.
Qed.

(** Enough fuel: the loop ends before the bound is reached. *)
Lemma parse_loop_total X ord fuel : forall d cfg,
  wf ord d -> remaining d < fuel ->
  exists res, parse_loop X ord fuel d cfg = Some res.
Proof.
  induction fuel as [|fuel IH]; intros d cfg Hwf Hrem; [lia|]. simpl.
  destruct (getopt_long ord short_opts options d) as [opt d'] eqn:Eg.
  destruct (Z.eqb_spec opt (-1)) as [->|Hne]; [eexists; reflexivity|].
  destruct (switch X opt d' cfg) as [cfg'|rc cfg' out] eqn:Es; [|eexists; reflexivity].
  destruct (switch_break _ _ _ _ _ Es) as (c & Hc & ->).
  destruct (continuing_code c Hc) as [Hq _].
  destruct (getopt_long_step _ _ _ _ Hwf Eg) as (_ & _ & _ & Hstep).
  destruct (Hstep Hne Hq) as (Hwf' & _ & Hrem').
  destruct (IH d' cfg' Hwf') as [res ->]; [lia|].
  eexists; reflexivity.
Qed.

Lemma wf_init ord argv : argv <> [] -> wf ord (getopt_init argv).
Proof.
  intros H. unfold wf, getopt_init. simpl.
  destruct argv; [contradiction|]. simpl. repeat split; auto; try lia. congruence.
Qed.

Lemma remaining_init argv : remaining (getopt_init argv) < scan_fuel argv.
Proof.
  unfold remaining, getopt_init, scan_fuel. cbn [nextchar optind d_argv].
  pose proof (scan_measure_skipn argv 1). lia.
Qed.

(** The scan of any command line ends. *)
Lemma parse_loop_init_total X ord argv cfg :
  exists res, parse_loop X ord (scan_fuel argv) (getopt_init argv) cfg = Some res.
Proof.
  destruct argv as [|prog args].
  - eexists. reflexivity.
  - apply parse_loop_total; [apply wf_init; discriminate|apply remaining_init].
Qed.

Lemma parse_cmdline_total X posix argv cfg :
  exists r, parse_cmdline X posix argv cfg = Some r.
Proof.
  unfold parse_cmdline.
  destruct (parse_loop_init_total X (ordering_of posix) argv cfg) as [res ->].
  destruct (l_exit res); eexists; reflexivity.
Qed.

(** Where a run that finished leaves [optind] and [argv]. *)
Lemma loop_run_finished X ord d cfg res :
  loop_run X ord d cfg res ->
  wf ord d ->
  length (d_argv (l_data res)) = length (d_argv d)
  /\ (ord = REQUIRE_ORDER -> d_argv (l_data res) = d_argv d)
  /\ (l_exit res = Finished ->
      skipn (optind (l_data res)) (d_argv (l_data res)) = expected ord d
      /\ 1 <= optind (l_data res) <= length (d_argv (l_data res))).
Proof.
  induction 1 as [d cfg d' Eg | d cfg opt d' rc cfg' out Eg Hne Es
                 | d cfg opt d' cfg' res Eg Hne Es Hrun IH]; intros Hwf;
    destruct (getopt_long_step _ _ _ _ Hwf Eg) as (Hlen & Hro & Hend & Hstep);
    cbn [l_data l_exit emit].
  - repeat split; auto; now apply Hend.
  - repeat split; auto; discriminate.
  - destruct (switch_break _ _ _ _ _ Es) as (c & Hc & ->).
    destruct (continuing_code c Hc) as [Hq _].
    destruct (Hstep Hne Hq) as (Hwf' & Hexp & _).
    destruct (IH Hwf') as (I1 & I2 & I3).
    repeat split; try congruence.
    + intros Ho. rewrite (I2 Ho). auto.
    + rewrite <- Hexp. now apply I3.
    + now apply I3.
    + now apply I3.
Qed.

(** What the [switch] returns with, and when. *)
Lemma switch_return X opt d cfg rc cfg' out :
  switch X opt d cfg = Return rc cfg' out ->
  (rc = 0%Z /\ cfg' = cfg
   /\ ((opt = chr "v" /\ out = print_version X) \/ (opt = chr "h" /\ out = print_help X)))
  \/ (rc = (-1)%Z /\ out = []
      /\ ((opt = chr "s" /\ set_scale_config X cfg (optarg d) = (false, cfg'))
          \/ (opt = chr "b" /\ set_background_config X cfg (optarg d) = (false, cfg'))
          \/ (opt = chr "g" /\ set_geometry_config X cfg (optarg d) = (false, cfg'))
          \/ (opt = chr "c" /\ set_appid_config X cfg (optarg d) = (false, cfg'))))
  \/ (rc = (-1)%Z /\ cfg' = cfg
      /\ out = [EvStderr ("Invalid argument: " ++ arg (d_argv d) (optind d - 1) ++ nl)]
      /\ (forall c, In c (continuing ++ ["v"; "h"]%char) -> opt <> chr c)).
Proof.
  unfold switch, with_setter.
  destruct (Z.eqb_spec opt (chr "f")) as [|Nf]; [discriminate|].
  destruct (Z.eqb_spec opt (chr "s")) as [|Ns].
  { destruct (set_scale_config X cfg (optarg d)) as [[] c']; intros [= <- <- <-].
    right; left. tauto. }
  destruct (Z.eqb_spec opt (chr "b")) as [|Nb].
  { destruct (set_background_config X cfg (optarg d)) as [[] c']; intros [= <- <- <-].
    right; left. tauto. }
  destruct (Z.eqb_spec opt (chr "g")) as [|Ng].
  { destruct (set_geometry_config X cfg (optarg d)) as [[] c']; intros [= <- <- <-].
    right; left. tauto. }
  destruct (Z.eqb_spec opt (chr "i")) as [|Ni]; [discriminate|].
  destruct (Z.eqb_spec opt (chr "c")) as [|Nc].
  { destruct (set_appid_config X cfg (optarg d)) as [[] c']; intros [= <- <- <-].
    right; left. tauto. }
  destruct (Z.eqb_spec opt (chr "n")) as [|Nn]; [discriminate|].
  destruct (Z.eqb_spec opt (chr "v")) as [|Nv]; [intros [= <- <- <-]; left; tauto|].
  destruct (Z.eqb_spec opt (chr "h")) as [|Nh]; [intros [= <- <- <-]; left; tauto|].
  intros [= <- <- <-]. right; right. repeat split; auto.
  unfold continuing. simpl. intros c H.
  repeat (destruct H as [<-|H]; [assumption|]). contradiction.
Qed.

(** The shape of what a run of the loop leaves in the trace: the options
    that let the scan go on, then the last value of getopt_long, then what
    the [switch] printed before it returned. *)
Lemma loop_run_trace X ord d cfg res :
  loop_run X ord d cfg res ->
  exists codes last out,
    l_trace res = map EvGetopt codes ++ EvGetopt last :: out
    /\ Forall (fun o => exists c, In c continuing /\ o = chr c) codes
    /\ match l_exit res with
       | Finished => last = (-1)%Z /\ out = []
       | Returned rc =>
           last <> (-1)%Z
           /\ exists cfg0, switch X last (l_data res) cfg0 = Return rc (l_cfg res) out
       end.
Proof.
  induction 1 as [d cfg d' Eg | d cfg opt d' rc cfg' out Eg Hne Es
                 | d cfg opt d' cfg' res Eg Hne Es Hrun IH].
  - exists [], (-1)%Z, []. simpl. auto.
  - exists [], opt, out. simpl. eauto.
  - destruct IH as (codes & last & out & Ht & Hc & Hl).
    exists (opt :: codes), last, out. cbn [emit l_trace l_exit l_data l_cfg map app].
    rewrite Ht. repeat split; auto.
    constructor; auto. eapply switch_break; eauto.
Qed.

(** [parse_cmdline] in terms of the runs of its loop. *)
Lemma parse_cmdline_run X posix argv cfg r :
  parse_cmdline X posix argv cfg = Some r ->
  exists res,
    loop_run X (ordering_of posix) (getopt_init argv) cfg res
    /\ match l_exit res with
       | Returned rc => r = mk_parse rc (l_cfg res) (d_argv (l_data res)) (l_trace res)
       | Finished =>
           r = mk_parse (Z.of_nat (optind (l_data res))) (check_config X (l_cfg res))
                        (d_argv (l_data res)) (l_trace res ++ [EvCheckConfig])
       end.
Proof.
  unfold parse_cmdline. intros Hp.
  destruct (parse_loop _ _ _ _ _) as [res|] eqn:E; [|discriminate].
  apply parse_loop_run in E. exists res. split; [exact E|].
  destruct (l_exit res); injection Hp as <-; reflexivity.
Qed.

(** A run from the initial state that finishes leaves [optind] between 1
    and [argc] (at 1 when [argv] is empty). *)
Lemma loop_run_init_finished X ord argv cfg res :
  loop_run X ord (getopt_init argv) cfg res ->
  l_exit res = Finished ->
  1 <= optind (l_data res)
  /\ (argv <> [] -> optind (l_data res) <= length argv)
  /\ length (d_argv (l_data res)) = length argv
  /\ skipn (optind (l_data res)) (d_argv (l_data res)) = operands ord false (tl argv)
  /\ (ord = REQUIRE_ORDER -> d_argv (l_data res) = argv).
Proof.
  intros Hrun Hfin. destruct argv as [|prog args].
  - inversion Hrun; subst;
      match goal with
      | Eg : getopt_long _ _ _ _ = _ |- _ =>
          vm_compute in Eg; injection Eg; intros; subst
      end; try congruence.
    simpl. repeat split; auto. congruence.
  - destruct (loop_run_finished _ _ _ _ _ Hrun (wf_init ord (prog :: args) ltac:(discriminate)))
      as (H1 & H2 & H3).
    destruct (H3 Hfin) as [H4 H5]. cbn [getopt_init d_argv] in *.
    split; [lia|]. split; [intros _; lia|]. split; [exact H1|]. split; [|exact H2].
    rewrite H4. unfold expected, pending, getopt_init.
    cbn [nextchar optind d_argv first_nonopt last_nonopt fst snd].
    now rewrite seg_empty.
Qed.

(** What [parse_cmdline] returns: 0 for version and help, -1 for a
    rejected value or an invalid argument, and otherwise an index from 1
    on, behind which [argv] holds the positional arguments. *)
Lemma parse_cmdline_ret X posix argv cfg r :
  parse_cmdline X posix argv cfg = Some r ->
  exists codes last out,
    Forall (fun o => exists c, In c continuing /\ o = chr c) codes
    /\ ((p_ret r = 0%Z /\ p_trace r = map EvGetopt codes ++ EvGetopt last :: out
         /\ ((last = chr "v" /\ out = print_version X)
             \/ (last = chr "h" /\ out = print_help X)))
        \/ (p_ret r = (-1)%Z /\ p_trace r = map EvGetopt codes ++ EvGetopt last :: out
            /\ ((out = [] /\ In last [chr "s"; chr "b"; chr "g"; chr "c"])
                \/ ((exists tok, out = [EvStderr ("Invalid argument: " ++ tok ++ nl)])
                    /\ last <> (-1)%Z
                    /\ forall c, In c (continuing ++ ["v"; "h"]%char) -> last <> chr c)))
        \/ ((1 <= p_ret r)%Z
            /\ p_trace r = map EvGetopt codes ++ [EvGetopt (-1); EvCheckConfig]
            /\ last = (-1)%Z
            /\ (argv <> [] -> (p_ret r <= Z.of_nat (length argv))%Z)
            /\ length (p_argv r) = length argv
            /\ skipn (Z.to_nat (p_ret r)) (p_argv r)
               = operands (ordering_of posix) false (tl argv)
            /\ (posix = true -> p_argv r = argv))).
Proof.
  intros E. apply parse_cmdline_run in E as (res & Hrun & Hr).
  destruct (loop_run_trace _ _ _ _ _ Hrun) as (codes & last & out & Ht & Hc & Hl).
  exists codes, last, out. split; [exact Hc|].
  destruct (l_exit res) as [rc|] eqn:Hex.
  - subst r. cbn [p_ret p_trace]. destruct Hl as (Hne & cfg0 & Hs).
    apply switch_return in Hs as [(-> & _ & Hvh) | [(-> & -> & Hset) | (-> & _ & -> & Hno)]].
    + left. auto.
    + right; left. repeat split; auto. left. split; auto. simpl.
      destruct Hset as [[-> _]|[[-> _]|[[-> _]|[-> _]]]]; tauto.
    + right; left. repeat split; auto. right. repeat split; eauto.
  - subst r. cbn [p_ret p_trace p_argv]. destruct Hl as [-> ->].
    destruct (loop_run_init_finished _ _ _ _ _ Hrun Hex) as (H1 & H2 & H3 & H4 & H5).
    right; right. rewrite Nat2Z.id. repeat split; auto; try lia.
    + rewrite Ht, <- app_assoc. reflexivity.
    + intros Hn. specialize (H2 Hn). lia.
    + intros ->. now apply H5.
Qed.

(** ** Counting events *)

Lemma count_app p (a b : list event) : count p (a ++ b) = count p a + count p b.
Proof. unfold count. now rewrite filter_app, length_app. Qed.

Lemma count_getopts p codes :
  (forall o, p (EvGetopt o) = false) -> count p (map EvGetopt codes) = 0.
Proof.
  intros H. unfold count. induction codes as [|o codes IH]; simpl; [reflexivity|].
  now rewrite H.
Qed.

Lemma in_getopts e codes : In e (map EvGetopt codes) -> exists o, e = EvGetopt o /\ In o codes.
Proof. rewrite in_map_iff. intros (o & <- & H). eauto. Qed.

Lemma continuing_not_exit o c :
  (exists c', In c' continuing /\ o = chr c') -> In c ["v"; "h"]%char -> o <> chr c.
Proof.
  intros (c' & Hc' & ->) Hc. unfold continuing in Hc'. simpl in *.
  repeat (destruct Hc' as [<-|Hc']; [destruct Hc as [<-|[<-|[]]]; discriminate|]).
  contradiction.
Qed.

(** C8. The configuration check is called exactly once by a scan that
    ends with an index to continue at, and not at all by a scan that ends
    in success (help, version) or failure; every scan ends in one of the
    three ways. *)
Theorem C8_check_config_once (X : externals) (posixly_correct : bool)
    (argv : list string) (cfg : config_t) :
  exists r,
    parse_cmdline X posixly_correct argv cfg = Some r
    /\ count is_check_config (p_trace r)
       = match outcome_of (p_ret r) with
         | ContinueAt _ => 1
         | ExitSuccess | ExitFailure => 0
         end.
Proof.
  destruct (parse_cmdline_total X posixly_correct argv cfg) as [r Hr].
  exists r. split; [exact Hr|].
  destruct (parse_cmdline_ret _ _ _ _ _ Hr) as (codes & last & out & Hc & Hcases).
  assert (Hg : forall o, is_check_config (EvGetopt o) = false) by reflexivity.
  destruct Hcases as [(Hret & Ht & Hout) | [(Hret & Ht & Hout) | (Hret & Ht & _)]];
    rewrite Ht, count_app, (count_getopts _ _ Hg); unfold outcome_of.
  - rewrite Hret. destruct Hout as [[_ ->]|[_ ->]]; reflexivity.
  - rewrite Hret. destruct Hout as [[-> _]|[[tok ->] _]]; reflexivity.
  - destruct (Z.eqb_spec (p_ret r) 0); [lia|].
    destruct (Z.ltb_spec (p_ret r) 0); [lia|]. reflexivity.
Qed.

(** ** Full screen and window manager integration *)

Lemma switch_flags X opt d cfg :
  setters_frame X ->
  forall cfg',
    (switch X opt d cfg = Break cfg' \/ exists rc out, switch X opt d cfg = Return rc cfg' out) ->
    (opt = chr "f" -> sway_wm cfg' = false /\ fullscreen cfg' = true)
    /\ (sway_wm cfg = false -> sway_wm cfg' = false)
    /\ (opt <> chr "f" -> fullscreen cfg' = fullscreen cfg).
Proof.
  intros [Fs Fb Fg Fa _] cfg'. unfold switch.
  assert (Hset : forall setter,
             (forall a, keeps_sway_off (fun c => snd (setter c a))
                        /\ keeps_fullscreen (fun c => snd (setter c a))) ->
             (with_setter setter d cfg = Break cfg'
              \/ exists rc out, with_setter setter d cfg = Return rc cfg' out) ->
             (sway_wm cfg = false -> sway_wm cfg' = false)
             /\ fullscreen cfg' = fullscreen cfg).
  { intros setter Hf H. unfold with_setter in H. destruct (Hf (optarg d)) as [Hs Hfu].
    specialize (Hs cfg). specialize (Hfu cfg). cbv beta in Hs, Hfu.
    destruct (setter cfg (optarg d)) as [[] c']; cbn [snd] in *;
      destruct H as [H|(rc & out & H)]; try discriminate H;
      injection H; intros; subst; auto. }
  destruct (Z.eqb_spec opt (chr "f")) as [->|Nf].
  { intros [[= <-]|(rc & out & [=])]. repeat split; auto. congruence. }
  destruct (Z.eqb_spec opt (chr "s")) as [|Ns].
  { intros H. destruct (Hset _ Fs H). repeat split; auto; congruence. }
  destruct (Z.eqb_spec opt (chr "b")) as [|Nb].
  { intros H. destruct (Hset _ Fb H). repeat split; auto; congruence. }
  destruct (Z.eqb_spec opt (chr "g")) as [|Ng].
  { intros H. destruct (Hset _ Fg H). repeat split; auto; congruence. }
  destruct (Z.eqb_spec opt (chr "i")) as [|Ni].
  { intros [[= <-]|(rc & out & [=])]. repeat split; auto; congruence. }
  destruct (Z.eqb_spec opt (chr "c")) as [|Nc].
  { intros H. destruct (Hset _ Fa H). repeat split; auto; congruence. }
  destruct (Z.eqb_spec opt (chr "n")) as [|Nn].
  { intros [[= <-]|(rc & out & [=])]. repeat split; auto; congruence. }
  destruct (Z.eqb_spec opt (chr "v")) as [|Nv].
  { intros [[=]|(rc & out & [= _ <- _])]. repeat split; auto; congruence. }
  destruct (Z.eqb_spec opt (chr "h")) as [|Nh].
  { intros [[=]|(rc & out & [= _ <- _])]. repeat split; auto; congruence. }
  intros [[=]|(rc & out & [= _ <- _])]. repeat split; auto; congruence.
Qed.

Lemma switch_out_no_getopt X opt d cfg rc cfg' out o :
  switch X opt d cfg = Return rc cfg' out -> ~ In (EvGetopt o) out.
Proof.
  intros Hs Hin.
  apply switch_return in Hs
    as [(_ & _ & [[_ ->]|[_ ->]]) | [(_ & -> & _) | (_ & _ & -> & _)]];
    simpl in Hin; unfold puts in Hin;
    repeat (destruct Hin as [Hin|Hin]; [discriminate|]); contradiction.
Qed.

Lemma loop_run_flags X ord d cfg res :
  setters_frame X ->
  loop_run X ord d cfg res ->
  (applied "f" (l_trace res) -> sway_wm (l_cfg res) = false /\ fullscreen (l_cfg res) = true)
  /\ (sway_wm cfg = false -> sway_wm (l_cfg res) = false)
  /\ (fullscreen cfg = true -> fullscreen (l_cfg res) = true)
  /\ (~ applied "f" (l_trace res) -> fullscreen (l_cfg res) = fullscreen cfg).
Proof.
  intros HF. unfold applied.
  induction 1 as [d cfg d' Eg | d cfg opt d' rc cfg' out Eg Hne Es
                 | d cfg opt d' cfg' res Eg Hne Es Hrun IH];
    cbn [l_trace l_cfg emit app].
  - split; [intros [[=]|[]]|]. auto.
  - destruct (switch_flags X opt d' cfg HF cfg') as (S1 & S2 & S3); [right; eauto|].
    split; [|split; [|split]].
    + intros [[= ->]|Hin]; [now apply S1|].
      now apply (switch_out_no_getopt _ _ _ _ _ _ _ _ Es) in Hin.
    + exact S2.
    + intros Hf. destruct (Z.eq_dec opt (chr "f")) as [->|N]; [now apply S1|].
      rewrite (S3 N). exact Hf.
    + intros Hn. apply S3. intros ->. apply Hn. now left.
  - destruct (switch_flags X opt d' cfg HF cfg') as (S1 & S2 & S3); [left; auto|].
    destruct IH as (I1 & I2 & I3 & I4).
    split; [|split; [|split]].
    + intros [[= ->]|Hin]; [|now apply I1].
      destruct S1 as [Sa Sb]; auto.
    + auto.
    + intros Hf. apply I3. destruct (Z.eq_dec opt (chr "f")) as [->|N]; [now apply S1|].
      rewrite (S3 N). exact Hf.
    + intros Hn. rewrite I4 by (intros Hin; apply Hn; now right).
      apply S3. intros ->. apply Hn. now left.
Qed.

(** C1. Whatever the command line, if the full-screen option was applied
    at any point of the scan, the configuration the scan leaves has
    [sway_wm = false] (and [fullscreen = true]), whichever options came
    before or after; and a scan that never applied it, with --no-sway or
    without, leaves [fullscreen] as it found it.  The setters and
    [check_config] are assumed to leave the two flags alone. *)
Theorem C1_fullscreen_forces_no_sway (X : externals) (posixly_correct : bool)
    (argv : list string) (cfg : config_t) (r : parse_result) :
  setters_frame X ->
  parse_cmdline X posixly_correct argv cfg = Some r ->
  (applied "f" (p_trace r) -> sway_wm (p_cfg r) = false /\ fullscreen (p_cfg r) = true)
  /\ (~ applied "f" (p_trace r) -> fullscreen (p_cfg r) = fullscreen cfg).
Proof.
  intros HF Hr. apply parse_cmdline_run in Hr as (res & Hrun & Hres).
  destruct (loop_run_flags _ _ _ _ _ HF Hrun) as (L1 & _ & _ & L4).
  destruct HF as [_ _ _ _ [Ck1 Ck2]].
  destruct (l_exit res); subst r; cbn [p_trace p_cfg]; [auto|].
  assert (Hin : forall e, e <> EvCheckConfig ->
                  In e (l_trace res ++ [EvCheckConfig]) -> In e (l_trace res)).
  { intros e Hne Hin. apply in_app_or in Hin as [H|[H|[]]]; congruence. }
  unfold applied. split.
  - intros Hf. apply Hin in Hf; [|discriminate]. destruct (L1 Hf) as [La Lb].
    split; [now apply Ck1|]. now rewrite Ck2.
  - intros Hn. rewrite Ck2. apply L4. intros Hf. apply Hn.
    apply in_or_app. now left.
Qed.

(** The sample setters leave the two flags alone. *)
Lemma sample_frame : setters_frame Sample.X.
Proof.
  constructor; cbn [Sample.X set_scale_config set_background_config
                    set_geometry_config set_appid_config check_config];
    try (intros a); split; intros c; try intros Hc;
    unfold Sample.set_scale, Sample.set_background, Sample.set_geometry,
           Sample.set_appid, Sample.check;
    try (destruct c as [[] sw sc bg ge si ap]; cbn [sway_wm fullscreen] in *;
         first [reflexivity | assumption]);
    repeat match goal with
           | |- context [match ?x with _ => _ end] => destruct x
           end; cbn [snd sway_wm fullscreen]; auto.
Qed.

(** C1 on [swayimg --no-sway -f -n a.png]. *)
Lemma C1_fullscreen_forces_no_sway_witness :
  setters_frame Sample.X
  /\ parse_cmdline Sample.X false Examples.no_sway_around_fullscreen Sample.default_config
     = Some (Examples.run false Examples.no_sway_around_fullscreen)
  /\ applied "f" (p_trace (Examples.run false Examples.no_sway_around_fullscreen))
  /\ sway_wm (p_cfg (Examples.run false Examples.no_sway_around_fullscreen)) = false
  /\ fullscreen (p_cfg (Examples.run false Examples.no_sway_around_fullscreen)) = true.
Proof.
  assert (E : parse_cmdline Sample.X false Examples.no_sway_around_fullscreen
                Sample.default_config
              = Some (Examples.run false Examples.no_sway_around_fullscreen))
    by (vm_compute; reflexivity).
  assert (A : applied "f" (p_trace (Examples.run false Examples.no_sway_around_fullscreen)))
    by (vm_compute; tauto).
  split; [exact sample_frame|]. split; [exact E|]. split; [exact A|].
  exact (proj1 (C1_fullscreen_forces_no_sway Sample.X false
                  Examples.no_sway_around_fullscreen Sample.default_config _
                  sample_frame E) A).
Defined.

(** ** Help and version *)

Lemma exit_option_is_last c codes last out :
  In c ["v"; "h"]%char ->
  Forall (fun o => exists c', In c' continuing /\ o = chr c') codes ->
  (forall o, ~ In (EvGetopt o) out) ->
  applied c (map EvGetopt codes ++ EvGetopt last :: out) ->
  last = chr c.
Proof.
  intros Hc Hcodes Hout Happ. unfold applied in Happ.
  apply in_app_or in Happ as [Hin|[Heq|Hin]].
  - apply in_getopts in Hin as (o & [= <-] & Hin).
    rewrite Forall_forall in Hcodes.
    now destruct (continuing_not_exit _ c (Hcodes _ Hin) Hc).
  - now injection Heq.
  - now apply Hout in Hin.
Qed.

(** The scan returns 0 exactly when getopt_long came back with the
    version or the help option. *)
Lemma early_exit_iff X posix argv cfg r :
  parse_cmdline X posix argv cfg = Some r ->
  (applied "h" (p_trace r) \/ applied "v" (p_trace r)) <-> p_ret r = 0%Z.
Proof.
  intros Hr.
  destruct (parse_cmdline_ret _ _ _ _ _ Hr) as (codes & last & out & Hc & Hcases).
  assert (Hv : In "v"%char ["v"; "h"]%char) by (simpl; tauto).
  assert (Hh : In "h"%char ["v"; "h"]%char) by (simpl; tauto).
  destruct Hcases as [(Hret & Ht & Hout) | [(Hret & Ht & Hout) | (Hret & Ht & Hl & _)]].
  - split; [auto|]. intros _. rewrite Ht. unfold applied.
    destruct Hout as [[-> _]|[-> _]]; [right|left]; apply in_or_app; right; now left.
  - split; [|lia]. rewrite Ht. intros Happ. exfalso.
    assert (Hno : forall o, ~ In (EvGetopt o) out).
    { destruct Hout as [[-> _]|[[tok ->] _]]; intros o Hin; simpl in Hin;
        [contradiction|destruct Hin as [H|[]]; discriminate]. }
    assert (Hlast : last = chr "h" \/ last = chr "v").
    { destruct Happ as [H|H]; [left|right];
        eapply exit_option_is_last; eauto. }
    destruct Hout as [[_ Hin]|(_ & _ & Hno')].
    + simpl in Hin. destruct Hlast as [-> | ->];
        repeat (destruct Hin as [Hin|Hin]; [discriminate|]); contradiction.
    + destruct Hlast as [-> | ->]; eapply Hno'; try reflexivity;
        unfold continuing; simpl; tauto.
  - split; [|lia]. rewrite Ht. intros Happ. exfalso.
    assert (Hno : forall o, ~ In (EvGetopt o) [EvCheckConfig])
      by (intros o [H|[]]; discriminate).
    change [EvGetopt (-1)%Z; EvCheckConfig] with (EvGetopt (-1)%Z :: [EvCheckConfig]) in Happ.
    destruct Happ as [H|H];
      eapply exit_option_is_last in H; eauto; discriminate.
Qed.

(** The help and version options in the first place. *)
Lemma help_or_version_first (X : externals) (posixly_correct : bool)
    (prog tok : string) (rest : list string) (cfg : config_t) :
  (In tok ["-h"; "--help"] ->
   parse_cmdline X posixly_correct (prog :: tok :: rest) cfg
   = Some (mk_parse 0%Z cfg (prog :: tok :: rest) (EvGetopt (chr "h") :: print_help X)))
  /\ (In tok ["-v"; "--version"] ->
      parse_cmdline X posixly_correct (prog :: tok :: rest) cfg
      = Some (mk_parse 0%Z cfg (prog :: tok :: rest)
                (EvGetopt (chr "v") :: print_version X))).
Proof.
  split; simpl; intros [<-|[<-|[]]]; destruct posixly_correct; reflexivity.
Qed.

(** C4. When getopt_long comes back with the help or the version option,
    the scan returns 0 at once: that call is the last one, the usage or
    version text is all that follows it in the trace, neither the
    configuration check nor the file enumeration nor the viewer is
    called, and [main] exits with 0. *)
Theorem C4_help_version_short_circuit (X : externals) (posixly_correct : bool)
    (argv : list string) (cfg : config_t) (r : parse_result) :
  parse_cmdline X posixly_correct argv cfg = Some r ->
  applied "h" (p_trace r) \/ applied "v" (p_trace r) ->
  outcome_of (p_ret r) = ExitSuccess
  /\ (exists codes,
        Forall (fun o => exists c, In c continuing /\ o = chr c) codes
        /\ (p_trace r = map EvGetopt codes ++ EvGetopt (chr "h") :: print_help X
            \/ p_trace r = map EvGetopt codes ++ EvGetopt (chr "v") :: print_version X))
  /\ count is_check_config (p_trace r) = 0
  /\ count is_init_file_list (p_trace r) = 0
  /\ count is_run_viewer (p_trace r) = 0
  /\ (init_config X = Some cfg ->
      main X posixly_correct argv = Some (EXIT_SUCCESS, p_trace r)).
Proof.
  intros Hr Happ.
  pose proof (proj1 (early_exit_iff _ _ _ _ _ Hr) Happ) as Hret.
  destruct (parse_cmdline_ret _ _ _ _ _ Hr) as (codes & last & out & Hc & Hcases).
  destruct Hcases as [(_ & Ht & Hout) | [(Hret' & _) | (Hret' & _)]]; try lia.
  split; [unfold outcome_of; now rewrite Hret|].
  split; [exists codes; split; [exact Hc|]; rewrite Ht;
          destruct Hout as [[-> ->]|[-> ->]]; auto|].
  assert (Hcount : forall p, (forall o, p (EvGetopt o) = false) ->
                     (forall s, p (EvStdout s) = false) -> count p (p_trace r) = 0).
  { intros p Hg Hs. rewrite Ht, count_app, (count_getopts _ _ Hg).
    unfold count. cbn [filter]. rewrite Hg.
    destruct Hout as [[_ ->]|[_ ->]]; unfold print_version, print_help, puts;
      cbn [filter]; rewrite !Hs; reflexivity. }
  repeat split; try (apply Hcount; reflexivity).
  intros Hinit. unfold main. now rewrite Hinit, Hr, Hret.
Qed.

(** C4 on [swayimg -i --help a.png --bogus]. *)
Lemma C4_help_version_short_circuit_witness :
  parse_cmdline Sample.X false Examples.help_in_the_middle Sample.default_config
  = Some (Examples.run false Examples.help_in_the_middle)
  /\ (applied "h" (p_trace (Examples.run false Examples.help_in_the_middle))
      \/ applied "v" (p_trace (Examples.run false Examples.help_in_the_middle)))
  /\ outcome_of (p_ret (Examples.run false Examples.help_in_the_middle)) = ExitSuccess
  /\ main Sample.X false Examples.help_in_the_middle
     = Some (EXIT_SUCCESS,
             [EvGetopt (chr "i"); EvGetopt (chr "h")] ++ print_help Sample.X).
Proof.
  assert (E : parse_cmdline Sample.X false Examples.help_in_the_middle
                Sample.default_config
              = Some (Examples.run false Examples.help_in_the_middle))
    by (vm_compute; reflexivity).
  assert (A : applied "h" (p_trace (Examples.run false Examples.help_in_the_middle))
              \/ applied "v" (p_trace (Examples.run false Examples.help_in_the_middle)))
    by (left; vm_compute; tauto).
  split; [exact E|]. split; [exact A|].
  pose proof (C4_help_version_short_circuit Sample.X false Examples.help_in_the_middle
                Sample.default_config _ E A) as H.
  destruct H as (H1 & _ & _ & _ & _ & H2).
  split; [exact H1|]. exact (H2 eq_refl).
Defined.

(** ** The file list *)

Lemma mode_of_single (x : string) :
  mode_of [x] = if (x =? "-")%string then StdinPipe else ExplicitList [x].
Proof.
  destruct x as [|c [|c' s]]; try reflexivity;
    destruct c as [[] [] [] [] [] [] [] []]; reflexivity.
Qed.

Lemma mode_of_several (x y : string) (l : list string) :
  mode_of (x :: y :: l) = ExplicitList (x :: y :: l).
Proof.
  destruct x as [|c [|c' s]]; try reflexivity;
    destruct c as [[] [] [] [] [] [] [] []]; reflexivity.
Qed.

(** Lines 155-178 choose the mode the specification describes, from the
    elements of [argv] from [index] on. *)
Lemma main_files_mode X cfg argv index :
  (0 <= index <= Z.of_nat (length argv))%Z ->
  main_files X cfg argv index
  = run_mode X cfg (mode_of (skipn (Z.to_nat index) argv)).
Proof.
  intros Hi. unfold main_files.
  set (n := Z.to_nat index).
  assert (Hn : index = Z.of_nat n) by (unfold n; lia).
  assert (Hlen : length (skipn n argv) = length argv - n) by apply length_skipn.
  assert (Hle : n <= length argv) by lia.
  cbv zeta.
  replace (Z.of_nat (length argv) - index)%Z with (Z.of_nat (length (skipn n argv))) by lia.
  rewrite Nat2Z.id.
  destruct (skipn n argv) as [|x rest] eqn:Hpos; cbn [length] in *.
  - (* no positional argument *)
    cbn [mode_of run_mode Z.of_nat Z.eqb]. unfold enumerate, dispatch, after.
    destruct (init_file_list X ["."] true); reflexivity.
  - assert (Hx : arg argv n = x).
    { rewrite (skipn_cons_arg argv n) in Hpos by lia. now injection Hpos. }
    rewrite Hx.
    destruct (Z.eqb_spec (Z.of_nat (S (length rest))) 0) as [|_]; [lia|].
    rewrite (firstn_all (x :: rest) : firstn (S (length rest)) (x :: rest) = x :: rest).
    destruct rest as [|y rest]; cbn [length].
    + (* one positional argument *)
      rewrite mode_of_single. cbn [Z.of_nat Pos.of_succ_nat Z.eqb Pos.eqb andb].
      destruct (x =? "-")%string; cbn [run_mode]; [reflexivity|].
      unfold enumerate, dispatch, after.
      destruct (init_file_list X [x] true); reflexivity.
    + rewrite mode_of_several.
      destruct (Z.eqb_spec (Z.of_nat (S (S (length rest)))) 1) as [|_]; [lia|].
      cbn [andb run_mode]. unfold enumerate, dispatch, after.
      destruct (init_file_list X (x :: y :: rest) true); reflexivity.
Qed.

(** [main] after a scan that gave an index to continue at. *)
Lemma main_continue X posix argv cfg r :
  argv <> [] ->
  init_config X = Some cfg ->
  parse_cmdline X posix argv cfg = Some r ->
  (0 < p_ret r)%Z ->
  main X posix argv
  = Some (after (p_trace r)
                (run_mode X (p_cfg r)
                          (mode_of (skipn (Z.to_nat (p_ret r)) (p_argv r))))).
Proof.
  intros Hne Hinit Hr Hpos. unfold main. rewrite Hinit, Hr.
  destruct (Z.eqb_spec (p_ret r) 0); [lia|].
  destruct (Z.ltb_spec (p_ret r) 0); [lia|].
  rewrite main_files_mode; [reflexivity|].
  destruct (parse_cmdline_ret _ _ _ _ _ Hr) as (codes & last & out & _ & Hcases).
  destruct Hcases as [(H0 & _) | [(H0 & _) | (_ & _ & _ & Hle & Hlen & _)]]; try lia.
  rewrite Hlen. specialize (Hle Hne). lia.
Qed.

(** C2. After a scan that gave an index to continue at, [main] chooses
    exactly one of three modes from the positional arguments left in
    [argv], in this order: none, a recursive enumeration of ["."], with a
    diagnostic and exit code 1 if it finds nothing; the single argument
    ["-"], the standard input, with no enumeration; anything else, a
    recursive enumeration of just these arguments, with a diagnostic and
    exit code 1 if it finds nothing. *)
Theorem C2_file_set_modes (X : externals) (posixly_correct : bool)
    (argv : list string) (cfg : config_t) (r : parse_result) :
  argv <> [] ->
  init_config X = Some cfg ->
  parse_cmdline X posixly_correct argv cfg = Some r ->
  (0 < p_ret r)%Z ->
  let positionals := skipn (Z.to_nat (p_ret r)) (p_argv r) in
  main X posixly_correct argv
  = Some (after (p_trace r)
            match positionals with
            | [] =>
                match init_file_list X ["."] true with
                | None =>
                    (EXIT_FAILURE,
                     [ EvInitFileList ["."] true;
                       EvStderr ("No image files found in the current directory" ++ nl) ])
                | Some files =>
                    (if run_viewer X (p_cfg r) (Some files)
                     then EXIT_SUCCESS else EXIT_FAILURE,
                     [ EvInitFileList ["."] true; EvRunViewer (p_cfg r) (Some files) ])
                end
            | ["-"] =>
                (if run_viewer X (p_cfg r) None then EXIT_SUCCESS else EXIT_FAILURE,
                 [ EvRunViewer (p_cfg r) None ])
            | _ =>
                match init_file_list X positionals true with
                | None =>
                    (EXIT_FAILURE,
                     [ EvInitFileList positionals true;
                       EvStderr ("Unable to compose file list from input args" ++ nl) ])
                | Some files =>
                    (if run_viewer X (p_cfg r) (Some files)
                     then EXIT_SUCCESS else EXIT_FAILURE,
                     [ EvInitFileList positionals true;
                       EvRunViewer (p_cfg r) (Some files) ])
                end
            end).
Proof.
  intros Hne Hinit Hr Hpos positionals.
  rewrite (main_continue X posixly_correct argv cfg r Hne Hinit Hr Hpos).
  fold positionals. do 2 f_equal.
  destruct positionals as [|x [|y rest]].
  - reflexivity.
  - rewrite mode_of_single.
    destruct x as [|c [|c' s]]; try reflexivity;
      destruct c as [[] [] [] [] [] [] [] []]; reflexivity.
  - rewrite mode_of_several.
    destruct x as [|c [|c' s]]; try reflexivity;
      destruct c as [[] [] [] [] [] [] [] []]; reflexivity.
Qed.

(** C2 on [swayimg -s fit -fb 00ff00 a.png zz.png]. *)
Lemma C2_file_set_modes_witness :
  Examples.scale_then_files <> []
  /\ init_config Sample.X = Some Sample.default_config
  /\ parse_cmdline Sample.X false Examples.scale_then_files Sample.default_config
     = Some (Examples.run false Examples.scale_then_files)
  /\ (0 < p_ret (Examples.run false Examples.scale_then_files))%Z
  /\ main Sample.X false Examples.scale_then_files
     = Some (after (p_trace (Examples.run false Examples.scale_then_files))
               (EXIT_SUCCESS,
                [ EvInitFileList ["a.png"; "zz.png"] true;
                  EvRunViewer (p_cfg (Examples.run false Examples.scale_then_files))
                              (Some ["a.png"]) ])).
Proof.
  assert (N : Examples.scale_then_files <> []) by discriminate.
  assert (E : parse_cmdline Sample.X false Examples.scale_then_files
                Sample.default_config
              = Some (Examples.run false Examples.scale_then_files))
    by (vm_compute; reflexivity).
  assert (P : (0 < p_ret (Examples.run false Examples.scale_then_files))%Z)
    by (vm_compute; reflexivity).
  split; [exact N|]. split; [reflexivity|]. split; [exact E|]. split; [exact P|].
  pose proof (C2_file_set_modes Sample.X false Examples.scale_then_files
                Sample.default_config _ N eq_refl E P) as H.
  vm_compute in H |- *. exact H.
Defined.

(** The scan itself neither enumerates files nor starts the viewer. *)
Lemma parse_trace_events X posix argv cfg r :
  parse_cmdline X posix argv cfg = Some r ->
  Forall (fun e => is_run_viewer e = false /\ is_init_file_list e = false) (p_trace r).
Proof.
  intros Hr.
  destruct (parse_cmdline_ret _ _ _ _ _ Hr) as (codes & last & out & _ & Hcases).
  assert (Hg : Forall (fun e => is_run_viewer e = false /\ is_init_file_list e = false)
                      (map EvGetopt codes)).
  { apply Forall_forall. intros e He. apply in_getopts in He as (o & -> & _). now split. }
  destruct Hcases as [(_ & -> & Hout) | [(_ & -> & Hout) | (_ & -> & _)]];
    apply Forall_app; (split; [exact Hg|]).
  - destruct Hout as [[_ ->]|[_ ->]]; repeat constructor.
  - destruct Hout as [[-> _]|[[tok ->] _]]; repeat constructor.
  - repeat constructor.
Qed.

Lemma mode_of_stdin pos : mode_of pos = StdinPipe -> pos = ["-"].
Proof.
  destruct pos as [|x [|y rest]].
  - discriminate.
  - rewrite mode_of_single. destruct (String.eqb_spec x "-"); [now subst|discriminate].
  - rewrite mode_of_several. discriminate.
Qed.

(** C10. ["-"] stands for the standard input only as the one positional
    argument left: with two or more positional arguments they are all
    handed to the enumeration as paths, a ["-"] among them included, and
    whenever the viewer is started on the standard input the positional
    arguments were exactly the single ["-"]. *)
Theorem C10_dash_only_alone (X : externals) (posixly_correct : bool)
    (argv : list string) (cfg : config_t) (r : parse_result) :
  argv <> [] ->
  init_config X = Some cfg ->
  parse_cmdline X posixly_correct argv cfg = Some r ->
  (0 < p_ret r)%Z ->
  let positionals := skipn (Z.to_nat (p_ret r)) (p_argv r) in
  (2 <= length positionals ->
   main X posixly_correct argv
   = Some (after (p_trace r)
                 (enumerate X (p_cfg r) positionals
                            "Unable to compose file list from input args")))
  /\ (forall rc tr c,
        main X posixly_correct argv = Some (rc, tr) ->
        In (EvRunViewer c None) tr -> positionals = ["-"]).
Proof.
  intros Hne Hinit Hr Hpos positionals.
  pose proof (main_continue X posixly_correct argv cfg r Hne Hinit Hr Hpos) as Hmain.
  fold positionals in Hmain. split.
  - intros Hlen. rewrite Hmain.
    destruct positionals as [|x [|y rest]]; cbn [length] in Hlen; try lia.
    now rewrite mode_of_several.
  - intros rc tr c Hm Hin. rewrite Hmain in Hm. injection Hm as _ <-.
    apply in_app_or in Hin as [Hin|Hin].
    + pose proof (parse_trace_events _ _ _ _ _ Hr) as Hev.
      rewrite Forall_forall in Hev. now destruct (Hev _ Hin).
    + destruct (mode_of positionals) eqn:Hmode; cbn [run_mode] in Hin.
      * unfold enumerate in Hin. destruct (init_file_list X ["."] true);
          simpl in Hin; intuition discriminate.
      * now apply mode_of_stdin.
      * unfold enumerate in Hin. destruct (init_file_list X paths true);
          simpl in Hin; intuition discriminate.
Qed.

(** C10 on [swayimg -i b.png -]. *)
Lemma C10_dash_only_alone_witness :
  Examples.dash_among_files <> []
  /\ init_config Sample.X = Some Sample.default_config
  /\ parse_cmdline Sample.X false Examples.dash_among_files Sample.default_config
     = Some (Examples.run false Examples.dash_among_files)
  /\ (0 < p_ret (Examples.run false Examples.dash_among_files))%Z
  /\ 2 <= length ["b.png"; "-"]
  /\ main Sample.X false Examples.dash_among_files
     = Some (after (p_trace (Examples.run false Examples.dash_among_files))
               (enumerate Sample.X (p_cfg (Examples.run false Examples.dash_among_files))
                          ["b.png"; "-"]
                          "Unable to compose file list from input args")).
Proof.
  assert (N : Examples.dash_among_files <> []) by discriminate.
  assert (E : parse_cmdline Sample.X false Examples.dash_among_files
                Sample.default_config
              = Some (Examples.run false Examples.dash_among_files))
    by (vm_compute; reflexivity).
  assert (P : (0 < p_ret (Examples.run false Examples.dash_among_files))%Z)
    by (vm_compute; reflexivity).
  assert (L : 2 <= length ["b.png"; "-"]) by (simpl; lia).
  split; [exact N|]. split; [reflexivity|]. split; [exact E|]. split; [exact P|].
  split; [exact L|].
  pose proof (proj1 (C10_dash_only_alone Sample.X false Examples.dash_among_files
                       Sample.default_config _ N eq_refl E P)) as H.
  vm_compute in H |- *. apply H. lia.
Defined.

(** ** Exit codes *)






(** ** Diagnostics *)

(** An invalid argument that is a token of its own is named by the
    diagnostic: getopt_long has moved [optind] past it. *)
Lemma invalid_token_is_named (X : externals) (posixly_correct : bool)
    (prog : string) (rest : list string) (cfg : config_t) :
  parse_cmdline X posixly_correct (prog :: "-x" :: rest) cfg
  = Some (mk_parse (-1)%Z cfg (prog :: "-x" :: rest)
            [ EvGetopt (chr "?"); EvStderr ("Invalid argument: -x" ++ nl) ])
  /\ parse_cmdline X posixly_correct (prog :: "--bogus" :: rest) cfg
     = Some (mk_parse (-1)%Z cfg (prog :: "--bogus" :: rest)
               [ EvGetopt (chr "?"); EvStderr ("Invalid argument: --bogus" ++ nl) ])
  /\ parse_cmdline X posixly_correct [prog; "--scale"] cfg
     = Some (mk_parse (-1)%Z cfg [prog; "--scale"]
               [ EvGetopt (chr "?"); EvStderr ("Invalid argument: --scale" ++ nl) ]).
Proof.
  destruct posixly_correct; repeat split; reflexivity.
Qed.

(** C6 (the code departs from the claim). For a command line that starts
    with [-xf], whose first option character is not recognized, the scan
    returns -1 at once, but the diagnostic does not name the offending
    token ["-xf"]: getopt_long leaves [optind] at a token it has not
    finished, so [argv[optind - 1]] is [argv[0]], the program name. *)
Theorem C6_invalid_option_in_cluster (X : externals) (posixly_correct : bool)
    (prog : string) (rest : list string) (cfg : config_t) :
  parse_cmdline X posixly_correct (prog :: "-xf" :: rest) cfg
  = Some (mk_parse (-1)%Z cfg (prog :: "-xf" :: rest)
            [ EvGetopt (chr "?"); EvStderr ("Invalid argument: " ++ prog ++ nl) ]).
Proof.
  destruct posixly_correct; reflexivity.
Qed.

(** ** Where the scan stops *)

Lemma first_positional_operands (toks : list string) : forall skip i,
  first_positional skip toks i + length (operands REQUIRE_ORDER skip toks)
  = i + length toks.
Proof.
  induction toks as [|t rest IH]; intros skip i; cbn [first_positional operands length].
  - lia.
  - destruct skip; [rewrite IH; lia|].
    destruct (NONOPTION_P t); [cbn [length]; lia|].
    destruct (t =? "--")%string; [lia|].
    rewrite IH. lia.
Qed.

(** C3 as stated fails on [swayimg a.png -f] in the default environment:
    with permutation the option behind the file name is scanned too, and
    the index returned, 2, is not the position of the file name, 1. *)
Lemma C3_option_behind_positional :
  ~ pauses_at_first_positional Sample.X false Examples.option_behind_file
      Sample.default_config.
Proof.
  intros H.
  assert (E : parse_cmdline Sample.X false Examples.option_behind_file
                Sample.default_config
              = Some (Examples.run false Examples.option_behind_file))
    by (vm_compute; reflexivity).
  assert (P : (0 < p_ret (Examples.run false Examples.option_behind_file))%Z)
    by (vm_compute; reflexivity).
  specialize (H _ E P). vm_compute in H. discriminate H.
Qed.

(** C3 (amended). A scan of a non-empty [argv] that ends with an index to
    continue at leaves the positional arguments in [argv] from that index
    on, in their order, and the index is [argc] less their number.  When
    POSIXLY_CORRECT is set the scan pauses at the first positional token:
    [argv] is unchanged and the index is that token's position ([argc]
    when there is none).  Otherwise getopt_long permutes [argv]: options
    behind positional tokens are scanned as well, up to ["--"], and the
    positional tokens are moved behind them. *)
Theorem C3_scan_stops_at_positionals (X : externals) (posixly_correct : bool)
    (argv : list string) (cfg : config_t) (r : parse_result) :
  argv <> [] ->
  parse_cmdline X posixly_correct argv cfg = Some r ->
  (0 < p_ret r)%Z ->
  let index := Z.to_nat (p_ret r) in
  let positionals := operands (ordering_of posixly_correct) false (tl argv) in
  outcome_of (p_ret r) = ContinueAt index
  /\ skipn index (p_argv r) = positionals
  /\ index + length positionals = length argv
  /\ (posixly_correct = true ->
      p_argv r = argv /\ index = first_positional_index argv).
Proof.
  intros Hne Hr Hpos index positionals.
  destruct (parse_cmdline_ret _ _ _ _ _ Hr) as (codes & last & out & _ & Hcases).
  destruct Hcases as [(H0 & _) | [(H0 & _) | (_ & _ & _ & Hle & Hlen & Hops & Hsame)]];
    try lia.
  specialize (Hle Hne). fold index positionals in Hops.
  assert (Hsum : index + length positionals = length argv).
  { rewrite <- Hops, length_skipn, Hlen. unfold index. lia. }
  split; [|split; [exact Hops|split; [exact Hsum|]]].
  - unfold outcome_of.
    destruct (Z.eqb_spec (p_ret r) 0); [lia|].
    destruct (Z.ltb_spec (p_ret r) 0); [lia|]. reflexivity.
  - intros ->. split; [now apply Hsame|].
    unfold first_positional_index.
    pose proof (first_positional_operands (tl argv) false 1) as Hfp.
    cbn [ordering_of] in positionals. fold positionals in Hfp.
    destruct argv as [|prog args]; [contradiction|]. cbn [tl length] in *. lia.
Qed.

(** C3 (amended) on [swayimg a.png -f]. *)
Lemma C3_scan_stops_at_positionals_witness :
  Examples.option_behind_file <> []
  /\ parse_cmdline Sample.X false Examples.option_behind_file Sample.default_config
     = Some (Examples.run false Examples.option_behind_file)
  /\ (0 < p_ret (Examples.run false Examples.option_behind_file))%Z
  /\ outcome_of (p_ret (Examples.run false Examples.option_behind_file)) = ContinueAt 2
  /\ skipn 2 (p_argv (Examples.run false Examples.option_behind_file)) = ["a.png"]
  /\ 2 + length ["a.png"] = length Examples.option_behind_file.
Proof.
  assert (N : Examples.option_behind_file <> []) by discriminate.
  assert (E : parse_cmdline Sample.X false Examples.option_behind_file
                Sample.default_config
              = Some (Examples.run false Examples.option_behind_file))
    by (vm_compute; reflexivity).
  assert (P : (0 < p_ret (Examples.run false Examples.option_behind_file))%Z)
    by (vm_compute; reflexivity).
  split; [exact N|]. split; [exact E|]. split; [exact P|].
  pose proof (C3_scan_stops_at_positionals Sample.X false Examples.option_behind_file
                Sample.default_config _ N E P) as H.
  cbv zeta in H. destruct H as (H1 & H2 & H3 & _).
  vm_compute in H1, H2, H3 |- *. split; [exact H1|]. split; [exact H2|exact H3].
Defined.

(** * The scan and the command line

    The loop of [parse_cmdline] against a reading of the command line token
    by token, and what follows for the spellings of the options, for [main]
    and for the diagnostic. *)

(** ** The argument vector is only reordered *)

Lemma exchange_keeps (d : getopt_data) :
  1 <= first_nonopt d -> first_nonopt d <= last_nonopt d ->
  last_nonopt d <= optind d -> optind d <= length (d_argv d) ->
  Permutation (d_argv (exchange d)) (d_argv d)
  /\ arg (d_argv (exchange d)) 0 = arg (d_argv d) 0.
Proof.
  intros H1 H2 H3 H4.
  destruct (split_blocks (d_argv d) _ _ _ H2 H3 H4)
    as (P & N & O & R & Ha & HP & HN & HO & _ & _).
  rewrite (exchange_blocks d P N O R Ha) by lia. cbn [d_argv]. rewrite Ha.
  split.
  - apply Permutation_app_head. rewrite !app_assoc. apply Permutation_app_tail.
    apply Permutation_app_comm.
  - destruct P; [simpl in HP; lia|reflexivity].
Qed.

Lemma permute_step_keeps (d : getopt_data) :
  wf PERMUTE d ->
  Permutation (d_argv (permute_step d)) (d_argv d)
  /\ arg (d_argv (permute_step d)) 0 = arg (d_argv d) 0.
Proof.
  intros (H1 & H2 & H3 & H4 & _). unfold permute_step.
  destruct (negb (first_nonopt d =? last_nonopt d)%nat && negb (last_nonopt d =? optind d)%nat).
  - destruct (exchange_keeps d H1 H2 H3 H4) as [Hp Ha].
    destruct (exchange d); fields. auto.
  - destruct (negb (last_nonopt d =? optind d)%nat); destruct d; fields; auto.
Qed.

Lemma dashdash_step_keeps (d : getopt_data) :
  1 <= first_nonopt d -> first_nonopt d <= last_nonopt d ->
  last_nonopt d <= optind d -> optind d <= length (d_argv d) ->
  Permutation (d_argv (dashdash_step d)) (d_argv d)
  /\ arg (d_argv (dashdash_step d)) 0 = arg (d_argv d) 0.
Proof.
  intros H1 H2 H3 H4. unfold dashdash_step.
  destruct (Nat.eqb_spec (optind d) (length (d_argv d))) as [|Hne]; cbn [negb andb]; [auto|].
  destruct (arg (d_argv d) (optind d) =? "--")%string; [|auto].
  destruct (negb (first_nonopt (set_optind d (S (optind d)))
                  =? last_nonopt (set_optind d (S (optind d))))%nat
            && negb (last_nonopt (set_optind d (S (optind d)))
                     =? optind (set_optind d (S (optind d))))%nat).
  - destruct (exchange_keeps (set_optind d (S (optind d)))) as [Hp Ha];
      try (destruct d; fields; lia).
    destruct (exchange (set_optind d (S (optind d)))); destruct d; fields. auto.
  - destruct (first_nonopt (set_optind d (S (optind d)))
              =? last_nonopt (set_optind d (S (optind d))))%nat;
      destruct d; fields; auto.
Qed.

Lemma advance_keeps ord (d : getopt_data) :
  wf ord d -> nextchar d = "" ->
  Permutation (d_argv (advance ord d)) (d_argv d)
  /\ arg (d_argv (advance ord d)) 0 = arg (d_argv d) 0.
Proof.
  intros Hwf Hnc. pose proof Hwf as (H1 & H2 & H3 & H4 & _).
  destruct d as [a oi oa nc fn ln]. fields. subst nc.
  unfold advance. fields. rewrite !Nat.min_l by lia.
  destruct ord.
  - apply (dashdash_step_keeps (mk_data a oi oa "" fn ln)); fields; lia.
  - destruct (permute_step_keeps _ Hwf) as [Hp Ha].
    destruct (permute_step_spec _ Hwf eq_refl) as (Q & N & no & R' & E & HQ & _).
    destruct (dashdash_step_keeps (permute_step (mk_data a oi oa "" fn ln))) as [Hp' Ha'];
      try (rewrite E; fields; rewrite ?length_app; lia).
    fields. split; [now rewrite Hp'|congruence].
Qed.

(** ** The events of a scan *)

Lemma dashdash_step_other (d : getopt_data) :
  arg (d_argv d) (optind d) <> "--" -> dashdash_step d = d.
Proof.
  intros H. unfold dashdash_step.
  destruct (String.eqb_spec (arg (d_argv d) (optind d)) "--"); [contradiction|].
  now rewrite andb_false_r.
Qed.

Lemma dashdash_step_end (d : getopt_data) :
  optind d = length (d_argv d) -> dashdash_step d = d.
Proof.
  intros H. unfold dashdash_step. now rewrite H, Nat.eqb_refl.
Qed.

Lemma dashdash_step_found (d : getopt_data) :
  optind d < length (d_argv d) -> arg (d_argv d) (optind d) = "--" ->
  optind (dashdash_step d) = length (d_argv d).
Proof.
  intros Hlt H. unfold dashdash_step. rewrite H.
  destruct (Nat.eqb_spec (optind d) (length (d_argv d))); [lia|].
  cbn [negb andb String.eqb Ascii.eqb Bool.eqb]. now fields.
Qed.

Lemma nonoption_events (s : string) :
  NONOPTION_P s = true -> (s =? "--")%string = false /\ classify s = NonOption.
Proof.
  intros H. split.
  - destruct (String.eqb_spec s "--"); [subst; discriminate|reflexivity].
  - destruct (classify_cases s) as [[Hc _]|[(r & _ & Hn)|(c & r & _ & Hn & _)]];
      [exact Hc|congruence|congruence].
Qed.

Lemma events_permute_nonopts (nonopts R : list string) :
  Forall (fun s => NONOPTION_P s = true) nonopts ->
  events PERMUTE false (nonopts ++ R) = events PERMUTE false R.
Proof.
  induction 1 as [|s l Hs _ IH]; [reflexivity|].
  destruct (nonoption_events s Hs) as [Hd Hc].
  cbn [app events]. now rewrite Hd, Hc.
Qed.

(** [advance] steps over tokens that yield no event. *)
Lemma advance_events ord (d : getopt_data) :
  wf ord d -> nextchar d = "" ->
  (optind (advance ord d) = length (d_argv (advance ord d)) ->
   events ord false (skipn (optind d) (d_argv d)) = [])
  /\ (optind (advance ord d) < length (d_argv (advance ord d)) ->
      events ord false (skipn (optind (advance ord d)) (d_argv (advance ord d)))
      = events ord false (skipn (optind d) (d_argv d))).
Proof.
  intros Hwf Hnc.
  destruct (advance_spec ord d Hwf Hnc) as (Alen & _).
  pose proof Hwf as (H1 & H2 & H3 & H4 & _).
  destruct d as [a oi oa nc fn ln]. fields. subst nc.
  unfold advance in *. fields. rewrite !Nat.min_l in * by lia.
  destruct ord.
  - (* POSIX order: only "--" is stepped over *)
    destruct (Nat.eq_dec oi (length a)) as [Hend|Hend].
    + rewrite dashdash_step_end by exact Hend. fields.
      split; [|lia]. intros _. subst oi. now rewrite skipn_all.
    + rewrite (skipn_cons_arg a oi) by lia.
      destruct (String.eqb_spec (arg a oi) "--") as [Hdd|Hdd].
      * split; [intros _; cbn [events]; now rewrite Hdd|].
        rewrite (dashdash_step_found (mk_data a oi oa "" fn ln)), Alen; fields; try lia.
        exact Hdd.
      * rewrite dashdash_step_other by exact Hdd. fields.
        split; [lia|]. intros _. now rewrite <- (skipn_cons_arg a oi) by lia.
  - (* permutation: non-options are stepped over as well *)
    destruct (permute_step_spec _ Hwf eq_refl)
      as (Q & N & no & R' & E & HQ & Hlen & _ & HR & Hall & Hhd).
    fields. rewrite E in *. rewrite HR, (events_permute_nonopts _ _ Hall).
    set (M := N ++ no) in *.
    assert (Hargc : length (Q ++ M ++ R') = length Q + length M + length R')
      by (rewrite !length_app; lia).
    destruct R' as [|t T].
    + rewrite dashdash_step_end by (fields; rewrite Hargc; simpl; lia). fields.
      split; [reflexivity|]. rewrite Hargc. simpl. lia.
    + assert (Harg : arg (Q ++ M ++ t :: T) (length Q + length M) = t)
        by (rewrite (arg_block Q M (t :: T)); [reflexivity|now rewrite length_app]).
      destruct (String.eqb_spec t "--") as [Hdd|Hdd].
      * split; [intros _; cbn [events]; subst t; reflexivity|].
        rewrite dashdash_step_found, Alen; fields; try lia.
        -- rewrite Hargc. simpl. lia.
        -- now rewrite Harg.
      * rewrite dashdash_step_other by (fields; now rewrite Harg). fields.
        split; [rewrite Hargc; simpl; lia|]. intros _.
        now rewrite skipn_blocks2.
Qed.

Lemma events_skip ord (a : list string) i :
  i < length a ->
  events ord true (skipn i a) = events ord false (skipn (S i) a)
  /\ hd_error (skipn i a) = Some (arg a i).
Proof.
  intros Hi. rewrite (skipn_cons_arg a i Hi). split; reflexivity.
Qed.

Lemma short_option_full ord c rest d r d' :
  reading ord d -> optarg d = None ->
  short_option short_opts c rest d = (r, d') ->
  returned_post ord d
    (cluster_events (String c rest) (hd_error (skipn (S (optind d)) (d_argv d)))
     ++ events ord (short_consumes (String c rest)) (skipn (S (optind d)) (d_argv d)))
    (S (String.length rest)) r d'.
Proof.
  intros (H1 & H2 & H3 & H4 & H5) Hoa E.
  rewrite short_option_cases in E. cbv zeta in E.
  destruct d as [a oi oa nc fn ln]. fields. subst oa.
  cbn [short_consumes cluster_events].
  destruct (short_arity c) as [[|]|].
  - (* requires an argument *)
    destruct rest as [|x rest]; cbn [String.eqb negb] in E |- *; fields.
    + destruct (Nat.eqb_spec (S oi) (length a)) as [Hend|Hend]; injection E as <- <-.
      * unfold returned_post, wf, upcoming, remaining. fields.
        rewrite !skipn_all2 by lia. cbn [hd_error events app scan_measure fold_right String.length].
        repeat apply conj; auto; try lia; try congruence.
      * destruct (events_skip ord a (S oi)) as [Hev Hhd]; [lia|].
        unfold returned_post, wf, upcoming, remaining. fields.
        rewrite Hhd, Hev. cbn [app String.length].
        repeat apply conj; auto; try lia; try congruence.
        pose proof (scan_measure_skipn_S a (S oi)). lia.
    + injection E as <- <-.
      unfold returned_post, wf, upcoming, remaining. fields.
      cbn [app String.length].
      repeat apply conj; auto; try lia; try congruence.
  - (* takes no argument *)
    destruct rest as [|x rest]; cbn [String.eqb negb] in E; fields;
      injection E as <- <-;
      unfold returned_post, wf, upcoming, remaining; fields;
      cbn [String.length short_consumes cluster_events app];
      repeat apply conj; auto; try lia; try congruence.
  - (* not an option *)
    destruct rest as [|x rest]; cbn [String.eqb negb] in E; fields;
      injection E as <- <-;
      unfold returned_post, wf, upcoming, remaining; fields;
      cbn [String.length short_consumes cluster_events app];
      repeat apply conj; auto; try lia; try congruence.
Qed.

Lemma long_option_full ord d r d' :
  reading ord d -> optarg d = None ->
  process_long_option short_opts options d = (r, d') ->
  returned_post ord d
    (long_event (nextchar d) (hd_error (skipn (S (optind d)) (d_argv d)))
     :: events ord (long_consumes (nextchar d)) (skipn (S (optind d)) (d_argv d)))
    1 r d'.
Proof.
  intros (H1 & H2 & H3 & H4 & H5) Hoa E.
  unfold process_long_option in E. unfold long_consumes, long_event.
  destruct d as [a oi oa nc fn ln]. fields. subst oa.
  destruct (name_end nc) as [nm eq_arg].
  unfold no_argument, required_argument.
  destruct (lookup_long nm options) as [p| |].
  - destruct eq_arg as [v|].
    + destruct (has_arg p =? 0)%Z; cbn [negb] in E; injection E as <- <-;
        unfold returned_post, wf, upcoming, remaining; fields;
        repeat apply conj; auto; try lia; try congruence.
    + destruct (has_arg p =? 1)%Z.
      * destruct (Nat.ltb_spec (S oi) (length a)) as [Hlt|Hge]; injection E as <- <-.
        -- destruct (events_skip ord a (S oi)) as [Hev Hhd]; [lia|].
           unfold returned_post, wf, upcoming, remaining. fields. rewrite Hhd, Hev.
           repeat apply conj; auto; try lia; try congruence.
           pose proof (scan_measure_skipn_S a (S oi)). lia.
        -- unfold returned_post, wf, upcoming, remaining. fields.
           rewrite !skipn_all2 by lia. cbn [hd_error events scan_measure fold_right].
           repeat apply conj; auto; try lia; try congruence.
      * injection E as <- <-.
        unfold returned_post, wf, upcoming, remaining. fields.
        repeat apply conj; auto; try lia; try congruence.
  - injection E as <- <-.
    unfold returned_post, wf, upcoming, remaining. fields.
    repeat apply conj; auto; try lia; try congruence.
    now destruct eq_arg.
  - injection E as <- <-.
    unfold returned_post, wf, upcoming, remaining. fields.
    repeat apply conj; auto; try lia; try congruence.
    now destruct eq_arg.
Qed.

(** One call of getopt_long, whatever it returns: [argv] is reordered at
    most, [optind] stays within it, and the value returned with [optarg]
    is the next event of the scan. *)
Lemma getopt_long_full ord d r d' :
  wf ord d ->
  getopt_long ord short_opts options d = (r, d') ->
  Permutation (d_argv d') (d_argv d)
  /\ arg (d_argv d') 0 = arg (d_argv d) 0
  /\ 1 <= optind d' <= length (d_argv d')
  /\ (r = (-1)%Z -> upcoming ord d = [])
  /\ (r <> (-1)%Z ->
      wf ord d' /\ upcoming ord d = (r, optarg d') :: upcoming ord d'
      /\ remaining d' < remaining d).
Proof.
  intros Hwf E. unfold getopt_long in E.
  assert (Hargc : 1 <= length (d_argv d)) by (unfold wf in Hwf; lia).
  destruct (Nat.ltb_spec (length (d_argv d)) 1) as [|_]; [lia|].
  cbv zeta in E.
  destruct (nextchar d) as [|c rest] eqn:Hnc.
  - (* at the start of an element *)
    replace (nextchar (set_optarg d None)) with "" in E by (now rewrite <- Hnc; destruct d).
    assert (Hwf0 : wf ord (set_optarg d None)) by (destruct d; exact Hwf).
    assert (Hup0 : upcoming ord d
                   = events ord false (skipn (optind (set_optarg d None))
                                             (d_argv (set_optarg d None))))
      by (unfold upcoming; rewrite Hnc; now destruct d).
    assert (Hrem0 : remaining (set_optarg d None) = remaining d) by now destruct d.
    assert (Hnc0 : nextchar (set_optarg d None) = "") by (now rewrite <- Hnc; destruct d).
    assert (Harg0 : d_argv (set_optarg d None) = d_argv d) by now destruct d.
    assert (Hoa0 : optarg (set_optarg d None) = None) by now destruct d.
    pose proof (advance_spec ord _ Hwf0 Hnc0) as Hadv.
    pose proof (advance_keeps ord _ Hwf0 Hnc0) as [Hperm Hzero].
    pose proof (advance_events ord _ Hwf0 Hnc0) as [Hev_end Hev].
    rewrite Hup0, <- Hrem0, <- Harg0.
    set (d0 := set_optarg d None) in *. clearbody d0. clear d Hwf Hnc Hargc Hup0 Hrem0 Harg0.
    set (d1 := advance ord d0) in *. clearbody d1.
    destruct Hadv as (A1 & A2 & A3 & A4 & A5 & A6 & A7 & A8 & (pre & A9) & A10 & A11).
    assert (Hrem1 : scan_measure (skipn (optind d1) (d_argv d1)) <= remaining d0).
    { unfold remaining. rewrite Hnc0, A9, scan_measure_app. lia. }
    destruct (Nat.eqb_spec (optind d1) (length (d_argv d1))) as [Hend|Hend].
    + (* all elements done *)
      injection E as <- <-. destruct (A10 Hend) as [B1 B2].
      unfold final_optind in *.
      destruct (first_nonopt d1 =? last_nonopt d1)%nat; cbn [negb];
        destruct d1; fields; repeat apply conj; auto; try lia; congruence.
    + assert (Hlt : optind d1 < length (d_argv d1)) by lia.
      destruct (A11 Hlt) as (B1 & B2 & B3 & B4).
      assert (Hwf1 : wf ord d1) by (unfold wf; intuition congruence).
      pose proof (wf_reading ord d1 Hwf1 Hlt) as Hrd.
      assert (Hsk := skipn_cons_arg (d_argv d1) (optind d1) Hlt).
      specialize (Hev Hlt). rewrite <- Hev, Hsk. clear Hev Hev_end.
      remember (arg (d_argv d1) (optind d1)) as tok eqn:Htok.
      assert (Hdd : (tok =? "--")%string = false)
        by (destruct (String.eqb_spec tok "--"); [contradiction|reflexivity]).
      cbn [events]. rewrite Hdd.
      destruct (classify_cases tok) as [[Hc Hn] | [(body & Hc & Hn) | (c & rest & Hc & Hn & _)]];
        rewrite Hc in E |- *.
      * (* a non-option *)
        destruct ord.
        -- injection E as <- <-. repeat apply conj; auto; try lia; congruence.
        -- rewrite B4 in Hn by reflexivity. discriminate.
      * (* a long option *)
        assert (Hrd' : reading ord (set_nextchar d1 body)) by (destruct d1; exact Hrd).
        assert (Hoa' : optarg (set_nextchar d1 body) = None)
          by (destruct d1; fields; congruence).
        destruct (long_option_full ord _ _ _ Hrd' Hoa' E) as (C1 & C2 & C3 & C4).
        destruct (process_long_option_facts _ _ _ E) as [_ Hne].
        replace (nextchar (set_nextchar d1 body)) with body in * by now destruct d1.
        replace (d_argv (set_nextchar d1 body)) with (d_argv d1) in * by now destruct d1.
        replace (optind (set_nextchar d1 body)) with (optind d1) in * by now destruct d1.
        rewrite C2. pose proof C1 as (W1 & W2 & W3 & W4 & _). rewrite C2 in W4.
        repeat apply conj; auto; try lia; try congruence.
        intros _. split; [exact C1|]. split; [exact C3|].
        rewrite Hsk, scan_measure_cons in Hrem1. lia.
      * (* short options *)
        assert (Hoa1 : optarg d1 = None) by congruence.
        destruct (short_option_full ord _ _ _ _ _ Hrd Hoa1 E) as (C1 & C2 & C3 & C4).
        destruct (short_option_facts _ _ _ _ _ E) as [_ Hne].
        rewrite C2. pose proof C1 as (W1 & W2 & W3 & W4 & _). rewrite C2 in W4.
        repeat apply conj; auto; try lia; try congruence.
        intros _. split; [exact C1|]. split; [exact C3|].
        rewrite Hsk, scan_measure_cons in Hrem1.
        pose proof (classify_short_length _ _ _ Hc) as Hlen.
        lia.
  - (* inside an element *)
    replace (nextchar (set_optarg d None)) with (String c rest) in E
      by (now rewrite <- Hnc; destruct d).
    assert (Hlt : optind d < length (d_argv d)).
    { unfold wf in Hwf. apply Hwf. rewrite Hnc. discriminate. }
    assert (Hrd : reading ord (set_optarg d None)).
    { destruct d. apply (wf_reading ord _ Hwf Hlt). }
    assert (Hoa : optarg (set_optarg d None) = None) by now destruct d.
    destruct (short_option_full ord _ _ _ _ _ Hrd Hoa E) as (C1 & C2 & C3 & C4).
    destruct (short_option_facts _ _ _ _ _ E) as [_ Hne].
    replace (d_argv (set_optarg d None)) with (d_argv d) in * by now destruct d.
    replace (optind (set_optarg d None)) with (optind d) in * by now destruct d.
    rewrite C2. pose proof C1 as (W1 & W2 & W3 & W4 & _). rewrite C2 in W4.
    repeat apply conj; auto; try lia; try congruence.
    intros _. split; [exact C1|]. split.
    + unfold upcoming at 1. rewrite Hnc. exact C3.
    + unfold remaining at 2. rewrite Hnc. cbn [String.length]. lia.
Qed.

(** ** The loop against the events *)

(** The [switch] looks at [optarg] only, the text of the diagnostic apart. *)
Lemma switch_by_optarg X opt d cfg :
  match switch X opt d cfg with
  | Break c => switch X opt (only_optarg (optarg d)) cfg = Break c
  | Return rc c _ => exists out, switch X opt (only_optarg (optarg d)) cfg = Return rc c out
  end.
Proof.
  unfold switch, with_setter, only_optarg. cbn [optarg].
  repeat match goal with
         | |- context [(opt =? ?k)%Z] => destruct (opt =? k)%Z
         | |- context [?f X cfg (optarg d)] => destruct (f X cfg (optarg d)) as [[] ?]
         end; eauto.
Qed.

Lemma getopt_codes_app (a b : list event) :
  getopt_codes (a ++ b) = getopt_codes a ++ getopt_codes b.
Proof. apply flat_map_app. Qed.

Lemma getopt_codes_out X opt d cfg rc cfg' out :
  switch X opt d cfg = Return rc cfg' out -> getopt_codes out = [].
Proof.
  intros Hs.
  apply switch_return in Hs
    as [(_ & _ & [[_ ->]|[_ ->]]) | [(_ & -> & _) | (_ & _ & -> & _)]]; reflexivity.
Qed.

(** A run of the loop from a state between two calls of getopt_long. *)
Lemma loop_run_events X ord d cfg res :
  loop_run X ord d cfg res ->
  wf ord d ->
  Permutation (d_argv (l_data res)) (d_argv d)
  /\ arg (d_argv (l_data res)) 0 = arg (d_argv d) 0
  /\ 1 <= optind (l_data res) <= length (d_argv (l_data res))
  /\ exists codes,
       run_events X (upcoming ord d) cfg = (l_exit res, l_cfg res, codes)
       /\ getopt_codes (l_trace res)
          = codes ++ match l_exit res with Finished => [(-1)%Z] | Returned _ => [] end.
Proof.
  induction 1 as [d cfg d' Eg | d cfg opt d' rc cfg' out Eg Hne Es
                 | d cfg opt d' cfg' res Eg Hne Es Hrun IH]; intros Hwf;
    destruct (getopt_long_full _ _ _ _ Hwf Eg) as (Hperm & Hzero & Hind & Hend & Hstep);
    cbn [l_data l_exit l_cfg l_trace emit].
  - repeat apply conj; auto; try lia.
    exists []. rewrite (Hend eq_refl). split; reflexivity.
  - destruct (Hstep Hne) as (Hwf' & Hup & _).
    repeat apply conj; auto; try lia.
    exists [opt]. rewrite Hup. cbn [run_events].
    pose proof (switch_by_optarg X opt d' cfg) as Hs. rewrite Es in Hs.
    destruct Hs as [out' ->]. split; [reflexivity|].
    cbn [getopt_codes flat_map app]. fold (getopt_codes out).
    now rewrite (getopt_codes_out _ _ _ _ _ _ _ Es).
  - destruct (Hstep Hne) as (Hwf' & Hup & _).
    destruct (IH Hwf') as (I1 & I2 & I3 & codes & I4 & I5).
    repeat apply conj; try lia.
    + now rewrite I1.
    + congruence.
    + exists (opt :: codes). rewrite Hup. cbn [run_events].
      pose proof (switch_by_optarg X opt d' cfg) as Hs. rewrite Es in Hs.
      rewrite Hs, I4. split; [reflexivity|].
      cbn [app getopt_codes flat_map]. fold (getopt_codes (l_trace res)).
      now rewrite I5.
Qed.

Lemma upcoming_init ord argv :
  upcoming ord (getopt_init argv) = events ord false (tl argv).
Proof. unfold upcoming, getopt_init. cbn [nextchar optind d_argv]. now destruct argv. Qed.

Lemma run_events_rc X evs cfg rc c codes :
  run_events X evs cfg = (Returned rc, c, codes) -> rc = 0%Z \/ rc = (-1)%Z.
Proof.
  revert cfg codes. induction evs as [|[opt a] evs IH]; intros cfg codes; cbn [run_events].
  - discriminate.
  - destruct (switch X opt (only_optarg a) cfg) as [cfg'|rc' cfg' out] eqn:Es.
    + destruct (run_events X evs cfg') as [[e c'] codes'] eqn:Er.
      intros [= -> -> <-]. eapply IH; eauto.
    + intros [= -> -> <-].
      apply switch_return in Es as [(-> & _)|[(-> & _)|(-> & _)]]; auto.
Qed.

(** The scan of a command line comes to what its tokens say. *)
Lemma parse_cmdline_outcome X posix argv cfg r :
  parse_cmdline X posix argv cfg = Some r ->
  scan_outcome r = tokens_outcome X posix argv cfg.
Proof.
  intros Hr. unfold tokens_outcome, events_outcome, scan_outcome, files_of.
  destruct (parse_cmdline_run _ _ _ _ _ Hr) as (res & Hrun & Hres).
  destruct argv as [|prog args].
  - inversion Hrun; subst;
      match goal with
      | Eg : getopt_long _ _ _ _ = _ |- _ =>
          vm_compute in Eg; injection Eg; intros; subst
      end; try congruence.
    cbn [l_exit] in Hres. subst r. reflexivity.
  - assert (Hwf : wf (ordering_of posix) (getopt_init (prog :: args)))
      by (apply wf_init; discriminate).
    destruct (loop_run_events _ _ _ _ _ Hrun Hwf) as (_ & _ & Hind & codes & He & Hc).
    rewrite upcoming_init in He. rewrite He.
    destruct (l_exit res) as [rc|] eqn:Hex.
    + subst r. cbn [p_ret p_cfg p_trace p_argv].
      rewrite Hc, app_nil_r.
      destruct (run_events_rc _ _ _ _ _ _ He) as [->| ->]; reflexivity.
    + destruct (loop_run_init_finished _ _ _ _ _ Hrun Hex) as (_ & _ & _ & Hops & _).
      subst r. cbn [p_ret p_cfg p_trace p_argv].
      rewrite getopt_codes_app, Hc. cbn [getopt_codes flat_map app]. rewrite app_nil_r.
      destruct (Z.ltb_spec 0 (Z.of_nat (optind (l_data res)))) as [_|]; [|lia].
      rewrite Nat2Z.id, Hops.
      replace (Z.sgn (Z.of_nat (optind (l_data res)))) with 1%Z by lia.
      reflexivity.
Qed.

(** ** Command lines token by token *)

Lemma cluster_events_next (s : string) (n1 n2 : option string) :
  short_consumes s = false -> cluster_events s n1 = cluster_events s n2.
Proof.
  induction s as [|c rest IH]; [reflexivity|]. cbn [short_consumes cluster_events].
  destruct (short_arity c) as [[|]|]; intros H.
  - now rewrite H.
  - now rewrite IH.
  - now rewrite IH.
Qed.

Lemma long_event_next (body : string) (n1 n2 : option string) :
  long_consumes body = false -> long_event body n1 = long_event body n2.
Proof.
  unfold long_consumes, long_event. destruct (name_end body) as [nm [a|]]; [reflexivity|].
  destruct (lookup_long nm options) as [p| |]; try reflexivity.
  now intros ->.
Qed.

(** Behind tokens the scan goes through, it starts afresh. *)
Lemma events_app ord (A : list string) : forall pre skip,
  scans_through ord skip pre = true ->
  events ord skip (pre ++ A) = events ord skip pre ++ events ord false A.
Proof.
  induction pre as [|t rest IH]; intros skip H.
  - destruct skip; [discriminate|reflexivity].
  - cbn [scans_through] in H. cbn [app events].
    destruct skip; [now apply IH|].
    destruct (NONOPTION_P t) eqn:Hn.
    { destruct (nonoption_events t Hn) as [-> ->].
      destruct ord; [discriminate|now apply IH]. }
    destruct (t =? "--")%string; [discriminate|].
    unfold consumes_next in H.
    destruct (classify_cases t) as [[Hc Hn'] | [(body & Hc & _) | (c & r & Hc & _ & _)]];
      [congruence| |]; rewrite Hc in *.
    + rewrite (IH _ H). cbn [app]. f_equal.
      destruct rest as [|x rest']; [|reflexivity].
      cbn [scans_through] in H. apply long_event_next.
      now destruct (long_consumes body).
    + rewrite (IH _ H), app_assoc. f_equal. f_equal.
      destruct rest as [|x rest']; [|reflexivity].
      cbn [scans_through] in H. apply cluster_events_next.
      now destruct (short_consumes (String c r)).
Qed.

Lemma operands_app ord (A : list string) : forall pre skip,
  scans_through ord skip pre = true ->
  operands ord skip (pre ++ A) = operands ord skip pre ++ operands ord false A.
Proof.
  induction pre as [|t rest IH]; intros skip H.
  - destruct skip; [discriminate|reflexivity].
  - cbn [scans_through] in H. cbn [app operands].
    destruct skip; [now apply IH|].
    destruct (NONOPTION_P t).
    { destruct ord; [discriminate|]. cbn [app]. f_equal. now apply IH. }
    destruct (t =? "--")%string; [discriminate|].
    now apply IH.
Qed.

(** Options and nothing else are gone through in either order, and leave
    no file. *)
Lemma options_only_scan ord : forall pre skip,
  scans_through REQUIRE_ORDER skip pre = true ->
  scans_through ord skip pre = true /\ operands ord skip pre = [].
Proof.
  induction pre as [|t rest IH]; intros skip H; cbn [scans_through operands] in *.
  - split; [exact H|reflexivity].
  - destruct skip; [now apply IH|].
    destruct (NONOPTION_P t); [discriminate|].
    destruct (t =? "--")%string; [discriminate|].
    now apply IH.
Qed.

(** Two command lines that differ behind the same run of options. *)
Lemma tokens_outcome_behind X posix prog (pre A B : list string) cfg :
  scans_through (ordering_of posix) false pre = true ->
  events (ordering_of posix) false A = events (ordering_of posix) false B ->
  operands (ordering_of posix) false A = operands (ordering_of posix) false B ->
  tokens_outcome X posix (prog :: pre ++ A) cfg
  = tokens_outcome X posix (prog :: pre ++ B) cfg.
Proof.
  intros Hpre He Ho. unfold tokens_outcome. cbn [tl].
  now rewrite !(events_app _ _ _ _ Hpre), !(operands_app _ _ _ _ Hpre), He, Ho.
Qed.

(** ** The spellings of an option *)

Lemma long_short_tokens ord o n (rest : list string) :
  In o options -> name o = Some n ->
  events ord false (long_form n :: rest) = events ord false (short_form o "" :: rest)
  /\ operands ord false (long_form n :: rest) = operands ord false (short_form o "" :: rest).
Proof.
  intros Hin Hn. table_entry Hin Hn; destruct rest; split; reflexivity.
Qed.

Lemma value_tokens ord o n v (rest : list string) :
  In o options -> name o = Some n -> has_arg o = required_argument ->
  (events ord false (long_form_with n v :: rest) = events ord false (long_form n :: v :: rest)
   /\ operands ord false (long_form_with n v :: rest)
      = operands ord false (long_form n :: v :: rest))
  /\ (v <> "" ->
      events ord false (short_form o v :: rest) = events ord false (long_form n :: v :: rest)
      /\ operands ord false (short_form o v :: rest)
         = operands ord false (long_form n :: v :: rest)).
Proof.
  intros Hin Hn Ha.
  table_entry Hin Hn; try discriminate Ha;
    (split; [split; reflexivity|]);
    (intros Hv; destruct v as [|x v]; [contradiction|]; split; reflexivity).
Qed.

Lemma abbreviation_tokens ord o n nm (rest : list string) :
  In o options -> name o = Some n ->
  nm <> "" -> prefix nm n = true ->
  events ord false (long_form nm :: rest) = events ord false (long_form n :: rest)
  /\ operands ord false (long_form nm :: rest) = operands ord false (long_form n :: rest).
Proof.
  intros Hin Hn Hne Hp.
  table_entry Hin Hn;
    each_prefix Hp nm ltac:(first [contradiction|destruct rest; split; reflexivity]).
Qed.

(** ** Positional arguments and ["--"] *)

Lemma files_tokens ord (files : list string) :
  Forall (fun s => NONOPTION_P s = true) files ->
  events ord false files = [] /\ operands ord false files = files.
Proof.
  intros H. destruct ord.
  - destruct H as [|s l Hs _]; [split; reflexivity|].
    destruct (nonoption_events s Hs) as [Hd Hc].
    cbn [events operands]. now rewrite Hd, Hc, Hs.
  - pose proof (events_permute_nonopts files [] H) as He.
    pose proof (operands_permute_nonopts files [] H) as Ho.
    rewrite app_nil_r in He, Ho. now rewrite He, Ho, app_nil_r.
Qed.

(** In POSIX order the scan stops where the positional arguments start;
    when nothing that looks like an option follows them, the default
    order finds the same. *)
Lemma posix_permute_tokens : forall toks skip,
  Forall (fun s => NONOPTION_P s = true) (operands REQUIRE_ORDER skip toks) ->
  events REQUIRE_ORDER skip toks = events PERMUTE skip toks
  /\ operands REQUIRE_ORDER skip toks = operands PERMUTE skip toks.
Proof.
  induction toks as [|t rest IH]; intros skip H; [split; reflexivity|].
  cbn [events operands] in *.
  destruct skip; [now apply IH|].
  destruct (NONOPTION_P t) eqn:Hn.
  - destruct (nonoption_events t Hn) as [Hd Hc]. rewrite Hd, Hc.
    inversion H as [|? ? _ Hrest]; subst.
    destruct (files_tokens PERMUTE rest Hrest) as [-> ->]. split; reflexivity.
  - destruct (t =? "--")%string; [split; reflexivity|].
    unfold consumes_next in *.
    destruct (classify_cases t) as [[_ Hn'] | [(body & Hc & _) | (c & r & Hc & _ & _)]];
      [congruence| |]; rewrite Hc in *;
      destruct (IH _ H) as [-> ->]; split; reflexivity.
Qed.

Lemma classify_short (c : ascii) (r : string) :
  c <> "-"%char ->
  classify (String "-" (String c r)) = ShortOptions c r
  /\ NONOPTION_P (String "-" (String c r)) = false
  /\ (String "-" (String c r) =? "--")%string = false.
Proof.
  intros Hc.
  destruct c as [[] [] [] [] [] [] [] []];
    try (repeat apply conj; reflexivity).
  now contradiction Hc.
Qed.

Lemma events_short_token ord t c r (rest : list string) :
  (t =? "--")%string = false -> classify t = ShortOptions c r ->
  events ord false (t :: rest)
  = cluster_events (String c r) (hd_error rest)
    ++ events ord (short_consumes (String c r)) rest.
Proof. intros Hd Hc. cbn [events]. now rewrite Hd, Hc. Qed.

Lemma operands_option_token ord t (rest : list string) :
  NONOPTION_P t = false -> (t =? "--")%string = false ->
  operands ord false (t :: rest) = operands ord (consumes_next t) rest.
Proof. intros Hn Hd. cbn [operands]. now rewrite Hn, Hd. Qed.

Lemma flag_entry o n :
  In o options -> name o = Some n -> has_arg o = no_argument ->
  short_arity (char_of_int (val o)) = Some false
  /\ char_of_int (val o) <> "-"%char.
Proof.
  intros Hin Hn Ha.
  table_entry Hin Hn; try discriminate Ha; split; try reflexivity; discriminate.
Qed.

(** A flag in front of other short options in its token, and in a token
    of its own. *)
Lemma cluster_tokens ord o n (c : ascii) (r : string) (more : list string) :
  In o options -> name o = Some n -> has_arg o = no_argument ->
  c <> "-"%char ->
  events ord false (short_form o (String c r) :: more)
  = events ord false (short_form o "" :: String "-" (String c r) :: more)
  /\ operands ord false (short_form o (String c r) :: more)
     = operands ord false (short_form o "" :: String "-" (String c r) :: more).
Proof.
  intros Hin Hn Ha Hc.
  destruct (flag_entry o n Hin Hn Ha) as [Hf Hfd]. unfold short_form.
  set (f := char_of_int (val o)) in *. clearbody f.
  destruct (classify_short c r Hc) as (Hcl & Hno & Hdd).
  destruct (classify_short f (String c r) Hfd) as (Hcl1 & Hno1 & Hdd1).
  destruct (classify_short f "" Hfd) as (Hcl2 & Hno2 & Hdd2).
  split.
  - rewrite (events_short_token _ _ _ _ _ Hdd1 Hcl1), (events_short_token _ _ _ _ _ Hdd2 Hcl2).
    cbn [cluster_events short_consumes]. rewrite Hf. cbn [cluster_events short_consumes app].
    now rewrite (events_short_token _ _ _ _ _ Hdd Hcl).
  - rewrite !operands_option_token by assumption.
    unfold consumes_next. rewrite Hcl1, Hcl2.
    cbn [short_consumes]. rewrite Hf. cbn [short_consumes].
    rewrite operands_option_token by assumption.
    unfold consumes_next. now rewrite Hcl.
Qed.

(** ** Whole scans *)

(** Where a run from the first call leaves [argv] and [optind]. *)
Lemma loop_run_init X ord argv cfg res :
  loop_run X ord (getopt_init argv) cfg res ->
  Permutation (d_argv (l_data res)) argv
  /\ arg (d_argv (l_data res)) 0 = arg argv 0
  /\ (ord = REQUIRE_ORDER -> d_argv (l_data res) = argv)
  /\ (l_exit res <> Finished ->
      1 <= optind (l_data res) <= length (d_argv (l_data res))).
Proof.
  intros Hrun. destruct argv as [|prog args].
  - inversion Hrun; subst;
      match goal with
      | Eg : getopt_long _ _ _ _ = _ |- _ =>
          vm_compute in Eg; injection Eg; intros; subst
      end; try congruence.
    cbn [l_data l_exit d_argv]. repeat apply conj; auto. congruence.
  - assert (Hwf : wf ord (getopt_init (prog :: args))) by (apply wf_init; discriminate).
    destruct (loop_run_events _ _ _ _ _ Hrun Hwf) as (Hp & Hz & Hind & _).
    destruct (loop_run_finished _ _ _ _ _ Hrun Hwf) as (_ & Hro & _).
    repeat apply conj; auto.
Qed.

Lemma outcome_tokens X posix argv cfg :
  outcome X posix argv cfg = Some (tokens_outcome X posix argv cfg).
Proof.
  unfold outcome.
  destruct (parse_cmdline_total X posix argv cfg) as [r Hr].
  rewrite Hr. cbn [option_map]. now rewrite (parse_cmdline_outcome _ _ _ _ _ Hr).
Qed.

Lemma outcome_behind X posix prog (pre A B : list string) cfg :
  scans_through (ordering_of posix) false pre = true ->
  events (ordering_of posix) false A = events (ordering_of posix) false B
  /\ operands (ordering_of posix) false A = operands (ordering_of posix) false B ->
  outcome X posix (prog :: pre ++ A) cfg = outcome X posix (prog :: pre ++ B) cfg.
Proof.
  intros Hpre [He Ho]. rewrite !outcome_tokens. f_equal.
  now apply tokens_outcome_behind.
Qed.

Lemma events_outcome_with_files X evs files files0 cfg :
  events_outcome X evs files cfg = with_files files (events_outcome X evs files0 cfg).
Proof.
  unfold events_outcome, with_files.
  destruct (run_events X evs cfg) as [[[rc|] c] codes] eqn:E; [|reflexivity].
  destruct (run_events_rc _ _ _ _ _ _ E) as [->| ->]; reflexivity.
Qed.

(** Behind tokens the scan goes through: tokens that give no event add
    to the files. *)
Lemma outcome_files_behind X posix prog (pre A : list string) cfg :
  scans_through (ordering_of posix) false pre = true ->
  events (ordering_of posix) false A = [] ->
  outcome X posix (prog :: pre ++ A) cfg
  = option_map (with_files (operands (ordering_of posix) false pre
                            ++ operands (ordering_of posix) false A))
               (outcome X posix (prog :: pre) cfg).
Proof.
  intros Hpre He. rewrite !outcome_tokens. cbn [option_map]. f_equal.
  unfold tokens_outcome. cbn [tl].
  rewrite (events_app _ _ _ _ Hpre), (operands_app _ _ _ _ Hpre), He, app_nil_r.
  apply events_outcome_with_files.
Qed.

(** ** Runs of main *)

(** The three ways [main] goes on after the scan. *)
Lemma main_shape X posix argv :
  argv <> [] ->
  (init_config X = None /\ main X posix argv = Some (EXIT_FAILURE, []))
  \/ exists cfg r,
       init_config X = Some cfg
       /\ parse_cmdline X posix argv cfg = Some r
       /\ ((p_ret r = 0%Z /\ main X posix argv = Some (EXIT_SUCCESS, p_trace r))
           \/ (p_ret r = (-1)%Z /\ main X posix argv = Some (EXIT_FAILURE, p_trace r))
           \/ ((0 < p_ret r)%Z
               /\ main X posix argv
                  = Some (after (p_trace r)
                            (run_mode X (p_cfg r)
                               (mode_of (skipn (Z.to_nat (p_ret r)) (p_argv r))))))).
Proof.
  intros Hne. destruct (init_config X) as [cfg|] eqn:Hinit.
  - right. destruct (parse_cmdline_total X posix argv cfg) as [r Hr].
    exists cfg, r. split; [reflexivity|]. split; [exact Hr|].
    destruct (parse_cmdline_ret _ _ _ _ _ Hr) as (codes & last & out & _ & Hcases).
    destruct Hcases as [(H0 & _) | [(H0 & _) | (H0 & _)]].
    + left. split; [exact H0|]. unfold main. now rewrite Hinit, Hr, H0.
    + right; left. split; [exact H0|]. unfold main. now rewrite Hinit, Hr, H0.
    + right; right. split; [lia|]. apply (main_continue X posix argv cfg r); auto. lia.
  - left. split; [reflexivity|]. unfold main. now rewrite Hinit.
Qed.

Lemma acts_app (a b : list event) : acts (a ++ b) = acts a ++ acts b.
Proof. apply filter_app. Qed.

Lemma acts_getopts (codes : list Z) : acts (map EvGetopt codes) = [].
Proof. induction codes as [|o l IH]; [reflexivity|exact IH]. Qed.

Lemma getopt_codes_getopts (codes : list Z) : getopt_codes (map EvGetopt codes) = codes.
Proof. induction codes as [|o l IH]; [reflexivity|]. cbn. now f_equal. Qed.

Lemma last_snoc (l : list Z) (x d : Z) : last (l ++ [x]) d = x.
Proof. apply last_last. Qed.

(** [main] goes by the outcome of the scan. *)
Lemma main_outcome_by_scan X posix argv cfg r :
  argv <> [] ->
  init_config X = Some cfg ->
  parse_cmdline X posix argv cfg = Some r ->
  main_outcome X posix argv = Some (main_of_outcome X (scan_outcome r)).
Proof.
  intros Hne Hinit Hr. unfold main_outcome.
  destruct (main_shape X posix argv Hne) as [[H _]|(cfg' & r' & Hi & Hr' & Hm)];
    [congruence|].
  assert (cfg' = cfg) by congruence. subst cfg'.
  assert (r' = r) by congruence. subst r'.
  unfold main_of_outcome, scan_outcome, files_of.
  destruct (parse_cmdline_ret _ _ _ _ _ Hr) as (codes & last & out & _ & Hcases).
  destruct Hm as [[H0 ->] | [[H0 ->] | [H0 ->]]];
    destruct Hcases as [(H0' & Ht & Hout) | [(H0' & Ht & Hout) | (H0' & Ht & _)]];
    try lia; cbn [option_map fst snd]; rewrite Ht.
  - rewrite H0. cbn [Z.sgn Z.eqb]. f_equal. f_equal.
    rewrite acts_app, acts_getopts, getopt_codes_app, getopt_codes_getopts.
    destruct Hout as [[-> ->]|[-> ->]]; reflexivity || (cbn [app getopt_codes flat_map print_version print_help puts];
      rewrite last_snoc; reflexivity).
  - rewrite H0. cbn [Z.sgn Z.eqb Z.ltb Z.compare]. f_equal. f_equal.
    rewrite acts_app, acts_getopts.
    destruct Hout as [[-> _]|[[tok ->] _]]; reflexivity.
  - destruct (Z.ltb_spec 0 (p_ret r)) as [_|]; [|lia].
    replace (Z.sgn (p_ret r)) with 1%Z by lia. cbn [Z.eqb Z.ltb Z.compare].
    unfold after. cbn [fst snd]. f_equal. f_equal.
    rewrite !acts_app, acts_getopts. reflexivity.
Qed.

Lemma run_mode_shape X cfg m :
  (exists paths msg,
      run_mode X cfg m = (EXIT_FAILURE, [EvInitFileList paths true; EvStderr msg])
      /\ init_file_list X paths true = None)
  \/ (exists paths files,
        run_mode X cfg m
        = (if run_viewer X cfg (Some files) then EXIT_SUCCESS else EXIT_FAILURE,
           [EvInitFileList paths true; EvRunViewer cfg (Some files)])
        /\ init_file_list X paths true = Some files)
  \/ run_mode X cfg m
     = (if run_viewer X cfg None then EXIT_SUCCESS else EXIT_FAILURE,
        [EvRunViewer cfg None]).
Proof.
  destruct m as [| |paths]; cbn [run_mode]; unfold enumerate.
  - destruct (init_file_list X ["."] true) as [files|] eqn:E; [right; left|left]; eauto.
  - right; right. reflexivity.
  - destruct (init_file_list X paths true) as [files|] eqn:E; [right; left|left]; eauto.
Qed.

(** A scan that gives an index to continue at returns the configuration
    from [check_config]. *)
Lemma parse_continue_checked X posix argv cfg r :
  parse_cmdline X posix argv cfg = Some r ->
  (0 < p_ret r)%Z ->
  exists c0, p_cfg r = check_config X c0.
Proof.
  intros Hr Hpos.
  destruct (parse_cmdline_run _ _ _ _ _ Hr) as (res & Hrun & Hres).
  destruct (l_exit res) as [rc|] eqn:Hex.
  - exfalso. subst r. cbn [p_ret] in Hpos.
    destruct (loop_run_trace _ _ _ _ _ Hrun) as (codes & last & out & _ & _ & Hl).
    rewrite Hex in Hl. destruct Hl as (_ & cfg0 & Hs).
    apply switch_return in Hs as [(-> & _)|[(-> & _)|(-> & _)]]; lia.
  - subst r. cbn [p_cfg]. eauto.
Qed.

(** ** The flags *)

Lemma loop_run_no_sway X ord d cfg res :
  setters_frame X ->
  loop_run X ord d cfg res ->
  applied "n" (l_trace res) -> sway_wm (l_cfg res) = false.
Proof.
  intros HF. unfold applied.
  induction 1 as [d cfg d' Eg | d cfg opt d' rc cfg' out Eg Hne Es
                 | d cfg opt d' cfg' res Eg Hne Es Hrun IH];
    cbn [l_trace l_cfg emit app].
  - intros [[=]|[]].
  - intros [[= ->]|Hin].
    + discriminate Es.
    + now apply (switch_out_no_getopt _ _ _ _ _ _ _ _ Es) in Hin.
  - intros [[= ->]|Hin].
    + injection Es as <-.
      destruct (loop_run_flags X ord d' _ res HF Hrun) as (_ & Hoff & _).
      now apply Hoff.
    + now apply IH.
Qed.

(** ** The usage text *)

Lemma print_help_entries X o n :
  In o options -> name o = Some n ->
  exists line, In (puts line) (print_help X) /\ prefix (usage_entry o n) line = true.
Proof.
  intros Hin Hn. unfold print_help.
  table_entry Hin Hn; cbn [In].
  - eexists. split; [right; left; reflexivity|reflexivity].
  - eexists. split; [do 2 right; left; reflexivity|reflexivity].
  - eexists. split; [do 3 right; left; reflexivity|reflexivity].
  - eexists. split; [do 4 right; left; reflexivity|reflexivity].
  - eexists. split; [do 5 right; left; reflexivity|reflexivity].
  - eexists. split; [do 6 right; left; reflexivity|reflexivity].
  - eexists. split; [do 7 right; left; reflexivity|reflexivity].
  - eexists. split; [do 8 right; left; reflexivity|reflexivity].
  - eexists. split; [do 9 right; left; reflexivity|reflexivity].
Qed.

(** ** The values getopt_long returns *)

Lemma lookup_long_named nm opts p :
  lookup_long nm opts = Found p -> exists n, In (n, p) (named_entries opts).
Proof.
  unfold lookup_long.
  destruct (find _ (named_entries opts)) as [[n q]|] eqn:Ef.
  - intros [= <-]. apply find_some in Ef as [Hin _]. eauto.
  - destruct (filter _ (named_entries opts)) as [|[n q] more] eqn:Efl; [discriminate|].
    destruct (existsb _ more); [discriminate|]. intros [= <-].
    assert (Hin : In (n, q) (filter (fun e => prefix nm (fst e)) (named_entries opts)))
      by (rewrite Efl; now left).
    apply filter_In in Hin as [Hin _]. eauto.
Qed.

Lemma short_arity_known (c : ascii) (b : bool) :
  short_arity c = Some b -> In (int_of_char c) table_codes.
Proof.
  destruct c as [[] [] [] [] [] [] [] []]; vm_compute; intros H;
    try discriminate H; tauto.
Qed.

Lemma cluster_events_codes (s : string) (next : option string) :
  Forall event_code_ok (cluster_events s next).
Proof.
  induction s as [|c rest IH]; cbn [cluster_events]; [constructor|].
  destruct (short_arity c) as [[|]|] eqn:Ha.
  - destruct (rest =? "")%string; [destruct next|];
      (constructor; [|constructor]);
      first [now left|right; apply (short_arity_known c _ Ha)].
  - constructor; [right; apply (short_arity_known c _ Ha)|exact IH].
  - constructor; [now left|exact IH].
Qed.

Lemma long_event_code (body : string) (next : option string) :
  event_code_ok (long_event body next).
Proof.
  unfold long_event. destruct (name_end body) as [nm eq_arg].
  destruct (lookup_long nm options) as [p| |] eqn:El; try (now left).
  apply lookup_long_named in El as [n Hin].
  assert (Hp : In (val p) table_codes).
  { unfold table_codes. apply in_map_iff. exists (n, p). split; [reflexivity|exact Hin]. }
  destruct eq_arg; [destruct (has_arg p =? no_argument)%Z|
                    destruct (has_arg p =? required_argument)%Z; [destruct next|]];
    try (now left); now right.
Qed.

Lemma events_codes ord : forall toks skip,
  Forall event_code_ok (events ord skip toks).
Proof.
  induction toks as [|t rest IH]; intros skip; cbn [events]; [constructor|].
  destruct skip; [apply IH|].
  destruct (t =? "--")%string; [constructor|].
  destruct (classify t) as [body|c r|].
  - constructor; [apply long_event_code|apply IH].
  - apply Forall_app. split; [apply cluster_events_codes|apply IH].
  - destruct ord; [constructor|apply IH].
Qed.

Lemma run_events_codes X : forall evs cfg e c codes,
  run_events X evs cfg = (e, c, codes) ->
  Forall event_code_ok evs ->
  Forall (fun o => o = chr "?" \/ In o table_codes) codes.
Proof.
  induction evs as [|[opt a] evs IH]; intros cfg e c codes; cbn [run_events].
  - intros [= <- <- <-] _. constructor.
  - intros H Hok. inversion Hok as [|? ? Ho Hrest]; subst.
    destruct (switch X opt (only_optarg a) cfg) as [cfg'|rc cfg' out].
    + destruct (run_events X evs cfg') as [[e' c'] codes'] eqn:Er.
      injection H as <- <- <-. constructor; [exact Ho|]. eapply IH; eauto.
    + injection H as <- <- <-. constructor; [exact Ho|constructor].
Qed.

Lemma in_getopt_codes o tr : In (EvGetopt o) tr <-> In o (getopt_codes tr).
Proof.
  unfold getopt_codes. rewrite in_flat_map. split.
  - intros H. exists (EvGetopt o). split; [exact H|now left].
  - intros (e & He & Ho). destruct e; simpl in Ho; try contradiction.
    destruct Ho as [<-|[]]. exact He.
Qed.

(** The values the loop gets from getopt_long. *)
Lemma parse_cmdline_codes X posix argv cfg r o :
  parse_cmdline X posix argv cfg = Some r ->
  In (EvGetopt o) (p_trace r) ->
  o = (-1)%Z \/ o = chr "?" \/ In o table_codes.
Proof.
  intros Hr Hin. apply in_getopt_codes in Hin.
  pose proof (parse_cmdline_outcome _ _ _ _ _ Hr) as Ho.
  unfold scan_outcome, tokens_outcome, events_outcome in Ho.
  destruct (run_events X _ cfg) as [[e c] codes] eqn:Er.
  pose proof (run_events_codes _ _ _ _ _ _ Er (events_codes _ _ _)) as Hc.
  rewrite Forall_forall in Hc.
  destruct e as [rc|]; injection Ho as _ _ Hg _; rewrite Hg in Hin.
  - right. now apply Hc.
  - apply in_app_or in Hin as [Hin|[<-|[]]]; [right; now apply Hc|now left].
Qed.

Lemma table_codes_eq :
  table_codes = map chr (continuing ++ ["v"; "h"]%char).
Proof. reflexivity. Qed.

(** The [default:] branch is taken for ['?'] and for nothing else. *)
Lemma parse_cmdline_default X posix argv cfg r :
  parse_cmdline X posix argv cfg = Some r ->
  (exists msg, In (EvStderr msg) (p_trace r)) <-> In (EvGetopt (chr "?")) (p_trace r).
Proof.
  intros Hr.
  destruct (parse_cmdline_ret _ _ _ _ _ Hr) as (codes & last & out & Hcodes & Hcases).
  assert (Hg : forall msg, ~ In (EvStderr msg) (map EvGetopt codes)).
  { intros msg H. apply in_getopts in H as (o & [=] & _). }
  assert (Hq : ~ In (EvGetopt (chr "?")) (map EvGetopt codes)).
  { intros H. apply in_getopts in H as (o & [= <-] & Hin).
    rewrite Forall_forall in Hcodes. destruct (Hcodes _ Hin) as (c & Hc & Heq).
    destruct (continuing_code c Hc) as [Hne _]. congruence. }
  destruct Hcases as [(_ & Ht & Hout) | [(_ & Ht & Hout) | (_ & Ht & Hl & _)]].
  - (* help or version *)
    split.
    + intros [msg Hin]. exfalso. rewrite Ht in Hin.
      apply in_app_or in Hin as [Hin|[Hin|Hin]]; [now apply Hg in Hin|discriminate|].
      destruct Hout as [[_ ->]|[_ ->]]; simpl in Hin; unfold puts in Hin;
        repeat (destruct Hin as [Hin|Hin]; [discriminate|]); contradiction.
    + intros Hin. exfalso. rewrite Ht in Hin.
      apply in_app_or in Hin as [Hin|[Hin|Hin]]; [contradiction| |].
      * destruct Hout as [[-> _]|[-> _]]; discriminate.
      * destruct Hout as [[_ ->]|[_ ->]]; simpl in Hin; unfold puts in Hin;
          repeat (destruct Hin as [Hin|Hin]; [discriminate|]); contradiction.
  - destruct Hout as [[-> Hl]|[[tok ->] [Hne Hno]]].
    + (* a rejected value *)
      split.
      * intros [msg Hin]. exfalso. rewrite Ht in Hin.
        apply in_app_or in Hin as [Hin|[Hin|[]]]; [now apply Hg in Hin|discriminate].
      * intros Hin. exfalso. rewrite Ht in Hin.
        apply in_app_or in Hin as [Hin|[Hin|[]]]; [contradiction|].
        injection Hin as ->. simpl in Hl.
        repeat (destruct Hl as [Hl|Hl]; [discriminate|]). contradiction.
    + (* the default branch *)
      split.
      * intros _. rewrite Ht. apply in_or_app. right. left. f_equal.
        assert (Hin : In (EvGetopt last) (p_trace r))
          by (rewrite Ht; apply in_or_app; right; now left).
        destruct (parse_cmdline_codes _ _ _ _ _ _ Hr Hin) as [H|[H|H]];
          [contradiction|exact H|].
        exfalso. rewrite table_codes_eq in H. apply in_map_iff in H as (c & <- & Hc).
        now apply (Hno c).
      * intros _. eexists. rewrite Ht. apply in_or_app. right. right. now left.
  - (* the scan went through *)
    split.
    + intros [msg Hin]. exfalso. rewrite Ht in Hin.
      apply in_app_or in Hin as [Hin|Hin]; [now apply Hg in Hin|].
      simpl in Hin. repeat (destruct Hin as [Hin|Hin]; [discriminate|]). contradiction.
    + intros Hin. exfalso. rewrite Ht in Hin.
      apply in_app_or in Hin as [Hin|Hin]; [contradiction|].
      simpl in Hin. repeat (destruct Hin as [Hin|Hin]; [discriminate|]). contradiction.
Qed.

(** ** The element the diagnostic names *)

Lemma getopt_in_cluster ord a i oa c rest fn ln :
  1 <= length a ->
  getopt_long ord short_opts options (mk_data a i oa (String c rest) fn ln)
  = short_option short_opts c rest (mk_data a i None (String c rest) fn ln).
Proof.
  intros H. unfold getopt_long. fields.
  destruct (Nat.ltb_spec (length a) 1); [lia|reflexivity].
Qed.

Lemma switch_unknown X d cfg :
  switch X (chr "?") d cfg
  = Return (-1)%Z cfg
      [EvStderr ("Invalid argument: " ++ arg (d_argv d) (optind d - 1) ++ nl)].
Proof. reflexivity. Qed.

Lemma switch_plain_flag X c d cfg :
  In c plain_flags -> exists cfg', switch X (chr c) d cfg = Break cfg'.
Proof.
  unfold plain_flags. cbn [In].
  intros [<-|[<-|[<-|[]]]]; eexists; reflexivity.
Qed.

Lemma plain_flag_arity c :
  In c plain_flags -> short_arity c = Some false /\ chr c <> (-1)%Z /\ int_of_char c = chr c.
Proof.
  unfold plain_flags. cbn [In].
  intros [<-|[<-|[<-|[]]]]; repeat apply conj; try reflexivity; discriminate.
Qed.

(** The next step of a run, given what getopt_long returns. *)
Lemma loop_run_step X ord d cfg res opt d' :
  getopt_long ord short_opts options d = (opt, d') ->
  loop_run X ord d cfg res ->
  (opt = (-1)%Z /\ res = mk_loop Finished d' cfg [EvGetopt (-1)])
  \/ (opt <> (-1)%Z
      /\ exists rc cfg' out,
           switch X opt d' cfg = Return rc cfg' out
           /\ res = mk_loop (Returned rc) d' cfg' (EvGetopt opt :: out))
  \/ (opt <> (-1)%Z
      /\ exists cfg' res',
           switch X opt d' cfg = Break cfg'
           /\ loop_run X ord d' cfg' res'
           /\ res = emit [EvGetopt opt] res').
Proof.
  intros Eg Hrun.
  inversion Hrun; subst;
    match goal with
    | Eg' : getopt_long _ _ _ _ = _ |- _ =>
        rewrite Eg in Eg'; injection Eg'; intros; subst
    end.
  - left. split; reflexivity.
  - right; left. split; [assumption|]. eauto.
  - right; right. split; [assumption|]. eauto.
Qed.

Lemma options_val_known p : In p options -> val p <> chr "?".
Proof.
  unfold options. cbn [In].
  intros H. repeat (destruct H as [<-|H]; [discriminate|]). contradiction.
Qed.

(** A long option that is not accepted leaves [optind] behind its
    token. *)
Lemma long_option_rejected d r d' :
  process_long_option short_opts options d = (r, d') ->
  fst (long_event (nextchar d) (hd_error (skipn (S (optind d)) (d_argv d)))) = chr "?" ->
  r = chr "?" /\ optind d' = S (optind d) /\ d_argv d' = d_argv d.
Proof.
  unfold process_long_option, long_event.
  destruct d as [a oi oa nc fn ln]. fields.
  destruct (name_end nc) as [nm eq_arg].
  unfold no_argument, required_argument.
  destruct (lookup_long nm options) as [p| |] eqn:El;
    try (intros E _; injection E as <- <-; repeat apply conj; reflexivity).
  apply lookup_long_in, options_val_known in El.
  destruct eq_arg as [v|].
  - destruct (has_arg p =? 0)%Z; cbn [negb fst]; intros E Hq; [|congruence].
    injection E as <- <-. repeat apply conj; reflexivity.
  - destruct (has_arg p =? 1)%Z; [|cbn [fst]; congruence].
    destruct (Nat.ltb_spec (S oi) (length a)) as [Hlt|Hge].
    + rewrite (skipn_cons_arg a (S oi) Hlt). cbn [hd_error fst]. congruence.
    + intros E _. injection E as <- <-. repeat apply conj; reflexivity.
Qed.

(** ** Runs through a prefix of options *)

Lemma advance_clean ord a i oa f :
  f <= i -> i < length a ->
  NONOPTION_P (arg a i) = false -> (arg a i =? "--")%string = false ->
  advance ord (mk_data a i oa "" f f) = mk_data a i oa "" (mark ord f i) (mark ord f i).
Proof.
  intros Hf Hi Hn Hd. unfold advance. fields. rewrite !Nat.min_l by lia.
  assert (Hdd : forall m, dashdash_step (mk_data a i oa "" m m) = mk_data a i oa "" m m).
  { intros m. apply dashdash_step_other. cbn [d_argv optind].
    intros H. rewrite H in Hd. discriminate Hd. }
  destruct ord; cbn [mark]; [apply Hdd|].
  unfold permute_step. fields. rewrite Nat.eqb_refl. cbn [negb andb].
  destruct (Nat.eqb_spec f i) as [->|Hne]; cbn [negb]; cbv zeta; fields;
    rewrite (skipn_cons_arg a i Hi); cbn [skip_nonoptions]; rewrite Hn; fields;
    apply Hdd.
Qed.

Lemma getopt_clean_short ord a i oa f c r :
  f <= i -> i < length a ->
  arg a i = String "-" (String c r) -> c <> "-"%char ->
  getopt_long ord short_opts options (mk_data a i oa "" f f)
  = getopt_long ord short_opts options
      (mk_data a i None (String c r) (mark ord f i) (mark ord f i)).
Proof.
  intros Hf Hi Ht Hc. destruct (classify_short c r Hc) as (Hcl & Hno & Hdd).
  rewrite getopt_in_cluster by lia.
  unfold getopt_long at 1. fields.
  destruct (Nat.ltb_spec (length a) 1) as [|_]; [lia|].
  rewrite advance_clean by (rewrite ?Ht; auto). fields.
  destruct (Nat.eqb_spec i (length a)) as [|_]; [lia|].
  rewrite Ht, Hcl. unfold short_option. fields. reflexivity.
Qed.

Lemma getopt_clean_long ord a i oa f body :
  f <= i -> i < length a ->
  arg a i = long_form body -> body <> "" ->
  getopt_long ord short_opts options (mk_data a i oa "" f f)
  = process_long_option short_opts options
      (mk_data a i None body (mark ord f i) (mark ord f i)).
Proof.
  intros Hf Hi Ht Hb. unfold long_form in Ht. cbn [append] in Ht.
  assert (Hno : NONOPTION_P (String "-" (String "-" body)) = false) by reflexivity.
  assert (Hdd : (String "-" (String "-" body) =? "--")%string = false).
  { cbn. destruct body; [contradiction|reflexivity]. }
  unfold getopt_long. fields.
  destruct (Nat.ltb_spec (length a) 1) as [|_]; [lia|].
  rewrite advance_clean by (rewrite ?Ht; auto). fields.
  destruct (Nat.eqb_spec i (length a)) as [|_]; [lia|].
  rewrite Ht. reflexivity.
Qed.

Lemma short_option_exact c rest a i nc m :
  short_option short_opts c rest (mk_data a i None nc m m)
  = match short_arity c with
    | None =>
        (chr "?", mk_data a (if (rest =? "")%string then S i else i) None rest m m)
    | Some false =>
        (int_of_char c,
         mk_data a (if (rest =? "")%string then S i else i) None rest m m)
    | Some true =>
        if (rest =? "")%string then
          if (S i =? length a)%nat then (chr "?", mk_data a (S i) None "" m m)
          else (int_of_char c, mk_data a (S (S i)) (Some (arg a (S i))) "" m m)
        else (int_of_char c, mk_data a (S i) (Some rest) "" m m)
    end.
Proof.
  rewrite short_option_cases. cbv zeta. fields.
  destruct (short_arity c) as [[|]|]; destruct rest as [|x rest];
    cbn [String.eqb negb]; fields; reflexivity.
Qed.

Lemma process_long_exact a i m body :
  process_long_option short_opts options (mk_data a i None body m m)
  = (fst (long_event body (hd_error (skipn (S i) a))),
     mk_data a
       (if long_consumes body && (S i <? length a)%nat then S (S i) else S i)
       (snd (long_event body (hd_error (skipn (S i) a)))) "" m m).
Proof.
  unfold process_long_option, long_event, long_consumes. fields.
  destruct (name_end body) as [nm eq_arg].
  unfold no_argument, required_argument.
  destruct (lookup_long nm options) as [p| |];
    try (destruct eq_arg; reflexivity).
  destruct eq_arg as [v|].
  - destruct (has_arg p =? 0)%Z; reflexivity.
  - destruct (has_arg p =? 1)%Z; cbn [andb]; [|reflexivity].
    destruct (Nat.ltb_spec (S i) (length a)) as [Hlt|Hge].
    + rewrite (skipn_cons_arg a (S i) Hlt). reflexivity.
    + rewrite skipn_all2 by lia. reflexivity.
Qed.

Lemma switch_from_optarg X opt d cfg c :
  switch X opt (only_optarg (optarg d)) cfg = Break c -> switch X opt d cfg = Break c.
Proof.
  intros H. pose proof (switch_by_optarg X opt d cfg) as Hs.
  destruct (switch X opt d cfg) as [c'|rc c' out]; [congruence|].
  destruct Hs as [out' Hs]. congruence.
Qed.

Lemma loop_run_same_call X ord d1 d2 cfg res :
  getopt_long ord short_opts options d1 = getopt_long ord short_opts options d2 ->
  loop_run X ord d1 cfg res -> loop_run X ord d2 cfg res.
Proof.
  intros E Hrun.
  destruct (getopt_long ord short_opts options d2) as [opt d'] eqn:Eg.
  destruct (loop_run_step _ _ _ _ _ _ _ E Hrun)
    as [[-> ->] | [(Hne & rc & cfg' & out & Es & ->)
                  | (Hne & cfg' & res' & Es & Hrun' & ->)]].
  - now apply run_finished.
  - now apply run_return.
  - eapply run_break; eauto.
Qed.

Lemma emit_nil (r : loop_result) : emit [] r = r.
Proof. now destruct r. Qed.

Lemma emit_app es1 es2 (r : loop_result) : emit (es1 ++ es2) r = emit es1 (emit es2 r).
Proof. unfold emit. cbn [l_exit l_data l_cfg l_trace]. now rewrite app_assoc. Qed.

Lemma run_events_app X : forall e1 e2 cfg cfg1 codes,
  run_events X (e1 ++ e2) cfg = (Finished, cfg1, codes) ->
  exists cfgm c1 c2,
    run_events X e1 cfg = (Finished, cfgm, c1)
    /\ run_events X e2 cfgm = (Finished, cfg1, c2)
    /\ codes = c1 ++ c2.
Proof.
  induction e1 as [|[opt oa] e1 IH]; intros e2 cfg cfg1 codes H; cbn [app run_events] in *.
  - exists cfg, [], codes. repeat apply conj; auto.
  - destruct (switch X opt (only_optarg oa) cfg) as [cfg'|rc cfg' out]; [|discriminate].
    destruct (run_events X (e1 ++ e2) cfg') as [[e c] k] eqn:Er.
    injection H as -> -> <-.
    destruct (IH _ _ _ _ Er) as (cfgm & c1 & c2 & H1 & H2 & ->).
    exists cfgm, (opt :: c1), c2. rewrite H1. repeat apply conj; auto.
Qed.

(** A run from inside a token of short options whose events all let the
    scan go on: it gets to the start of the next token. *)
Lemma cluster_through X ord a i m :
  i < length a ->
  forall rest c oa cfg res cfg1 codes,
    run_events X (cluster_events (String c rest) (hd_error (skipn (S i) a))) cfg
    = (Finished, cfg1, codes) ->
    loop_run X ord (mk_data a i oa (String c rest) m m) cfg res ->
    exists oa' res1,
      loop_run X ord
        (mk_data a (if short_consumes (String c rest) then S (S i) else S i) oa' "" m m)
        cfg1 res1
      /\ res = emit (map EvGetopt codes) res1
      /\ (short_consumes (String c rest) = true -> S i < length a).
Proof.
  intros Hi. induction rest as [|c' rest' IH]; intros c oa cfg res cfg1 codes Hev Hrun;
    cbn [cluster_events short_consumes] in *;
    pose proof (getopt_in_cluster ord a i oa c) as Eg;
    destruct (short_arity c) as [[|]|] eqn:Ha.
  - (* the last character, with an argument in the next token *)
    specialize (Eg "" m m ltac:(lia)). rewrite short_option_exact, Ha in Eg.
    cbn [String.eqb] in *.
    destruct (Nat.eqb_spec (S i) (length a)) as [Hend|Hend].
    + rewrite Hend, skipn_all in Hev. cbn [hd_error run_events] in Hev.
      rewrite switch_unknown in Hev. discriminate.
    + assert (Hlt : S i < length a) by lia.
      rewrite (skipn_cons_arg a (S i) Hlt) in Hev. cbn [hd_error run_events] in Hev.
      destruct (switch X (int_of_char c) (only_optarg (Some (arg a (S i)))) cfg)
        as [cfgm|] eqn:Es; [|discriminate].
      injection Hev as <- <-.
      destruct (loop_run_step _ _ _ _ _ _ _ Eg Hrun)
        as [[H _] | [(_ & rc & cfg' & out & Es' & ->)
                    | (_ & cfg' & res' & Es' & Hrun' & ->)]].
      * now destruct (short_arity_code c _ Ha).
      * rewrite (switch_from_optarg X _ (mk_data a (S (S i)) (Some (arg a (S i))) "" m m)
                   cfg cfgm Es) in Es'. discriminate.
      * rewrite (switch_from_optarg X _ (mk_data a (S (S i)) (Some (arg a (S i))) "" m m)
                   cfg cfgm Es) in Es'. injection Es' as <-.
        eexists _, res'. repeat apply conj; eauto.
  - (* the last character, a flag *)
    specialize (Eg "" m m ltac:(lia)). rewrite short_option_exact, Ha in Eg.
    cbn [String.eqb run_events] in *.
    destruct (switch X (int_of_char c) (only_optarg None) cfg) as [cfgm|] eqn:Es;
      [|discriminate].
    injection Hev as <- <-.
    destruct (loop_run_step _ _ _ _ _ _ _ Eg Hrun)
      as [[H _] | [(_ & rc & cfg' & out & Es' & ->)
                  | (_ & cfg' & res' & Es' & Hrun' & ->)]].
    + now destruct (short_arity_code c _ Ha).
    + rewrite (switch_from_optarg X _ (mk_data a (S i) None "" m m) cfg cfgm Es) in Es'.
      discriminate.
    + rewrite (switch_from_optarg X _ (mk_data a (S i) None "" m m) cfg cfgm Es) in Es'.
      injection Es' as <-.
      eexists _, res'. repeat apply conj; eauto. discriminate.
  - (* the last character, unknown *)
    cbn [run_events] in Hev. rewrite switch_unknown in Hev. discriminate.
  - (* an option with the rest of the token as its argument *)
    specialize (Eg (String c' rest') m m ltac:(lia)). rewrite short_option_exact, Ha in Eg.
    cbn [String.eqb run_events] in *.
    destruct (switch X (int_of_char c) (only_optarg (Some (String c' rest'))) cfg)
      as [cfgm|] eqn:Es; [|discriminate].
    injection Hev as <- <-.
    destruct (loop_run_step _ _ _ _ _ _ _ Eg Hrun)
      as [[H _] | [(_ & rc & cfg' & out & Es' & ->)
                  | (_ & cfg' & res' & Es' & Hrun' & ->)]].
    + now destruct (short_arity_code c _ Ha).
    + rewrite (switch_from_optarg X _ (mk_data a (S i) (Some (String c' rest')) "" m m)
                 cfg cfgm Es) in Es'. discriminate.
    + rewrite (switch_from_optarg X _ (mk_data a (S i) (Some (String c' rest')) "" m m)
                 cfg cfgm Es) in Es'. injection Es' as <-.
      eexists _, res'. repeat apply conj; eauto. discriminate.
  - (* a flag with more characters behind it *)
    specialize (Eg (String c' rest') m m ltac:(lia)). rewrite short_option_exact, Ha in Eg.
    cbn [String.eqb run_events] in *.
    destruct (switch X (int_of_char c) (only_optarg None) cfg) as [cfgm|] eqn:Es;
      [|discriminate].
    destruct (run_events X _ cfgm) as [[e k] codes'] eqn:Er.
    injection Hev as -> -> <-.
    destruct (loop_run_step _ _ _ _ _ _ _ Eg Hrun)
      as [[H _] | [(_ & rc & cfg' & out & Es' & ->)
                  | (_ & cfg' & res' & Es' & Hrun' & ->)]].
    + now destruct (short_arity_code c _ Ha).
    + rewrite (switch_from_optarg X _ (mk_data a i None (String c' rest') m m)
                 cfg cfgm Es) in Es'. discriminate.
    + rewrite (switch_from_optarg X _ (mk_data a i None (String c' rest') m m)
                 cfg cfgm Es) in Es'. injection Es' as <-.
      destruct (IH _ _ _ _ _ _ Er Hrun') as (oa' & res1 & H1 & -> & H3).
      exists oa', res1. repeat apply conj; auto.
  - (* an unknown character with more behind it *)
    cbn [run_events] in Hev. rewrite switch_unknown in Hev. discriminate.
Qed.

Lemma classify_long_inv t body :
  classify t = LongOption body -> t = String "-" (String "-" body).
Proof.
  intros H. destruct t as [|c0 [|c1 r]]; [discriminate| |].
  - destruct c0 as [[] [] [] [] [] [] [] []]; discriminate.
  - destruct c0 as [[] [] [] [] [] [] [] []]; try discriminate H.
    destruct c1 as [[] [] [] [] [] [] [] []]; try discriminate H.
    now injection H as <-.
Qed.

Lemma classify_short_inv t c r :
  classify t = ShortOptions c r -> t = String "-" (String c r) /\ c <> "-"%char.
Proof.
  intros H. destruct t as [|c0 [|c1 r0]]; [discriminate| |].
  - destruct c0 as [[] [] [] [] [] [] [] []]; discriminate.
  - destruct c0 as [[] [] [] [] [] [] [] []]; try discriminate H.
    destruct c1 as [[] [] [] [] [] [] [] []]; try discriminate H;
      injection H as <- <-; split; try reflexivity; discriminate.
Qed.

Lemma skipn_head (a : list string) i t (rest : list string) :
  skipn i a = t :: rest ->
  i < length a /\ arg a i = t /\ skipn (S i) a = rest.
Proof.
  intros H.
  assert (Hi : i < length a).
  { destruct (Nat.lt_ge_cases i (length a)) as [|Hge]; [assumption|].
    rewrite skipn_all2 in H by lia. discriminate. }
  rewrite (skipn_cons_arg a i Hi) in H. injection H as H1 H2. auto.
Qed.

(** A run through options whose events all let the scan go on: it gets
    to the token behind them, and [argv] is as it was. *)
Lemma prefix_through X ord a (A : list string) : forall pre skip i oa f cfg res cfg1 codes,
  scans_through REQUIRE_ORDER skip pre = true ->
  skipn i a = pre ++ A ->
  f <= i ->
  run_events X (events ord skip pre) cfg = (Finished, cfg1, codes) ->
  loop_run X ord (mk_data a (if skip then S i else i) oa "" f f) cfg res ->
  exists oa' f' res1,
    f' <= i + length pre
    /\ loop_run X ord (mk_data a (i + length pre) oa' "" f' f') cfg1 res1
    /\ res = emit (map EvGetopt codes) res1.
Proof.
  induction pre as [|t rest IH]; intros skip i oa f cfg res cfg1 codes Hs Hsk Hf Hev Hrun.
  - destruct skip; [discriminate|]. cbn [events run_events] in Hev.
    injection Hev as <- <-. exists oa, f, res.
    rewrite Nat.add_0_r, emit_nil. cbn [length]. repeat apply conj; auto.
  - cbn [app] in Hsk. destruct (skipn_head _ _ _ _ Hsk) as (Hi & Ht & Hsk').
    cbn [scans_through events] in Hs, Hev.
    replace (i + length (t :: rest)) with (S i + length rest) by (cbn [length]; lia).
    destruct skip.
    { apply (IH false (S i) oa f cfg res cfg1 codes); auto. }
    destruct (NONOPTION_P t) eqn:Hn; [discriminate|].
    destruct (t =? "--")%string eqn:Hd; [discriminate|].
    unfold consumes_next in Hs.
    assert (Hm : mark ord f i <= S i) by (destruct ord; cbn [mark]; lia).
    destruct (classify t) as [body|c r|] eqn:Hc.
    + (* a long option *)
      apply classify_long_inv in Hc. 
      assert (Hb : body <> "").
      { intros ->. subst t. discriminate Hd. }
      assert (Hnext : long_event body (hd_error (skipn (S i) a))
                      = long_event body (hd_error rest)).
      { rewrite Hsk'. destruct rest as [|x rest']; [|reflexivity].
        cbn [scans_through] in Hs. apply long_event_next.
        now destruct (long_consumes body). }
      assert (Hpos : (if long_consumes body && (S i <? length a)%nat then S (S i) else S i)
                     = (if long_consumes body then S (S i) else S i)).
      { destruct (long_consumes body) eqn:Hl; [|reflexivity]. cbn [andb].
        destruct rest as [|x rest']; [discriminate Hs|].
        assert (S i < length a).
        { destruct (Nat.lt_ge_cases (S i) (length a)) as [|Hge]; [assumption|].
          rewrite skipn_all2 in Hsk' by lia. discriminate. }
        destruct (Nat.ltb_spec (S i) (length a)); [reflexivity|lia]. }
      assert (Eg := getopt_clean_long ord a i oa f body Hf Hi
                      ltac:(rewrite Ht, Hc; reflexivity) Hb).
      rewrite process_long_exact, Hnext, Hpos in Eg.
      destruct (long_event body (hd_error rest)) as [opt oa1] eqn:Hle.
      cbn [fst snd run_events] in *.
      destruct (switch X opt (only_optarg oa1) cfg) as [cfgm|] eqn:Es; [|discriminate].
      destruct (run_events X _ cfgm) as [[e k] codes'] eqn:Er.
      injection Hev as -> -> <-.
      destruct (loop_run_step _ _ _ _ _ _ _ Eg Hrun)
        as [[H _] | [(_ & rc & cfg' & out & Es' & ->)
                    | (_ & cfg' & res' & Es' & Hrun' & ->)]].
      * exfalso. subst opt.
        pose proof (long_event_code body (hd_error rest)) as Hok.
        rewrite Hle in Hok. unfold event_code_ok in Hok. cbn [fst] in Hok.
        destruct Hok as [Hok|Hok]; [discriminate Hok|].
        rewrite table_codes_eq in Hok. simpl in Hok.
        repeat (destruct Hok as [Hok|Hok]; [discriminate Hok|]). contradiction.
      * rewrite (switch_from_optarg X opt
                   (mk_data a (if long_consumes body then S (S i) else S i) oa1 ""
                            (mark ord f i) (mark ord f i)) cfg cfgm Es) in Es'.
        discriminate.
      * rewrite (switch_from_optarg X opt
                   (mk_data a (if long_consumes body then S (S i) else S i) oa1 ""
                            (mark ord f i) (mark ord f i)) cfg cfgm Es) in Es'.
        injection Es' as <-.
        destruct (IH _ (S i) _ _ _ _ _ _ Hs Hsk' Hm Er Hrun')
          as (oa' & f' & res1 & H1 & H2 & ->).
        exists oa', f', res1. repeat apply conj; auto.
    + (* short options *)
      destruct (classify_short_inv _ _ _ Hc) as [Htok Hcd].
      assert (Hnext : cluster_events (String c r) (hd_error (skipn (S i) a))
                      = cluster_events (String c r) (hd_error rest)).
      { rewrite Hsk'. destruct rest as [|x rest']; [|reflexivity].
        cbn [scans_through] in Hs. apply cluster_events_next.
        now destruct (short_consumes (String c r)). }
      destruct (run_events_app X _ _ _ _ _ Hev) as (cfgm & c1 & c2 & E1 & E2 & ->).
      rewrite <- Hnext in E1.
      assert (Eg := getopt_clean_short ord a i oa f c r Hf Hi
                      ltac:(rewrite Ht; exact Htok) Hcd).
      apply (loop_run_same_call X ord _ _ cfg res Eg) in Hrun.
      destruct (cluster_through X ord a i (mark ord f i) Hi _ _ _ _ _ _ _ E1 Hrun)
        as (oa1 & res1 & Hrun1 & -> & _).
      destruct (IH _ (S i) _ _ _ _ _ _ Hs Hsk' Hm E2 Hrun1)
        as (oa' & f' & res2 & H1 & H2 & ->).
      exists oa', f', res2. repeat apply conj; auto.
      now rewrite map_app, emit_app.
    + (* not a file: excluded *)
      destruct (classify_cases t) as [[_ Hn'] | [(b & Hc' & _) | (c & r & Hc' & _)]];
        congruence.
Qed.

(** A run of the loop from inside a token: plain flags, then a character
    that is not accepted. *)
Lemma cluster_rejected X ord a i (x : ascii) (more : string) :
  i < length a ->
  rejected_short x more (skipn (S i) a) ->
  forall flags oa fn ln cfg res,
    Forall (fun c => In c plain_flags) flags ->
    loop_run X ord (mk_data a i oa (fold_right String (String x more) flags) fn ln) cfg res ->
    l_exit res = Returned (-1)
    /\ d_argv (l_data res) = a
    /\ l_trace res
       = map (fun c => EvGetopt (chr c)) flags
         ++ [ EvGetopt (chr "?");
              EvStderr ("Invalid argument: "
                        ++ arg a (if (more =? "")%string then i else i - 1) ++ nl) ].
Proof.
  intros Hi Hx. induction flags as [|c flags IH]; intros oa fn ln cfg res Hf Hrun.
  - cbn [fold_right map app] in *.
    assert (Eg : getopt_long ord short_opts options (mk_data a i oa (String x more) fn ln)
                 = (chr "?",
                    if (more =? "")%string then mk_data a (S i) None "" fn ln
                    else mk_data a i None more fn ln)).
    { rewrite getopt_in_cluster by lia. rewrite short_option_cases. cbv zeta.
      destruct Hx as [Hx|(Hx & -> & Hlast)]; rewrite Hx; fields.
      - destruct more; reflexivity.
      - cbn [String.eqb negb]. fields.
        assert (Hend : S i = length a).
        { destruct (Nat.lt_ge_cases (S i) (length a)) as [Hlt|]; [|lia].
          rewrite (skipn_cons_arg a (S i) Hlt) in Hlast. discriminate. }
        now rewrite Hend, Nat.eqb_refl. }
    destruct (loop_run_step _ _ _ _ _ _ _ Eg Hrun)
      as [[H _] | [(_ & rc & cfg' & out & Es & ->) | (_ & cfg' & res' & Es & _)]];
      [discriminate H| |rewrite switch_unknown in Es; discriminate Es].
    rewrite switch_unknown in Es. injection Es as <- <- <-.
    cbn [l_exit l_data l_trace].
    destruct (more =? "")%string; cbn [d_argv optind];
      rewrite ?Nat.sub_succ, ?Nat.sub_0_r; repeat apply conj; reflexivity.
  - inversion Hf as [|? ? Hc Hf']; subst.
    destruct (plain_flag_arity c Hc) as (Ha & Hn1 & Hic).
    cbn [fold_right map app] in *.
    set (rest := fold_right String (String x more) flags) in *.
    assert (Hrest : (rest =? "")%string = false) by (unfold rest; now destruct flags).
    assert (Eg : getopt_long ord short_opts options (mk_data a i oa (String c rest) fn ln)
                 = (chr c, mk_data a i None rest fn ln)).
    { rewrite getopt_in_cluster by lia. rewrite short_option_cases. cbv zeta.
      rewrite Ha. fields. now rewrite Hrest, Hic. }
    destruct (switch_plain_flag X c (mk_data a i None rest fn ln) cfg Hc) as [cfg1 Hs].
    destruct (loop_run_step _ _ _ _ _ _ _ Eg Hrun)
      as [[H _] | [(_ & rc & cfg' & out & Es & ->) | (_ & cfg' & res' & Es & Hrun' & ->)]];
      [contradiction|congruence|].
    destruct (IH _ _ _ _ _ Hf' Hrun') as (I1 & I2 & I3).
    cbn [emit l_exit l_data l_trace app]. rewrite I3. repeat apply conj; auto.
Qed.

Lemma last_cons_default (x : string) : forall (l : list string) (d1 d2 : string),
  last (x :: l) d1 = last (x :: l) d2.
Proof.
  intros l. revert x. induction l as [|y l IH]; intros x d1 d2; [reflexivity|].
  change (last (y :: l) d1 = last (y :: l) d2). apply IH.
Qed.

Lemma nth_behind_prefix (prog : string) : forall (pre B : list string),
  nth (length pre) (prog :: pre ++ B) "" = last pre prog.
Proof.
  intros pre. revert prog. induction pre as [|p ps IH]; intros prog B; [reflexivity|].
  change (nth (length ps) (p :: ps ++ B) "" = last (p :: ps) prog).
  rewrite (IH p B). destruct ps as [|s ps]; [reflexivity|].
  change (last (s :: ps) p = last (s :: ps) prog). apply last_cons_default.
Qed.

Lemma nth_at_prefix (prog t : string) (pre rest : list string) :
  nth (S (length pre)) (prog :: pre ++ t :: rest) "" = t.
Proof. cbn [nth]. now rewrite nth_middle. Qed.

(** The scan of a command line up to the token behind a prefix of
    options that are all accepted. *)
Lemma scan_to_token X posix prog (pre : list string) t (rest : list string) cfg cfg1 codes res :
  options_only pre = true ->
  run_events X (events (ordering_of posix) false pre) cfg = (Finished, cfg1, codes) ->
  loop_run X (ordering_of posix) (getopt_init (prog :: pre ++ t :: rest)) cfg res ->
  exists oa f res1,
    f <= S (length pre)
    /\ loop_run X (ordering_of posix)
         (mk_data (prog :: pre ++ t :: rest) (S (length pre)) oa "" f f) cfg1 res1
    /\ res = emit (map EvGetopt codes) res1.
Proof.
  intros Hpre Hev Hrun.
  destruct (prefix_through X (ordering_of posix) (prog :: pre ++ t :: rest) (t :: rest)
              pre false 1 None 1 cfg res cfg1 codes Hpre eq_refl (le_n 1) Hev Hrun)
    as (oa & f & res1 & H1 & H2 & H3).
  exists oa, f, res1. auto.
Qed.

Lemma skipn_behind_token (prog t : string) (pre rest : list string) :
  skipn (S (S (length pre))) (prog :: pre ++ t :: rest) = rest.
Proof.
  change (skipn (S (length pre)) (pre ++ t :: rest) = rest).
  induction pre as [|p ps IH]; [reflexivity|exact IH].
Qed.

Lemma length_command_line (prog t : string) (pre rest : list string) :
  S (length pre) < length (prog :: pre ++ t :: rest).
Proof. cbn [length]. rewrite length_app. cbn [length]. lia. Qed.

(** ** One option on the command line *)

Lemma one_value_option X posix prog cfg o n v
    (setter : config_t -> option string -> bool * config_t) :
  In o options -> name o = Some n -> has_arg o = required_argument ->
  (forall d, switch X (val o) d cfg = with_setter setter d cfg) ->
  outcome X posix [prog; long_form_with n v] cfg
  = Some (setter_outcome X (val o) (setter cfg (Some v))).
Proof.
  intros Hin Hn Ha Hs. rewrite outcome_tokens. f_equal.
  unfold tokens_outcome, events_outcome. cbn [tl].
  assert (He : events (ordering_of posix) false [long_form_with n v] = [(val o, Some v)]
               /\ operands (ordering_of posix) false [long_form_with n v] = []).
  { table_entry Hin Hn; try discriminate Ha; split; reflexivity. }
  destruct He as [-> ->]. cbn [run_events]. rewrite Hs.
  unfold with_setter, only_optarg, setter_outcome. cbn [optarg].
  destruct (setter cfg (Some v)) as [[] c']; reflexivity.
Qed.

Lemma one_flag X posix prog cfg o n cfg' :
  In o options -> name o = Some n -> has_arg o = no_argument ->
  (forall d, switch X (val o) d cfg = Break cfg') ->
  outcome X posix [prog; long_form n] cfg
  = Some (1%Z, check_config X cfg', [val o; (-1)%Z], []).
Proof.
  intros Hin Hn Ha Hs. rewrite outcome_tokens. f_equal.
  unfold tokens_outcome, events_outcome. cbn [tl].
  assert (He : events (ordering_of posix) false [long_form n] = [(val o, None)]
               /\ operands (ordering_of posix) false [long_form n] = []).
  { table_entry Hin Hn; try discriminate Ha; split; reflexivity. }
  destruct He as [-> ->]. cbn [run_events]. now rewrite Hs.
Qed.

(** ** The order of the options *)

(** The [switch] sees the events in order, up to the first whose [case]
    returns. *)
Lemma run_events_prefix X : forall evs cfg e c codes,
  run_events X evs cfg = (e, c, codes) ->
  match e with
  | Finished => codes = map fst evs
  | Returned _ => exists k, k < length evs /\ codes = firstn (S k) (map fst evs)
  end.
Proof.
  induction evs as [|[opt oa] evs IH]; intros cfg e c codes; cbn [run_events].
  - intros [= <- <- <-]. reflexivity.
  - destruct (switch X opt (only_optarg oa) cfg) as [cfg'|rc cfg' out].
    + destruct (run_events X evs cfg') as [[e' c'] codes'] eqn:Er.
      intros [= <- <- <-]. specialize (IH _ _ _ _ Er).
      destruct e' as [rc|].
      * destruct IH as (k & Hk & ->). exists (S k). split; [cbn [length]; lia|reflexivity].
      * subst codes'. reflexivity.
    + intros [= <- <- <-]. exists 0. split; [cbn [length]; lia|reflexivity].
Qed.

Lemma count_getopt_codes (tr : list event) :
  count is_getopt tr = length (getopt_codes tr).
Proof.
  unfold count, getopt_codes. induction tr as [|ev tr IH]; [reflexivity|].
  destruct ev; cbn [filter is_getopt flat_map app length]; congruence.
Qed.

(** ** Properties of the scan *)

(** X1. Whatever the command line and however the scan ends, [argv] on
    return holds the elements it held on entry, reordered at most, with
    the program name still in front; when POSIXLY_CORRECT is set it is
    unchanged. *)
Theorem X1_argv_only_reordered (X : externals) (posixly_correct : bool)
    (argv : list string) (cfg : config_t) (r : parse_result) :
  parse_cmdline X posixly_correct argv cfg = Some r ->
  Permutation (p_argv r) argv
  /\ arg (p_argv r) 0 = arg argv 0
  /\ (posixly_correct = true -> p_argv r = argv).
Proof.
  intros Hr.
  destruct (parse_cmdline_run _ _ _ _ _ Hr) as (res & Hrun & Hres).
  destruct (loop_run_init _ _ _ _ _ Hrun) as (Hp & Hz & Hro & _).
  assert (Ha : p_argv r = d_argv (l_data res)) by (destruct (l_exit res); now subst r).
  rewrite Ha. repeat apply conj; auto.
  intros ->. now apply Hro.
Qed.

(** X1 on [swayimg a.png -f], which the scan leaves as
    [swayimg -f a.png]. *)
Lemma X1_argv_only_reordered_witness :
  parse_cmdline Sample.X false Examples.option_behind_file Sample.default_config
  = Some (Examples.run false Examples.option_behind_file)
  /\ p_argv (Examples.run false Examples.option_behind_file) = ["swayimg"; "-f"; "a.png"]
  /\ Permutation (p_argv (Examples.run false Examples.option_behind_file))
                 Examples.option_behind_file.
Proof.
  assert (E : parse_cmdline Sample.X false Examples.option_behind_file
                Sample.default_config
              = Some (Examples.run false Examples.option_behind_file))
    by (vm_compute; reflexivity).
  split; [exact E|]. split; [vm_compute; reflexivity|].
  exact (proj1 (X1_argv_only_reordered Sample.X false Examples.option_behind_file
                  Sample.default_config _ E)).
Defined.

(** X2. The only diagnostic the scan writes is the "Invalid argument"
    line, it comes with the return value -1, and the element it reads,
    [argv[optind - 1]], lies inside [argv]: the text names one of the
    elements of the command line. *)
Theorem X2_diagnostic_names_an_argument (X : externals) (posixly_correct : bool)
    (argv : list string) (cfg : config_t) (r : parse_result) (msg : string) :
  parse_cmdline X posixly_correct argv cfg = Some r ->
  In (EvStderr msg) (p_trace r) ->
  p_ret r = (-1)%Z
  /\ exists tok, In tok argv /\ msg = ("Invalid argument: " ++ tok ++ nl)%string.
Proof.
  intros Hr Hin.
  destruct (parse_cmdline_run _ _ _ _ _ Hr) as (res & Hrun & Hres).
  destruct (loop_run_init _ _ _ _ _ Hrun) as (Hp & _ & _ & Hind).
  destruct (loop_run_trace _ _ _ _ _ Hrun) as (codes & last & out & Ht & _ & Hl).
  assert (Hcodes : ~ In (EvStderr msg) (map EvGetopt codes)).
  { intros H. apply in_getopts in H as (o & [=] & _). }
  destruct (l_exit res) as [rc|] eqn:Hex.
  - subst r. cbn [p_trace p_ret] in *. rewrite Ht in Hin.
    apply in_app_or in Hin as [Hin|[Hin|Hin]]; [contradiction|discriminate|].
    destruct Hl as (_ & cfg0 & Hs).
    apply switch_return in Hs
      as [(_ & _ & [[_ ->]|[_ ->]]) | [(_ & -> & _) | (-> & _ & -> & _)]];
      simpl in Hin; unfold puts in Hin;
      repeat (destruct Hin as [Hin|Hin]; [try discriminate|]); try contradiction.
    injection Hin as <-. split; [reflexivity|].
    eexists. split; [|reflexivity].
    apply (Permutation_in _ Hp). apply nth_In.
    assert (Hne : Returned (-1) <> Finished) by discriminate.
    specialize (Hind Hne). lia.
  - subst r. cbn [p_trace] in Hin. rewrite Ht in Hin. destruct Hl as [_ ->].
    rewrite <- app_assoc in Hin.
    apply in_app_or in Hin as [Hin|Hin]; [contradiction|].
    simpl in Hin. repeat (destruct Hin as [Hin|Hin]; [discriminate|]). contradiction.
Qed.

(** X2 on [swayimg -i --bogus a.png]. *)
Lemma X2_diagnostic_names_an_argument_witness :
  parse_cmdline Sample.X false ["swayimg"; "-i"; "--bogus"; "a.png"] Sample.default_config
  = Some (Examples.run false ["swayimg"; "-i"; "--bogus"; "a.png"])
  /\ In (EvStderr ("Invalid argument: --bogus" ++ nl))
        (p_trace (Examples.run false ["swayimg"; "-i"; "--bogus"; "a.png"]))
  /\ p_ret (Examples.run false ["swayimg"; "-i"; "--bogus"; "a.png"]) = (-1)%Z.
Proof.
  assert (E : parse_cmdline Sample.X false ["swayimg"; "-i"; "--bogus"; "a.png"]
                Sample.default_config
              = Some (Examples.run false ["swayimg"; "-i"; "--bogus"; "a.png"]))
    by (vm_compute; reflexivity).
  assert (I : In (EvStderr ("Invalid argument: --bogus" ++ nl))
                 (p_trace (Examples.run false ["swayimg"; "-i"; "--bogus"; "a.png"])))
    by (vm_compute; tauto).
  split; [exact E|]. split; [exact I|].
  exact (proj1 (X2_diagnostic_names_an_argument Sample.X false _ Sample.default_config
                  _ _ E I)).
Defined.

(** X3. A scan comes to what the tokens of the command line say: the
    sign of the value returned, the configuration, the values getopt_long
    gave and the files left to [main] are those of the [switch] run over
    the options the tokens spell ([events]), with the positional tokens
    ([operands]) as files.  The loop around getopt_long, the permutation
    of [argv] included, adds and loses nothing. *)
Theorem X3_scan_by_tokens (X : externals) (posixly_correct : bool)
    (argv : list string) (cfg : config_t) (r : parse_result) :
  parse_cmdline X posixly_correct argv cfg = Some r ->
  scan_outcome r = tokens_outcome X posixly_correct argv cfg.
Proof. apply parse_cmdline_outcome. Qed.

(** X3 on [swayimg -s fit -fb 00ff00 a.png zz.png]. *)
Lemma X3_scan_by_tokens_witness :
  parse_cmdline Sample.X false Examples.scale_then_files Sample.default_config
  = Some (Examples.run false Examples.scale_then_files)
  /\ events PERMUTE false (tl Examples.scale_then_files)
     = [ (chr "s", Some "fit"); (chr "f", None); (chr "b", Some "00ff00") ]
  /\ scan_outcome (Examples.run false Examples.scale_then_files)
     = tokens_outcome Sample.X false Examples.scale_then_files Sample.default_config.
Proof.
  assert (E : parse_cmdline Sample.X false Examples.scale_then_files
                Sample.default_config
              = Some (Examples.run false Examples.scale_then_files))
    by (vm_compute; reflexivity).
  split; [exact E|]. split; [vm_compute; reflexivity|].
  exact (X3_scan_by_tokens Sample.X false Examples.scale_then_files
           Sample.default_config _ E).
Defined.

(** ** Spellings of the command line *)

(** X4. Every option of the table may be given by its long name or by
    its short character: [--name] and [-c] lead to the same outcome,
    wherever the scan gets to them (in the default order also behind
    files) and whatever follows (for an option that requires an
    argument, the next token is its value in both). *)
Theorem X4_long_and_short_form (X : externals) (posixly_correct : bool)
    (prog : string) (pre rest : list string) (cfg : config_t)
    (o : struct_option) (n : string) :
  In o options -> name o = Some n ->
  scans_through (ordering_of posixly_correct) false pre = true ->
  outcome X posixly_correct (prog :: pre ++ long_form n :: rest) cfg
  = outcome X posixly_correct (prog :: pre ++ short_form o "" :: rest) cfg.
Proof.
  intros Hin Hn Hpre. apply outcome_behind; [exact Hpre|].
  now apply long_short_tokens.
Qed.

(** X4 on [swayimg a.png -s fit --no-sway b.png] and
    [swayimg a.png -s fit -n b.png]. *)
Lemma X4_long_and_short_form_witness :
  In (mk_option (Some "no-sway") no_argument (chr "n")) options
  /\ scans_through (ordering_of false) false ["a.png"; "-s"; "fit"] = true
  /\ outcome Sample.X false
       ("swayimg" :: ["a.png"; "-s"; "fit"] ++ long_form "no-sway" :: ["b.png"])
       Sample.default_config
     = outcome Sample.X false
         ("swayimg" :: ["a.png"; "-s"; "fit"]
          ++ short_form (mk_option (Some "no-sway") no_argument (chr "n")) "" :: ["b.png"])
         Sample.default_config.
Proof.
  assert (I : In (mk_option (Some "no-sway") no_argument (chr "n")) options)
    by (simpl; tauto).
  assert (P : scans_through (ordering_of false) false ["a.png"; "-s"; "fit"] = true)
    by (vm_compute; reflexivity).
  split; [exact I|]. split; [exact P|].
  exact (X4_long_and_short_form Sample.X false "swayimg" ["a.png"; "-s"; "fit"] ["b.png"]
           Sample.default_config _ "no-sway" I eq_refl P).
Defined.

(** X5. The value of an option that requires one may be attached or
    given in the next token: [--name=value] and [--name value] lead to
    the same outcome, and so does [-cvalue] unless the value is empty. *)
Theorem X5_value_option_spellings (X : externals) (posixly_correct : bool)
    (prog : string) (pre rest : list string) (cfg : config_t)
    (o : struct_option) (n v : string) :
  In o options -> name o = Some n -> has_arg o = required_argument ->
  scans_through (ordering_of posixly_correct) false pre = true ->
  outcome X posixly_correct (prog :: pre ++ long_form_with n v :: rest) cfg
  = outcome X posixly_correct (prog :: pre ++ long_form n :: v :: rest) cfg
  /\ (v <> "" ->
      outcome X posixly_correct (prog :: pre ++ short_form o v :: rest) cfg
      = outcome X posixly_correct (prog :: pre ++ long_form n :: v :: rest) cfg).
Proof.
  intros Hin Hn Ha Hpre.
  destruct (value_tokens (ordering_of posixly_correct) o n v rest Hin Hn Ha) as [H1 H2].
  split; [|intros Hv]; apply outcome_behind; auto.
Qed.

(** X5 on [swayimg -f --scale=fit a.png], [swayimg -f --scale fit a.png]
    and [swayimg -f -sfit a.png]. *)
Lemma X5_value_option_spellings_witness :
  In (mk_option (Some "scale") required_argument (chr "s")) options
  /\ scans_through (ordering_of false) false ["-f"] = true
  /\ "fit" <> ""
  /\ outcome Sample.X false
       ("swayimg" :: ["-f"] ++ long_form_with "scale" "fit" :: ["a.png"])
       Sample.default_config
     = outcome Sample.X false
         ("swayimg" :: ["-f"] ++ long_form "scale" :: "fit" :: ["a.png"])
         Sample.default_config
  /\ outcome Sample.X false
       ("swayimg" :: ["-f"]
        ++ short_form (mk_option (Some "scale") required_argument (chr "s")) "fit"
        :: ["a.png"])
       Sample.default_config
     = outcome Sample.X false
         ("swayimg" :: ["-f"] ++ long_form "scale" :: "fit" :: ["a.png"])
         Sample.default_config.
Proof.
  assert (I : In (mk_option (Some "scale") required_argument (chr "s")) options)
    by (simpl; tauto).
  assert (P : scans_through (ordering_of false) false ["-f"] = true)
    by (vm_compute; reflexivity).
  assert (V : "fit" <> "") by discriminate.
  split; [exact I|]. split; [exact P|]. split; [exact V|].
  destruct (X5_value_option_spellings Sample.X false "swayimg" ["-f"] ["a.png"]
              Sample.default_config _ "scale" "fit" I eq_refl eq_refl P) as [H1 H2].
  split; [exact H1|exact (H2 V)].
Defined.

(** X6. No two long names of the table start alike, so every beginning of
    a long name, of one character or more, stands for it: [--nm] leads to
    the same outcome as [--name] for every non-empty prefix [nm]. *)
Theorem X6_long_name_abbreviated (X : externals) (posixly_correct : bool)
    (prog : string) (pre rest : list string) (cfg : config_t)
    (o : struct_option) (n nm : string) :
  In o options -> name o = Some n ->
  nm <> "" -> prefix nm n = true ->
  scans_through (ordering_of posixly_correct) false pre = true ->
  outcome X posixly_correct (prog :: pre ++ long_form nm :: rest) cfg
  = outcome X posixly_correct (prog :: pre ++ long_form n :: rest) cfg.
Proof.
  intros Hin Hn Hne Hp Hpre. apply outcome_behind; [exact Hpre|].
  now apply (abbreviation_tokens _ o).
Qed.

(** X6 on [swayimg --geo 0,0,10,10 a.png]. *)
Lemma X6_long_name_abbreviated_witness :
  In (mk_option (Some "geometry") required_argument (chr "g")) options
  /\ "geo" <> ""
  /\ prefix "geo" "geometry" = true
  /\ scans_through (ordering_of false) false [] = true
  /\ outcome Sample.X false
       ("swayimg" :: [] ++ long_form "geo" :: ["0,0,10,10"; "a.png"])
       Sample.default_config
     = outcome Sample.X false
         ("swayimg" :: [] ++ long_form "geometry" :: ["0,0,10,10"; "a.png"])
         Sample.default_config.
Proof.
  assert (I : In (mk_option (Some "geometry") required_argument (chr "g")) options)
    by (simpl; tauto).
  assert (V : "geo" <> "") by discriminate.
  assert (Q : prefix "geo" "geometry" = true) by (vm_compute; reflexivity).
  assert (P : scans_through (ordering_of false) false [] = true) by reflexivity.
  split; [exact I|]. split; [exact V|]. split; [exact Q|]. split; [exact P|].
  exact (X6_long_name_abbreviated Sample.X false "swayimg" [] ["0,0,10,10"; "a.png"]
           Sample.default_config _ "geometry" "geo" I eq_refl V Q P).
Defined.

(** X7. A flag may share its token with the short options behind it:
    [-fXYZ] leads to the same outcome as [-f -XYZ], for every flag of
    the table and every run of characters that does not start with a
    dash. *)
Theorem X7_cluster_of_flags (X : externals) (posixly_correct : bool)
    (prog : string) (pre rest : list string) (cfg : config_t)
    (o : struct_option) (n : string) (c : ascii) (behind : string) :
  In o options -> name o = Some n -> has_arg o = no_argument ->
  c <> "-"%char ->
  scans_through (ordering_of posixly_correct) false pre = true ->
  outcome X posixly_correct (prog :: pre ++ short_form o (String c behind) :: rest) cfg
  = outcome X posixly_correct
      (prog :: pre ++ short_form o "" :: String "-" (String c behind) :: rest) cfg.
Proof.
  intros Hin Hn Ha Hc Hpre. apply outcome_behind; [exact Hpre|].
  now apply (cluster_tokens _ o n).
Qed.

(** X7 on [swayimg -fis fit a.png] and [swayimg -f -is fit a.png]. *)
Lemma X7_cluster_of_flags_witness :
  In (mk_option (Some "fullscreen") no_argument (chr "f")) options
  /\ "i"%char <> "-"%char
  /\ scans_through (ordering_of true) false [] = true
  /\ outcome Sample.X true
       ("swayimg" :: []
        ++ short_form (mk_option (Some "fullscreen") no_argument (chr "f")) (String "i" "s")
        :: ["fit"; "a.png"])
       Sample.default_config
     = outcome Sample.X true
         ("swayimg" :: []
          ++ short_form (mk_option (Some "fullscreen") no_argument (chr "f")) ""
          :: String "-" (String "i" "s") :: ["fit"; "a.png"])
         Sample.default_config.
Proof.
  assert (I : In (mk_option (Some "fullscreen") no_argument (chr "f")) options)
    by (simpl; tauto).
  assert (V : "i"%char <> "-"%char) by discriminate.
  assert (P : scans_through (ordering_of true) false [] = true) by reflexivity.
  split; [exact I|]. split; [exact V|]. split; [exact P|].
  exact (X7_cluster_of_flags Sample.X true "swayimg" [] ["fit"; "a.png"]
           Sample.default_config _ "fullscreen" "i"%char "s" I eq_refl eq_refl V P).
Defined.

(** ** Options and files *)

(** X8. ["--"] ends the options: where the scan gets to it, what follows
    it is left to [main] as files, token for token, even where it looks
    like an option, behind the files the scan has stepped over;
    configuration and return value are those of the options before it. *)
Theorem X8_double_dash_ends_options (X : externals) (posixly_correct : bool)
    (prog : string) (pre rest : list string) (cfg : config_t) :
  scans_through (ordering_of posixly_correct) false pre = true ->
  outcome X posixly_correct (prog :: pre ++ "--" :: rest) cfg
  = option_map
      (with_files (operands (ordering_of posixly_correct) false pre ++ rest))
      (outcome X posixly_correct (prog :: pre) cfg).
Proof.
  intros Hpre.
  now rewrite (outcome_files_behind X posixly_correct prog pre ("--" :: rest) cfg Hpre).
Qed.

(** X8 on [swayimg b.png -i -- -f a.png]: the files are [b.png], [-f]
    and [a.png], and [-f] is not applied. *)
Lemma X8_double_dash_ends_options_witness :
  scans_through (ordering_of false) false ["b.png"; "-i"] = true
  /\ outcome Sample.X false ("swayimg" :: ["b.png"; "-i"] ++ "--" :: ["-f"; "a.png"])
       Sample.default_config
     = option_map
         (with_files (operands (ordering_of false) false ["b.png"; "-i"]
                      ++ ["-f"; "a.png"]))
         (outcome Sample.X false ("swayimg" :: ["b.png"; "-i"]) Sample.default_config)
  /\ option_map (fun o => (fullscreen (snd (fst (fst o))), snd o))
       (outcome Sample.X false ("swayimg" :: ["b.png"; "-i"] ++ "--" :: ["-f"; "a.png"])
          Sample.default_config)
     = Some (false, ["b.png"; "-f"; "a.png"]).
Proof.
  assert (P : scans_through (ordering_of false) false ["b.png"; "-i"] = true)
    by (vm_compute; reflexivity).
  split; [exact P|]. split.
  - exact (X8_double_dash_ends_options Sample.X false "swayimg" ["b.png"; "-i"]
             ["-f"; "a.png"] Sample.default_config P).
  - vm_compute. reflexivity.
Defined.

(** X9. Files behind the options are left to [main] as they stand; and
    in the default order it makes no difference whether the files come
    before the options or behind them. *)
Theorem X9_files_before_or_after_options (X : externals) (posixly_correct : bool)
    (prog : string) (opts files : list string) (cfg : config_t) :
  options_only opts = true ->
  Forall (fun s => NONOPTION_P s = true) files ->
  outcome X posixly_correct (prog :: opts ++ files) cfg
  = option_map (with_files files) (outcome X posixly_correct (prog :: opts) cfg)
  /\ outcome X false (prog :: files ++ opts) cfg
     = outcome X false (prog :: opts ++ files) cfg.
Proof.
  intros Hopts Hfiles. split.
  - destruct (options_only_scan (ordering_of posixly_correct) _ _ Hopts) as [Hs Ho].
    destruct (files_tokens (ordering_of posixly_correct) files Hfiles) as [He Hf].
    now rewrite (outcome_files_behind X posixly_correct prog opts files cfg Hs He), Ho, Hf.
  - destruct (options_only_scan PERMUTE _ _ Hopts) as [Hs Ho].
    rewrite !outcome_tokens. f_equal. unfold tokens_outcome. cbn [tl ordering_of].
    destruct (files_tokens PERMUTE files Hfiles) as [He Hf].
    rewrite (events_permute_nonopts _ _ Hfiles), (operands_permute_nonopts _ _ Hfiles).
    rewrite (events_app _ _ _ _ Hs), (operands_app _ _ _ _ Hs), He, Hf, Ho.
    now rewrite !app_nil_r.
Qed.

(** X9 on [swayimg a.png b.png -f -s fit] and
    [swayimg -f -s fit a.png b.png]. *)
Lemma X9_files_before_or_after_options_witness :
  options_only ["-f"; "-s"; "fit"] = true
  /\ Forall (fun s => NONOPTION_P s = true) ["a.png"; "b.png"]
  /\ outcome Sample.X false ("swayimg" :: ["a.png"; "b.png"] ++ ["-f"; "-s"; "fit"])
       Sample.default_config
     = outcome Sample.X false ("swayimg" :: ["-f"; "-s"; "fit"] ++ ["a.png"; "b.png"])
         Sample.default_config.
Proof.
  assert (P : options_only ["-f"; "-s"; "fit"] = true) by (vm_compute; reflexivity).
  assert (F : Forall (fun s => NONOPTION_P s = true) ["a.png"; "b.png"])
    by (repeat constructor).
  split; [exact P|]. split; [exact F|].
  exact (proj2 (X9_files_before_or_after_options Sample.X false "swayimg"
                  ["-f"; "-s"; "fit"] ["a.png"; "b.png"] Sample.default_config P F)).
Defined.

(** X10. With POSIXLY_CORRECT set the scan stops at the first file:
    everything from it on is left to [main], options included, and none
    of them is applied. *)
Theorem X10_posix_stops_at_first_file (X : externals)
    (prog : string) (opts : list string) (file : string) (rest : list string)
    (cfg : config_t) :
  options_only opts = true ->
  NONOPTION_P file = true ->
  outcome X true (prog :: opts ++ file :: rest) cfg
  = option_map (with_files (file :: rest)) (outcome X true (prog :: opts) cfg).
Proof.
  intros Hopts Hfile.
  destruct (nonoption_events file Hfile) as [Hd Hc].
  destruct (options_only_scan REQUIRE_ORDER _ _ Hopts) as [Hs Ho].
  rewrite (outcome_files_behind X true prog opts (file :: rest) cfg Hs).
  - cbn [ordering_of operands]. now rewrite Hfile, Ho.
  - cbn [ordering_of events]. now rewrite Hd, Hc.
Qed.

(** X10 on [swayimg -i a.png -f]. *)
Lemma X10_posix_stops_at_first_file_witness :
  options_only ["-i"] = true
  /\ NONOPTION_P "a.png" = true
  /\ outcome Sample.X true ("swayimg" :: ["-i"] ++ "a.png" :: ["-f"]) Sample.default_config
     = option_map (with_files ("a.png" :: ["-f"]))
         (outcome Sample.X true ("swayimg" :: ["-i"]) Sample.default_config).
Proof.
  assert (P : options_only ["-i"] = true) by (vm_compute; reflexivity).
  assert (F : NONOPTION_P "a.png" = true) by reflexivity.
  split; [exact P|]. split; [exact F|].
  exact (X10_posix_stops_at_first_file Sample.X "swayimg" ["-i"] "a.png" ["-f"]
           Sample.default_config P F).
Defined.

(** X11. POSIXLY_CORRECT changes the outcome only when something that
    looks like an option stands behind the first file: if all that the
    POSIX order leaves as files are plain file names (or a lone ["-"]),
    both orders come to the same outcome. *)
Theorem X11_posix_and_default_agree (X : externals) (argv : list string)
    (cfg : config_t) :
  Forall (fun s => NONOPTION_P s = true) (operands REQUIRE_ORDER false (tl argv)) ->
  outcome X true argv cfg = outcome X false argv cfg.
Proof.
  intros H. rewrite !outcome_tokens. f_equal. unfold tokens_outcome. cbn [ordering_of].
  now destruct (posix_permute_tokens _ _ H) as [-> ->].
Qed.

(** X11 on [swayimg -s fit -fb 00ff00 a.png zz.png]. *)
Lemma X11_posix_and_default_agree_witness :
  Forall (fun s => NONOPTION_P s = true)
         (operands REQUIRE_ORDER false (tl Examples.scale_then_files))
  /\ outcome Sample.X true Examples.scale_then_files Sample.default_config
     = outcome Sample.X false Examples.scale_then_files Sample.default_config.
Proof.
  assert (F : Forall (fun s => NONOPTION_P s = true)
                     (operands REQUIRE_ORDER false (tl Examples.scale_then_files)))
    by (vm_compute; repeat constructor).
  split; [exact F|].
  exact (X11_posix_and_default_agree Sample.X Examples.scale_then_files
           Sample.default_config F).
Defined.

(** ** Runs of the program *)

(** X12. [main] goes by the outcome of the scan alone: two command lines
    whose scans come to the same outcome, from the configuration
    [init_config] gives, end with the same exit code after the same
    texts on the standard output and the same calls of the configuration
    check, the file enumeration and the viewer. *)
Theorem X12_main_by_scan_outcome (X : externals) (posix1 posix2 : bool)
    (argv1 argv2 : list string) :
  argv1 <> [] -> argv2 <> [] ->
  (forall cfg, init_config X = Some cfg ->
     outcome X posix1 argv1 cfg = outcome X posix2 argv2 cfg) ->
  main_outcome X posix1 argv1 = main_outcome X posix2 argv2.
Proof.
  intros Hne1 Hne2 Hsame.
  destruct (init_config X) as [cfg|] eqn:Hinit.
  - specialize (Hsame cfg eq_refl). unfold outcome in Hsame.
    destruct (parse_cmdline_total X posix1 argv1 cfg) as [r1 H1].
    destruct (parse_cmdline_total X posix2 argv2 cfg) as [r2 H2].
    rewrite H1, H2 in Hsame. cbn [option_map] in Hsame.
    assert (Hs : scan_outcome r1 = scan_outcome r2) by congruence.
    rewrite (main_outcome_by_scan X posix1 argv1 cfg r1 Hne1 Hinit H1).
    rewrite (main_outcome_by_scan X posix2 argv2 cfg r2 Hne2 Hinit H2).
    now rewrite Hs.
  - unfold main_outcome, main. now rewrite Hinit.
Qed.

(** X12 on [swayimg a.png --fullscreen] and, with POSIXLY_CORRECT set,
    [swayimg -f a.png]. *)
Lemma X12_main_by_scan_outcome_witness :
  ["swayimg"; "a.png"; "--fullscreen"] <> []
  /\ ["swayimg"; "-f"; "a.png"] <> []
  /\ main_outcome Sample.X false ["swayimg"; "a.png"; "--fullscreen"]
     = main_outcome Sample.X true ["swayimg"; "-f"; "a.png"].
Proof.
  assert (N1 : ["swayimg"; "a.png"; "--fullscreen"] <> []) by discriminate.
  assert (N2 : ["swayimg"; "-f"; "a.png"] <> []) by discriminate.
  assert (S : forall cfg, init_config Sample.X = Some cfg ->
                outcome Sample.X false ["swayimg"; "a.png"; "--fullscreen"] cfg
                = outcome Sample.X true ["swayimg"; "-f"; "a.png"] cfg)
    by (intros cfg H; injection H as <-; vm_compute; reflexivity).
  split; [exact N1|]. split; [exact N2|].
  exact (X12_main_by_scan_outcome Sample.X false true _ _ N1 N2 S).
Defined.

(** X13. A run that starts the viewer has the shape: the calls of
    getopt_long up to the one that returns -1, the configuration check,
    at most one file enumeration, which is recursive and gave the files,
    and then the viewer, once and last, with the configuration that
    [check_config] returned; the exit code is the viewer's result.
    Nothing is written before the viewer starts. *)
Theorem X13_viewer_started_last (X : externals) (posixly_correct : bool)
    (argv : list string) (rc : Z) (tr : list event)
    (cfg : config_t) (files : option file_list_t) :
  argv <> [] ->
  main X posixly_correct argv = Some (rc, tr) ->
  In (EvRunViewer cfg files) tr ->
  exists codes c0 enum,
    tr = map EvGetopt codes ++ EvGetopt (-1) :: EvCheckConfig :: enum
         ++ [EvRunViewer cfg files]
    /\ cfg = check_config X c0
    /\ rc = (if run_viewer X cfg files then EXIT_SUCCESS else EXIT_FAILURE)
    /\ match files with
       | None => enum = []
       | Some fs =>
           exists paths, enum = [EvInitFileList paths true]
                         /\ init_file_list X paths true = Some fs
       end.
Proof.
  intros Hne Hm Hin.
  destruct (main_shape X posixly_correct argv Hne) as [[_ H]|(cfg0 & r & Hi & Hr & Hcases)].
  { rewrite Hm in H. injection H as -> ->. contradiction. }
  pose proof (parse_trace_events _ _ _ _ _ Hr) as Hnone.
  rewrite Forall_forall in Hnone.
  assert (Hnot : ~ In (EvRunViewer cfg files) (p_trace r)).
  { intros H. now destruct (Hnone _ H). }
  destruct Hcases as [[_ H] | [[_ H] | [Hpos H]]]; rewrite Hm in H;
    injection H as -> ->; try contradiction.
  destruct (parse_continue_checked _ _ _ _ _ Hr Hpos) as [c0 Hc0].
  destruct (parse_cmdline_ret _ _ _ _ _ Hr) as (codes & last & out & _ & Hret).
  destruct Hret as [(H0 & _) | [(H0 & _) | (_ & Ht & _)]]; try lia.
  unfold after in *. cbn [fst snd] in *.
  apply in_app_or in Hin as [Hin|Hin]; [contradiction|].
  exists codes, c0.
  destruct (run_mode_shape X (p_cfg r)
              (mode_of (skipn (Z.to_nat (p_ret r)) (p_argv r))))
    as [(paths & msg & Hrm & _) | [(paths & fs & Hrm & Hfs) | Hrm]];
    rewrite Hrm in *; cbn [fst snd In] in *.
  - destruct Hin as [Hin|[Hin|[]]]; discriminate.
  - destruct Hin as [Hin|[Hin|[]]]; [discriminate|]. injection Hin as <- <-.
    exists [EvInitFileList paths true]. rewrite Ht, <- app_assoc.
    repeat apply conj; auto. eauto.
  - destruct Hin as [Hin|[]]. injection Hin as <- <-.
    exists []. rewrite Ht, <- app_assoc. repeat apply conj; auto.
Qed.

(** X13 on [swayimg -s fit -fb 00ff00 a.png zz.png]. *)
Lemma X13_viewer_started_last_witness :
  Examples.scale_then_files <> []
  /\ main Sample.X false Examples.scale_then_files
     = Some (fst (sample_main false Examples.scale_then_files),
             snd (sample_main false Examples.scale_then_files))
  /\ In (EvRunViewer (p_cfg (Examples.run false Examples.scale_then_files))
                     (Some ["a.png"]))
        (snd (sample_main false Examples.scale_then_files))
  /\ fst (sample_main false Examples.scale_then_files)
     = (if run_viewer Sample.X (p_cfg (Examples.run false Examples.scale_then_files))
                      (Some ["a.png"])
        then EXIT_SUCCESS else EXIT_FAILURE).
Proof.
  assert (N : Examples.scale_then_files <> []) by discriminate.
  assert (E : main Sample.X false Examples.scale_then_files
              = Some (fst (sample_main false Examples.scale_then_files),
                      snd (sample_main false Examples.scale_then_files)))
    by (vm_compute; reflexivity).
  assert (I : In (EvRunViewer (p_cfg (Examples.run false Examples.scale_then_files))
                              (Some ["a.png"]))
                 (snd (sample_main false Examples.scale_then_files)))
    by (vm_compute; tauto).
  split; [exact N|]. split; [exact E|]. split; [exact I|].
  destruct (X13_viewer_started_last Sample.X false Examples.scale_then_files _ _ _ _
              N E I) as (codes & c0 & enum & _ & _ & H & _).
  exact H.
Defined.

(** X14. What a run writes: the standard output carries the usage or
    the version text only, and then the run exits with 0 without the
    configuration check, the viewer or a diagnostic; a diagnostic on the
    standard error is the last thing a run does, the exit code is then 1
    and the viewer was not started. *)
Theorem X14_output_channels (X : externals) (posixly_correct : bool)
    (argv : list string) (rc : Z) (tr : list event) :
  argv <> [] ->
  main X posixly_correct argv = Some (rc, tr) ->
  (forall text, In (EvStdout text) tr ->
     rc = EXIT_SUCCESS
     /\ (applied "h" tr \/ applied "v" tr)
     /\ count is_check_config tr = 0
     /\ count is_run_viewer tr = 0
     /\ count is_stderr tr = 0)
  /\ (forall msg, In (EvStderr msg) tr ->
        rc = EXIT_FAILURE
        /\ count is_run_viewer tr = 0
        /\ exists pre, tr = pre ++ [EvStderr msg]).
Proof.
  intros Hne Hm.
  destruct (main_shape X posixly_correct argv Hne) as [[_ H]|(cfg0 & r & Hi & Hr & Hcases)].
  { rewrite Hm in H. injection H as -> ->. split; intros ? []. }
  destruct (parse_cmdline_ret _ _ _ _ _ Hr) as (codes & last & out & _ & Hret).
  assert (Hg1 : forall text, ~ In (EvStdout text) (map EvGetopt codes)).
  { intros text H. apply in_getopts in H as (o & [=] & _). }
  assert (Hg2 : forall msg, ~ In (EvStderr msg) (map EvGetopt codes)).
  { intros msg H. apply in_getopts in H as (o & [=] & _). }
  destruct Hcases as [[H0 H] | [[H0 H] | [Hpos H]]]; rewrite Hm in H;
    injection H as -> ->;
    destruct Hret as [(H0' & Ht & Hout) | [(H0' & Ht & Hout) | (H0' & Ht & _)]];
    try lia; unfold after; cbn [fst snd]; rewrite Ht.
  - (* the usage or version text *)
    split.
    + intros text _. split; [reflexivity|]. split.
      * unfold applied.
        destruct Hout as [[-> _]|[-> _]]; [right|left]; apply in_or_app; right; now left.
      * rewrite !count_app, !count_getopts by reflexivity.
        destruct Hout as [[_ ->]|[_ ->]]; repeat apply conj; reflexivity.
    + intros msg Hin. exfalso.
      apply in_app_or in Hin as [Hin|[Hin|Hin]]; [now apply Hg2 in Hin|discriminate|].
      destruct Hout as [[_ ->]|[_ ->]]; simpl in Hin; unfold puts in Hin;
        repeat (destruct Hin as [Hin|Hin]; [discriminate|]); contradiction.
  - (* a rejected value or an invalid argument *)
    split.
    + intros text Hin. exfalso.
      apply in_app_or in Hin as [Hin|[Hin|Hin]]; [now apply Hg1 in Hin|discriminate|].
      destruct Hout as [[-> _]|[[tok ->] _]]; simpl in Hin;
        repeat (destruct Hin as [Hin|Hin]; [discriminate|]); contradiction.
    + intros msg Hin.
      apply in_app_or in Hin as [Hin|[Hin|Hin]]; [now apply Hg2 in Hin|discriminate|].
      destruct Hout as [[-> _]|[[tok ->] _]]; [contradiction|].
      destruct Hin as [Hin|[]]. injection Hin as <-.
      split; [reflexivity|]. split.
      * rewrite !count_app, !count_getopts by reflexivity. reflexivity.
      * exists (map EvGetopt codes ++ [EvGetopt last]). now rewrite <- app_assoc.
  - (* the scan went through *)
    destruct (run_mode_shape X (p_cfg r)
                (mode_of (skipn (Z.to_nat (p_ret r)) (p_argv r))))
      as [(paths & msg0 & -> & _) | [(paths & fs & -> & Hfs) | ->]];
      cbn [fst snd]; split.
    + intros text Hin. exfalso.
      apply in_app_or in Hin as [Hin|Hin];
        [apply in_app_or in Hin as [Hin|Hin]; [now apply Hg1 in Hin|]|];
        simpl in Hin; repeat (destruct Hin as [Hin|Hin]; [discriminate|]); contradiction.
    + intros msg Hin.
      apply in_app_or in Hin as [Hin|Hin];
        [apply in_app_or in Hin as [Hin|Hin]; [now apply Hg2 in Hin|]|];
        simpl in Hin; repeat (destruct Hin as [Hin|Hin]; [try discriminate|]);
        try contradiction.
      injection Hin as <-. split; [reflexivity|]. split.
      * rewrite !count_app, !count_getopts by reflexivity. reflexivity.
      * exists ((map EvGetopt codes ++ [EvGetopt (-1); EvCheckConfig])
                ++ [EvInitFileList paths true]).
        now rewrite <- !app_assoc.
    + intros text Hin. exfalso.
      apply in_app_or in Hin as [Hin|Hin];
        [apply in_app_or in Hin as [Hin|Hin]; [now apply Hg1 in Hin|]|];
        simpl in Hin; repeat (destruct Hin as [Hin|Hin]; [discriminate|]); contradiction.
    + intros msg Hin. exfalso.
      apply in_app_or in Hin as [Hin|Hin];
        [apply in_app_or in Hin as [Hin|Hin]; [now apply Hg2 in Hin|]|];
        simpl in Hin; repeat (destruct Hin as [Hin|Hin]; [discriminate|]); contradiction.
    + intros text Hin. exfalso.
      apply in_app_or in Hin as [Hin|Hin];
        [apply in_app_or in Hin as [Hin|Hin]; [now apply Hg1 in Hin|]|];
        simpl in Hin; repeat (destruct Hin as [Hin|Hin]; [discriminate|]); contradiction.
    + intros msg Hin. exfalso.
      apply in_app_or in Hin as [Hin|Hin];
        [apply in_app_or in Hin as [Hin|Hin]; [now apply Hg2 in Hin|]|];
        simpl in Hin; repeat (destruct Hin as [Hin|Hin]; [discriminate|]); contradiction.
Qed.

(** X14 on [swayimg -i --help a.png --bogus]. *)
Lemma X14_output_channels_witness :
  Examples.help_in_the_middle <> []
  /\ main Sample.X false Examples.help_in_the_middle
     = Some (fst (sample_main false Examples.help_in_the_middle),
             snd (sample_main false Examples.help_in_the_middle))
  /\ In (puts "  -f, --fullscreen         Full screen mode")
        (snd (sample_main false Examples.help_in_the_middle))
  /\ fst (sample_main false Examples.help_in_the_middle) = EXIT_SUCCESS.
Proof.
  assert (N : Examples.help_in_the_middle <> []) by discriminate.
  assert (E : main Sample.X false Examples.help_in_the_middle
              = Some (fst (sample_main false Examples.help_in_the_middle),
                      snd (sample_main false Examples.help_in_the_middle)))
    by (vm_compute; reflexivity).
  assert (I : In (puts "  -f, --fullscreen         Full screen mode")
                 (snd (sample_main false Examples.help_in_the_middle)))
    by (vm_compute; tauto).
  split; [exact N|]. split; [exact E|]. split; [exact I|].
  exact (proj1 (proj1 (X14_output_channels Sample.X false Examples.help_in_the_middle
                         _ _ N E) _ I)).
Defined.

(** X15. The scan moves the two window flags one way only (the setters
    and [check_config] assumed to leave them alone): it never switches
    the Sway integration on and never leaves full screen mode, and once
    [-n] was applied the Sway integration is off at the end, whatever
    else the command line holds. *)
Theorem X15_flags_one_way (X : externals) (posixly_correct : bool)
    (argv : list string) (cfg : config_t) (r : parse_result) :
  setters_frame X ->
  parse_cmdline X posixly_correct argv cfg = Some r ->
  (sway_wm cfg = false -> sway_wm (p_cfg r) = false)
  /\ (fullscreen cfg = true -> fullscreen (p_cfg r) = true)
  /\ (applied "n" (p_trace r) -> sway_wm (p_cfg r) = false).
Proof.
  intros HF Hr.
  destruct (parse_cmdline_run _ _ _ _ _ Hr) as (res & Hrun & Hres).
  destruct (loop_run_flags X _ _ _ _ HF Hrun) as (_ & Hoff & Hfull & _).
  pose proof (loop_run_no_sway X _ _ _ _ HF Hrun) as Hn.
  destruct HF as [_ _ _ _ [Hc1 Hc2]].
  destruct (l_exit res); subst r; cbn [p_cfg p_trace].
  - auto.
  - repeat apply conj.
    + intros H. apply Hc1. auto.
    + intros H. rewrite Hc2. auto.
    + intros H. apply Hc1, Hn. unfold applied in *.
      apply in_app_or in H as [H|[H|[]]]; [exact H|discriminate].
Qed.

(** X15 on [swayimg -n a.png]. *)
Lemma X15_flags_one_way_witness :
  setters_frame Sample.X
  /\ parse_cmdline Sample.X false ["swayimg"; "-n"; "a.png"] Sample.default_config
     = Some (Examples.run false ["swayimg"; "-n"; "a.png"])
  /\ applied "n" (p_trace (Examples.run false ["swayimg"; "-n"; "a.png"]))
  /\ sway_wm (p_cfg (Examples.run false ["swayimg"; "-n"; "a.png"])) = false.
Proof.
  assert (E : parse_cmdline Sample.X false ["swayimg"; "-n"; "a.png"]
                Sample.default_config
              = Some (Examples.run false ["swayimg"; "-n"; "a.png"]))
    by (vm_compute; reflexivity).
  assert (A : applied "n" (p_trace (Examples.run false ["swayimg"; "-n"; "a.png"])))
    by (vm_compute; tauto).
  split; [exact sample_frame|]. split; [exact E|]. split; [exact A|].
  exact (proj2 (proj2 (X15_flags_one_way Sample.X false _ Sample.default_config _
                         sample_frame E)) A).
Defined.

(** X16. The usage text has a line for every option of the table, which
    starts with its short character and its long name, and no line
    besides these and the heading. *)
Theorem X16_help_lists_the_options (X : externals) :
  (forall o n, In o options -> name o = Some n ->
     exists line, In (puts line) (print_help X)
                  /\ prefix (usage_entry o n) line = true)
  /\ length (print_help X) = S (length (named_entries options)).
Proof.
  split; [apply print_help_entries|reflexivity].
Qed.

(** ** The diagnostic *)

(** X17. getopt_long hands the loop nothing but the short characters
    of the table's entries, ['?'] and -1, so the [default:] branch of the
    [switch], which writes the diagnostic, is taken when getopt_long
    returned ['?'] and never else. *)
Theorem X17_default_branch_only_for_unknown (X : externals) (posixly_correct : bool)
    (argv : list string) (cfg : config_t) (r : parse_result) :
  parse_cmdline X posixly_correct argv cfg = Some r ->
  (forall o, In (EvGetopt o) (p_trace r) ->
     o = (-1)%Z \/ o = chr "?" \/ In o table_codes)
  /\ ((exists msg, In (EvStderr msg) (p_trace r))
      <-> In (EvGetopt (chr "?")) (p_trace r)).
Proof.
  intros Hr. split.
  - intros o. exact (parse_cmdline_codes X posixly_correct argv cfg r o Hr).
  - exact (parse_cmdline_default X posixly_correct argv cfg r Hr).
Qed.

(** X17 on [swayimg -s] (the value is missing). *)
Lemma X17_default_branch_only_for_unknown_witness :
  parse_cmdline Sample.X false ["swayimg"; "-s"] Sample.default_config
  = Some (Examples.run false ["swayimg"; "-s"])
  /\ In (EvGetopt (chr "?")) (p_trace (Examples.run false ["swayimg"; "-s"]))
  /\ exists msg, In (EvStderr msg) (p_trace (Examples.run false ["swayimg"; "-s"])).
Proof.
  assert (E : parse_cmdline Sample.X false ["swayimg"; "-s"] Sample.default_config
              = Some (Examples.run false ["swayimg"; "-s"]))
    by (vm_compute; reflexivity).
  assert (I : In (EvGetopt (chr "?")) (p_trace (Examples.run false ["swayimg"; "-s"])))
    by (vm_compute; tauto).
  split; [exact E|]. split; [exact I|].
  exact (proj2 (proj2 (X17_default_branch_only_for_unknown Sample.X false _
                         Sample.default_config _ E)) I).
Defined.

(** X18. A character that is not accepted in a token of short options
    (the table does not have it, or it requires an argument and the
    command line ends with it), behind options that are all accepted and
    behind any number of the flags [f], [i], [n] in its token:
    getopt_long returns ['?'], the scan returns -1 and [argv] is as it
    was.  When the character is the last of its token the diagnostic
    names the token; when more characters follow, getopt_long has not yet
    stepped over the token, and [argv[optind - 1]] is the element before
    it: the last token of the options before, or the program name. *)
Theorem X18_diagnostic_in_cluster (X : externals) (posixly_correct : bool)
    (prog : string) (pre : list string) (flags : list ascii) (x : ascii)
    (more : string) (rest : list string) (cfg cfg1 : config_t) (codes : list Z) :
  options_only pre = true ->
  run_events X (events (ordering_of posixly_correct) false pre) cfg
  = (Finished, cfg1, codes) ->
  Forall (fun c => In c plain_flags) flags ->
  rejected_short x more rest -> x <> "-"%char ->
  exists cfg',
    parse_cmdline X posixly_correct
      (prog :: pre ++ cluster_token flags (String x more) :: rest) cfg
    = Some (mk_parse (-1)%Z cfg'
              (prog :: pre ++ cluster_token flags (String x more) :: rest)
              (map EvGetopt codes
               ++ map (fun c => EvGetopt (chr c)) flags
               ++ [ EvGetopt (chr "?");
                    EvStderr ("Invalid argument: "
                              ++ (if (more =? "")%string
                                  then cluster_token flags (String x more)
                                  else last pre prog)
                              ++ nl) ])).
Proof.
  intros Hpre Hev Hflags Hx Hdash.
  set (tok := cluster_token flags (String x more)).
  set (a := prog :: pre ++ tok :: rest).
  destruct (parse_cmdline_total X posixly_correct a cfg) as [r Hr].
  destruct (parse_cmdline_run _ _ _ _ _ Hr) as (res & Hrun & Hres).
  destruct (scan_to_token X posixly_correct prog pre tok rest cfg cfg1 codes res
              Hpre Hev Hrun) as (oa & f & res1 & Hf & Hrun1 & ->).
  fold a in Hrun1.
  assert (Hi : S (length pre) < length a) by apply length_command_line.
  assert (Hc : exists c r0, fold_right String (String x more) flags = String c r0
                            /\ c <> "-"%char).
  { destruct flags as [|c fl]; cbn [fold_right]; [eauto|].
    exists c, (fold_right String (String x more) fl). split; [reflexivity|].
    inversion Hflags as [|? ? Hc _]; subst. unfold plain_flags in Hc. cbn [In] in Hc.
    destruct Hc as [<-|[<-|[<-|[]]]]; discriminate. }
  destruct Hc as (c & r0 & Heq & Hc).
  assert (Ht : arg a (S (length pre)) = String "-" (String c r0)).
  { unfold a, arg. rewrite nth_at_prefix. unfold tok, cluster_token. now rewrite Heq. }
  apply (loop_run_same_call X _ _ _ cfg1 res1
           (getopt_clean_short _ a (S (length pre)) oa f c r0 Hf Hi Ht Hc)) in Hrun1.
  rewrite <- Heq in Hrun1.
  destruct (cluster_rejected X _ a (S (length pre)) x more Hi
              ltac:(unfold a; rewrite skipn_behind_token; exact Hx)
              _ _ _ _ _ _ Hflags Hrun1) as (Hex & Harg & Htr).
  cbn [emit l_exit l_cfg l_data l_trace] in Hres. rewrite Hex in Hres.
  exists (l_cfg res1). rewrite Hr, Hres, Harg, Htr. fold a. f_equal. f_equal.
  f_equal. f_equal. f_equal. f_equal. f_equal.
  destruct (more =? "")%string.
  - unfold a, arg. now rewrite nth_at_prefix.
  - rewrite Nat.sub_succ, Nat.sub_0_r. unfold a, arg. now rewrite nth_behind_prefix.
Qed.

(** X18 on [swayimg -s fit -fxi a.png], where the diagnostic names
    [fit]. *)
Lemma X18_diagnostic_in_cluster_witness :
  options_only ["-s"; "fit"] = true
  /\ run_events Sample.X (events (ordering_of false) false ["-s"; "fit"])
       Sample.default_config
     = (Finished, snd (Sample.set_scale Sample.default_config (Some "fit")), [chr "s"])
  /\ Forall (fun c => In c plain_flags) ["f"%char]
  /\ rejected_short "x" "i" ["a.png"]
  /\ "x"%char <> "-"%char
  /\ exists cfg',
       parse_cmdline Sample.X false
         ("swayimg" :: ["-s"; "fit"] ++ cluster_token ["f"%char] (String "x" "i")
          :: ["a.png"])
         Sample.default_config
       = Some (mk_parse (-1)%Z cfg'
                 ("swayimg" :: ["-s"; "fit"] ++ cluster_token ["f"%char] (String "x" "i")
                  :: ["a.png"])
                 (map EvGetopt [chr "s"]
                  ++ map (fun c => EvGetopt (chr c)) ["f"%char]
                  ++ [ EvGetopt (chr "?");
                       EvStderr ("Invalid argument: "
                                 ++ (if ("i" =? "")%string
                                     then cluster_token ["f"%char] (String "x" "i")
                                     else last ["-s"; "fit"] "swayimg")
                                 ++ nl) ])).
Proof.
  assert (P : options_only ["-s"; "fit"] = true) by (vm_compute; reflexivity).
  assert (R : run_events Sample.X (events (ordering_of false) false ["-s"; "fit"])
                Sample.default_config
              = (Finished, snd (Sample.set_scale Sample.default_config (Some "fit")),
                 [chr "s"]))
    by (vm_compute; reflexivity).
  assert (F : Forall (fun c => In c plain_flags) ["f"%char])
    by (repeat constructor).
  assert (A : rejected_short "x" "i" ["a.png"]) by (left; vm_compute; reflexivity).
  assert (D : "x"%char <> "-"%char) by discriminate.
  split; [exact P|]. split; [exact R|]. split; [exact F|]. split; [exact A|].
  split; [exact D|].
  exact (X18_diagnostic_in_cluster Sample.X false "swayimg" ["-s"; "fit"] ["f"%char]
           "x"%char "i" ["a.png"] Sample.default_config _ _ P R F A D).
Defined.

(** X19. A long option that is not accepted (a name the table does not
    have, a value given to a flag, or the value of an option missing at
    the end of the command line), behind options that are all accepted:
    the scan returns -1 with [argv] as it was and the configuration the
    options before it left, and the diagnostic names its token:
    getopt_long has stepped over it, so [argv[optind - 1]] is that
    token. *)
Theorem X19_long_option_diagnostic (X : externals) (posixly_correct : bool)
    (prog : string) (pre : list string) (body : string) (rest : list string)
    (cfg cfg1 : config_t) (codes : list Z) :
  options_only pre = true ->
  run_events X (events (ordering_of posixly_correct) false pre) cfg
  = (Finished, cfg1, codes) ->
  body <> "" ->
  fst (long_event body (hd_error rest)) = chr "?" ->
  parse_cmdline X posixly_correct (prog :: pre ++ long_form body :: rest) cfg
  = Some (mk_parse (-1)%Z cfg1 (prog :: pre ++ long_form body :: rest)
            (map EvGetopt codes
             ++ [ EvGetopt (chr "?");
                  EvStderr ("Invalid argument: " ++ long_form body ++ nl) ])).
Proof.
  intros Hpre Hev Hb Hq.
  set (a := prog :: pre ++ long_form body :: rest).
  destruct (parse_cmdline_total X posixly_correct a cfg) as [r Hr].
  destruct (parse_cmdline_run _ _ _ _ _ Hr) as (res & Hrun & Hres).
  destruct (scan_to_token X posixly_correct prog pre (long_form body) rest cfg cfg1 codes
              res Hpre Hev Hrun) as (oa & f & res1 & Hf & Hrun1 & ->).
  fold a in Hrun1.
  assert (Hi : S (length pre) < length a) by apply length_command_line.
  assert (Ht : arg a (S (length pre)) = long_form body)
    by (unfold a, arg; now rewrite nth_at_prefix).
  assert (Eg := getopt_clean_long (ordering_of posixly_correct) a (S (length pre)) oa f
                  body Hf Hi Ht Hb).
  destruct (process_long_option short_opts options _) as [opt d'] eqn:Ep.
  destruct (long_option_rejected _ _ _ Ep) as (-> & Hind & Harg).
  { cbn [nextchar optind d_argv]. unfold a. rewrite skipn_behind_token. exact Hq. }
  cbn [optind d_argv] in Hind, Harg.
  destruct (loop_run_step _ _ _ _ _ _ _ Eg Hrun1)
    as [[H _] | [(_ & rc & cfg' & out & Es & ->) | (_ & cfg' & res' & Es & _)]];
    [discriminate H| |rewrite switch_unknown in Es; discriminate Es].
  rewrite switch_unknown in Es. injection Es as <- <- <-.
  cbn [emit l_exit l_cfg l_data l_trace] in Hres.
  rewrite Hr, Hres, Harg, Hind, Nat.sub_succ, Nat.sub_0_r, Ht. reflexivity.
Qed.

(** X19 on [swayimg -f --info=1 a.png]. *)
Lemma X19_long_option_diagnostic_witness :
  options_only ["-f"] = true
  /\ run_events Sample.X (events (ordering_of false) false ["-f"]) Sample.default_config
     = (Finished, set_sway_wm (set_fullscreen Sample.default_config true) false,
        [chr "f"])
  /\ "info=1" <> ""
  /\ fst (long_event "info=1" (hd_error ["a.png"])) = chr "?"
  /\ parse_cmdline Sample.X false ("swayimg" :: ["-f"] ++ long_form "info=1" :: ["a.png"])
       Sample.default_config
     = Some (mk_parse (-1)%Z (set_sway_wm (set_fullscreen Sample.default_config true) false)
               ("swayimg" :: ["-f"] ++ long_form "info=1" :: ["a.png"])
               (map EvGetopt [chr "f"]
                ++ [ EvGetopt (chr "?");
                     EvStderr ("Invalid argument: " ++ long_form "info=1" ++ nl) ])).
Proof.
  assert (P : options_only ["-f"] = true) by (vm_compute; reflexivity).
  assert (R : run_events Sample.X (events (ordering_of false) false ["-f"])
                Sample.default_config
              = (Finished, set_sway_wm (set_fullscreen Sample.default_config true) false,
                 [chr "f"]))
    by (vm_compute; reflexivity).
  assert (B : "info=1" <> "") by discriminate.
  assert (Q : fst (long_event "info=1" (hd_error ["a.png"])) = chr "?")
    by (vm_compute; reflexivity).
  split; [exact P|]. split; [exact R|]. split; [exact B|]. split; [exact Q|].
  exact (X19_long_option_diagnostic Sample.X false "swayimg" ["-f"] "info=1" ["a.png"]
           Sample.default_config _ _ P R B Q).
Defined.

(** ** One option on the command line *)

(** X20. What each option does, given alone in its long form: the three
    flags assign their fields ([--fullscreen] switches the Sway
    integration off as well), and each option with a value hands the
    value to its own setter, whose answer decides between going on to
    the configuration check and returning -1. *)
Theorem X20_each_option_alone (X : externals) (posixly_correct : bool)
    (prog v : string) (cfg : config_t) :
  outcome X posixly_correct [prog; long_form "fullscreen"] cfg
  = Some (1%Z, check_config X (set_sway_wm (set_fullscreen cfg true) false),
          [chr "f"; (-1)%Z], [])
  /\ outcome X posixly_correct [prog; long_form "info"] cfg
     = Some (1%Z, check_config X (set_show_info cfg true), [chr "i"; (-1)%Z], [])
  /\ outcome X posixly_correct [prog; long_form "no-sway"] cfg
     = Some (1%Z, check_config X (set_sway_wm cfg false), [chr "n"; (-1)%Z], [])
  /\ outcome X posixly_correct [prog; long_form_with "scale" v] cfg
     = Some (setter_outcome X (chr "s") (set_scale_config X cfg (Some v)))
  /\ outcome X posixly_correct [prog; long_form_with "background" v] cfg
     = Some (setter_outcome X (chr "b") (set_background_config X cfg (Some v)))
  /\ outcome X posixly_correct [prog; long_form_with "geometry" v] cfg
     = Some (setter_outcome X (chr "g") (set_geometry_config X cfg (Some v)))
  /\ outcome X posixly_correct [prog; long_form_with "class" v] cfg
     = Some (setter_outcome X (chr "c") (set_appid_config X cfg (Some v))).
Proof.
  repeat apply conj.
  - apply (one_flag X _ prog cfg (mk_option (Some "fullscreen") no_argument (chr "f")));
      try reflexivity. simpl; tauto.
  - apply (one_flag X _ prog cfg (mk_option (Some "info") no_argument (chr "i")));
      try reflexivity. simpl; tauto.
  - apply (one_flag X _ prog cfg (mk_option (Some "no-sway") no_argument (chr "n")));
      try reflexivity. simpl; tauto.
  - apply (one_value_option X _ prog cfg
             (mk_option (Some "scale") required_argument (chr "s")));
      try reflexivity. simpl; tauto.
  - apply (one_value_option X _ prog cfg
             (mk_option (Some "background") required_argument (chr "b")));
      try reflexivity. simpl; tauto.
  - apply (one_value_option X _ prog cfg
             (mk_option (Some "geometry") required_argument (chr "g")));
      try reflexivity. simpl; tauto.
  - apply (one_value_option X _ prog cfg
             (mk_option (Some "class") required_argument (chr "c")));
      try reflexivity. simpl; tauto.
Qed.

(** ** The order of the options *)

(** X21. The loop looks at the options in the order of the command line,
    each once, whatever the other modules do: the values getopt_long gives
    are those the tokens spell, all of them and then -1 when the scan goes
    through, and otherwise the first of them up to the one whose [case]
    returns.  So getopt_long is called at most once more than there are
    options on the command line. *)
Theorem X21_options_in_order (X : externals) (posixly_correct : bool)
    (argv : list string) (cfg : config_t) (r : parse_result) :
  parse_cmdline X posixly_correct argv cfg = Some r ->
  let spelled := map fst (events (ordering_of posixly_correct) false (tl argv)) in
  ((0 < p_ret r)%Z -> getopt_codes (p_trace r) = spelled ++ [(-1)%Z])
  /\ ((p_ret r <= 0)%Z ->
      exists k, k < length spelled /\ getopt_codes (p_trace r) = firstn (S k) spelled)
  /\ count is_getopt (p_trace r) <= S (length spelled).
Proof.
  intros Hr. cbv zeta.
  pose proof (parse_cmdline_outcome _ _ _ _ _ Hr) as Ho.
  unfold scan_outcome, tokens_outcome, events_outcome in Ho.
  destruct (run_events X _ cfg) as [[e c] codes] eqn:Er.
  pose proof (run_events_prefix _ _ _ _ _ _ Er) as Hp.
  rewrite count_getopt_codes.
  destruct e as [rc|];
    pose proof (f_equal (fun t => fst (fst (fst t))) Ho) as Hs;
    pose proof (f_equal (fun t => snd (fst t)) Ho) as Hg;
    cbn [fst snd] in Hs, Hg; rewrite Hg; clear Ho Hg.
  - destruct Hp as (k & Hk & ->).
    assert (Hle : (p_ret r <= 0)%Z)
      by (destruct (run_events_rc _ _ _ _ _ _ Er) as [->| ->]; cbn [Z.sgn] in Hs; lia).
    repeat apply conj.
    + lia.
    + intros _. exists k. split; [now rewrite length_map|reflexivity].
    + rewrite length_firstn. lia.
  - subst codes. repeat apply conj.
    + reflexivity.
    + cbn [Z.sgn] in Hs. lia.
    + rewrite length_app. cbn [length]. lia.
Qed.

(** X21 on [swayimg -i --help a.png --bogus]. *)
Lemma X21_options_in_order_witness :
  parse_cmdline Sample.X false Examples.help_in_the_middle Sample.default_config
  = Some (Examples.run false Examples.help_in_the_middle)
  /\ map fst (events (ordering_of false) false (tl Examples.help_in_the_middle))
     = [chr "i"; chr "h"; chr "?"]
  /\ count is_getopt (p_trace (Examples.run false Examples.help_in_the_middle))
     <= S (length (map fst (events (ordering_of false) false
                              (tl Examples.help_in_the_middle)))).
Proof.
  assert (E : parse_cmdline Sample.X false Examples.help_in_the_middle
                Sample.default_config
              = Some (Examples.run false Examples.help_in_the_middle))
    by (vm_compute; reflexivity).
  split; [exact E|]. split; [vm_compute; reflexivity|].
  exact (proj2 (proj2 (X21_options_in_order Sample.X false Examples.help_in_the_middle
                         Sample.default_config _ E))).
Defined.
